(** * SynchroTraceGen (Sigil2): event aggregation and communication detection

    A shallow embedding of the SynchroTraceGen backend of Sigil2:
    - [AddrSet]       (STEvent.cpp)       range set that merges on insertion,
    - [STCompEvent], [STCommEvent]        (STEvent.cpp) the two aggregators,
    - [ThreadContext] (ThreadContext.hpp) the per-thread state machine,
    - [CapnLogger]    (CapnLogger.cpp)    the packed-binary encoder,
    - [EventHandlers] (EventHandlers.cpp) the dispatcher.

    Unsigned machine integers are [Z] with the wrap-around written out.
    Code that can abort (a failed [assert], [fatal]) returns a [result]. *)

From stdpp Require Import base numbers option list gmap strings pretty.
From Stdlib Require Import ZArith Lia Ascii.

Open Scope Z_scope.

(** ** Outcomes of fallible code *)

(** Why the process stops: a failed [assert], the [fatal] call on event-id
    overflow of [INCR_EID_OVERFLOW], the [fatal] call of the packed encoder
    on a sync value it has no case for, a call through a null
    [cachedTCxt].  [ModelStuck] is not a behaviour of the program: it marks
    the places the embedding cannot reach (recursion budget exhausted,
    dereference of a past-the-end iterator or of a dangling key). *)
Inductive fatal : Type :=
  | AssertionFailed
  | EidOverflow
  | UnhandledSync
  | NullPointer
  | ModelStuck.

Inductive result (A : Type) : Type :=
  | Ok (a : A)
  | Fatal (e : fatal).
Arguments Ok {A} a.
Arguments Fatal {A} e.

#[global] Instance fatal_eq_dec : EqDecision fatal.
Proof. solve_decision. Defined.

#[global] Instance result_ret : MRet result := fun _ a => Ok a.
#[global] Instance result_bind : MBind result := fun _ _ f m =>
  match m with
  | Ok a => f a
  | Fatal e => Fatal e
  end.

Definition is_Ok {A} (r : result A) : bool :=
  match r with Ok _ => true | Fatal _ => false end.

(** [assert(c)] of <cassert>: continue when [c] holds, abort otherwise. *)
Definition assert_ (c : bool) : result unit :=
  if c then Ok tt else Fatal AssertionFailed.

(** ** Machine integers *)

(** Modelled from the spec: the typedef of [Addr] lives in a Sigil2 header
    that is not embedded here; the spec calls it an unsigned byte address
    wide enough for the target, and STEvent.cpp sizes its buffers by
    [sizeof(Addr)].  It is taken to be the 64-bit [uintptr_t]. *)
Abbreviation Addr := Z.
Definition Addr_modulus : Z := 2 ^ 64.
Definition Addr_max : Z := Addr_modulus - 1.

(** Unsigned wrap-around of [Addr] arithmetic. *)
Definition wrap (z : Z) : Addr := z mod Addr_modulus.

Definition is_Addr (a : Z) : Prop := 0 <= a <= Addr_max.

(** Modelled from the spec: thread ids ([TID]) and event ids ([EID],
    [StatCounter]) are declared in STTypes.hpp, which is not embedded here;
    the conversion of a sync id to a thread id is taken to be the
    identity. *)
Abbreviation TID := Z.
Abbreviation EID := Z.

(** ** AddrSet: the unique address set (STEvent.cpp) *)

Abbreviation AddrRange := (Addr * Addr)%type.

(** [operator<] of [std::pair]: lexicographic. *)
Definition pair_ltb (x y : AddrRange) : bool :=
  (x.1 <? y.1) || ((x.1 =? y.1) && (x.2 <? y.2)).

Module AddrSet.

(** The member [ms] is the ordered container of ranges; it is modelled by
    the list of its elements in iteration order, and an iterator by a
    position in that list ([cbegin] is [0], [cend] is the length). *)
Abbreviation t := (list AddrRange).

(** [ms.lower_bound(range)]: position of the first element that is not less
    than [range]. *)
Fixpoint lower_bound (ms : t) (range : AddrRange) : nat :=
  match ms with
  | [] => O
  | x :: ms' => if pair_ltb x range then S (lower_bound ms' range) else O
  end.

(** [ms.insert(range)] / [ms.emplace(a, b)] of the ordered container: the
    element is placed after the elements not greater than it.  (The
    container keeps equal elements, as a [std::multiset] does; by
    [canon_sorted] below, the lists that arise from ranges below the last
    address hold no element twice, so that a [std::set] behaves the
    same.) *)
Fixpoint ms_insert (range : AddrRange) (ms : t) : t :=
  match ms with
  | [] => [range]
  | x :: ms' =>
      if pair_ltb range x then range :: x :: ms' else x :: ms_insert range ms'
  end.

(** The iterator adjustment of [insert]: lines "if (it != ms.cbegin())". *)
Definition adjust (ms : t) (range : AddrRange) (it : nat) : nat :=
  if bool_decide (it ≠ O) then
    if bool_decide (it = length ms) then (length ms - 1)%nat
    else
      match ms !! (it - 1)%nat with
      | Some prev => if range.1 >? wrap (prev.2 + 1) then it else (it - 1)%nat
      | None => it
      end
  else it.

(** [ms.empty()]. *)
Definition empty (ms : t) : bool :=
  match ms with [] => true | _ :: _ => false end.

(** The body of [AddrSet::insert]; [insert] stands for the recursive
    calls. *)
Definition insert_body (insert : t -> AddrRange -> result t) (ms : t)
    (range : AddrRange) : result t :=
  _ ← assert_ (range.1 <=? range.2);
  if empty ms then Ok (ms_insert range ms)
  else
    let it := adjust ms range (lower_bound ms range) in
    match ms !! it with
    | None => Fatal ModelStuck
    | Some cur =>
        if range.1 =? wrap (cur.2 + 1) then
          insert (delete it ms) (cur.1, range.2)
        else if wrap (range.2 + 1) =? cur.1 then
          insert (delete it ms) (range.1, cur.2)
        else if range.1 >? cur.2 then
          Ok (ms_insert range ms)
        else if range.1 >=? cur.1 then
          if range.2 >? cur.2 then
            insert (delete it ms) (cur.1, range.2)
          else Ok ms
        else
          if range.2 <? cur.1 then Ok (ms_insert range ms)
          else if range.2 <=? cur.2 then
            Ok (ms_insert (range.1, cur.2) (delete it ms))
          else insert (delete it ms) range
    end.

(** [AddrSet::insert].  Every recursive call follows an [ms.erase(it)], so
    the number of stored ranges bounds the depth; [fuel] is that bound. *)
Fixpoint insert_rec (fuel : nat) (ms : t) (range : AddrRange) : result t :=
  match fuel with
  | O => Fatal ModelStuck
  | S fuel => insert_body (insert_rec fuel) ms range
  end.

Definition insert (ms : t) (range : AddrRange) : result t :=
  insert_rec (S (length ms)) ms range.

(** [AddrSet::clear]. *)
Definition clear (ms : t) : t := [].

(** Modelled from the spec: the constructor [AddrSet(range)] that
    [STCommEvent::addEdge] calls is declared in STEvent.hpp, which is not
    embedded here; it yields the set that holds [range] alone. *)
Definition singleton (range : AddrRange) : t := ms_insert range [].

(** Insertion of a sequence of ranges, left to right. *)
Fixpoint insert_all (ms : t) (rs : list AddrRange) : result t :=
  match rs with
  | [] => Ok ms
  | r :: rs' => ms' ← insert ms r; insert_all ms' rs'
  end.

(** *** What the set is meant to be *)

(** A range as [insert] expects it, [first <= second], that stays clear of
    the last address: beyond it [second + 1] wraps to [0]. *)
Definition valid (r : AddrRange) : Prop :=
  0 <= r.1 /\ r.1 <= r.2 /\ r.2 < Addr_max.

(** [a] lies below [b], and the two neither overlap nor touch. *)
Definition gap (a b : AddrRange) : Prop := a.2 + 1 < b.1.

(** The address [p] lies in the range [r]. *)
Definition covers (r : AddrRange) (p : Z) : Prop := r.1 <= p <= r.2.

(** The address [p] lies in a stored range. *)
Definition holds (ms : t) (p : Z) : Prop := Exists (fun r => covers r p) ms.

(** The address [p] lies in one of the ranges of a sequence. *)
Definition union_of (rs : list AddrRange) (p : Z) : Prop :=
  Exists (fun r => covers r p) rs.

(** The stored ranges are valid, ascending, and no two overlap or touch. *)
Fixpoint canon (ms : t) : Prop :=
  match ms with
  | [] => True
  | r :: ms' => valid r /\ Forall (gap r) ms' /\ canon ms'
  end.

(** [x] is not greater than [y] in the order of the container. *)
Definition pair_le (x y : AddrRange) : Prop := pair_ltb y x = false.

(** The list is in the order in which the container iterates. *)
Fixpoint sorted (ms : t) : Prop :=
  match ms with
  | [] => True
  | x :: ms' => Forall (pair_le x) ms' /\ sorted ms'
  end.

(** What one [insert] of [r] into [ms] must yield. *)
Definition insert_post (ms : t) (r : AddrRange) (ms' : t) : Prop :=
  canon ms' /\ forall p, holds ms' p <-> holds ms p \/ covers r p.

End AddrSet.

(** ** Counters *)

(** Modelled from the spec: [StatCounter] and the counter members are
    unsigned integers declared in headers that are not embedded here; their
    width is taken to be 64 bits. *)
Definition StatCounter_max : Z := 2 ^ 64 - 1.

(** [++c] on an unsigned counter. *)
Definition incr (c : Z) : Z := (c + 1) mod (StatCounter_max + 1).

(** [INCR_EID_OVERFLOW(var)]: [true] exactly when [var + 1] does not fit;
    every caller turns [true] into [fatal(...)]. *)
Definition INCR_EID_OVERFLOW (var : EID) : result EID :=
  if var =? StatCounter_max then Fatal EidOverflow else Ok (var + 1).

(** ** STCompEvent: the compute aggregator (STEvent.cpp) *)

(** The members carry the names that ThreadContext.hpp and CapnLogger.cpp
    use ([iops], [flops], [reads], [writes], [uniqueWriteAddrs],
    [isActive]); in STEvent.cpp the same members are spelled [iop_cnt],
    [flop_cnt], [thread_local_load_cnt], [thread_local_store_cnt],
    [stores_unique], [loads_unique] and [is_empty] (the negation of
    [isActive]). *)
Record STCompEvent : Type := mkSTCompEvent {
  iops : Z;
  flops : Z;
  reads : Z;
  writes : Z;
  total_events : Z;
  uniqueWriteAddrs : AddrSet.t;
  uniqueReadAddrs : AddrSet.t;
  isActive : bool
}.

Module CompEvent.

(** [STCompEvent::reset]. *)
Definition reset (ev : STCompEvent) : STCompEvent :=
  {| iops := 0; flops := 0; reads := 0; writes := 0; total_events := 0;
     uniqueWriteAddrs := AddrSet.clear (uniqueWriteAddrs ev);
     uniqueReadAddrs := AddrSet.clear (uniqueReadAddrs ev);
     isActive := false |}.

(** The constructor runs [reset()] on the fresh object. *)
Definition init : STCompEvent :=
  reset (mkSTCompEvent 0 0 0 0 0 [] [] false).

(** [STCompEvent::updateWrites(begin, size)]. *)
Definition updateWrites (ev : STCompEvent) (begin size : Addr)
  : result STCompEvent :=
  s ← AddrSet.insert (uniqueWriteAddrs ev)
        (begin, wrap (wrap (begin + size) - 1));
  Ok {| iops := iops ev; flops := flops ev; reads := reads ev;
        writes := writes ev; total_events := total_events ev;
        uniqueWriteAddrs := s; uniqueReadAddrs := uniqueReadAddrs ev;
        isActive := isActive ev |}.

(** [STCompEvent::updateReads(begin, size)]. *)
Definition updateReads (ev : STCompEvent) (begin size : Addr)
  : result STCompEvent :=
  s ← AddrSet.insert (uniqueReadAddrs ev)
        (begin, wrap (wrap (begin + size) - 1));
  Ok {| iops := iops ev; flops := flops ev; reads := reads ev;
        writes := writes ev; total_events := total_events ev;
        uniqueWriteAddrs := uniqueWriteAddrs ev; uniqueReadAddrs := s;
        isActive := isActive ev |}.

(** [STCompEvent::incWrites]. *)
Definition incWrites (ev : STCompEvent) : STCompEvent :=
  {| iops := iops ev; flops := flops ev; reads := reads ev;
     writes := incr (writes ev); total_events := incr (total_events ev);
     uniqueWriteAddrs := uniqueWriteAddrs ev;
     uniqueReadAddrs := uniqueReadAddrs ev; isActive := true |}.

(** [STCompEvent::incReads]. *)
Definition incReads (ev : STCompEvent) : STCompEvent :=
  {| iops := iops ev; flops := flops ev; reads := incr (reads ev);
     writes := writes ev; total_events := incr (total_events ev);
     uniqueWriteAddrs := uniqueWriteAddrs ev;
     uniqueReadAddrs := uniqueReadAddrs ev; isActive := true |}.

(** [STCompEvent::incIOP]. *)
Definition incIOP (ev : STCompEvent) : STCompEvent :=
  {| iops := incr (iops ev); flops := flops ev; reads := reads ev;
     writes := writes ev; total_events := incr (total_events ev);
     uniqueWriteAddrs := uniqueWriteAddrs ev;
     uniqueReadAddrs := uniqueReadAddrs ev; isActive := true |}.

(** [STCompEvent::incFLOP]. *)
Definition incFLOP (ev : STCompEvent) : STCompEvent :=
  {| iops := iops ev; flops := incr (flops ev); reads := reads ev;
     writes := writes ev; total_events := incr (total_events ev);
     uniqueWriteAddrs := uniqueWriteAddrs ev;
     uniqueReadAddrs := uniqueReadAddrs ev; isActive := true |}.

End CompEvent.

(** ** STCommEvent: the communication aggregator (STEvent.cpp) *)

(** One edge: producer thread, producer event, addresses read. *)
Abbreviation CommEdge := (TID * EID * list AddrRange)%type.

(** [commActive] is the member [isActive] of [STCommEvent] ([is_empty]
    negated in STEvent.cpp); the name is taken by the compute event. *)
Record STCommEvent : Type := mkSTCommEvent {
  comms : list CommEdge;
  commActive : bool
}.

Module CommEvent.

(** [STCommEvent::reset]. *)
Definition reset (ev : STCommEvent) : STCommEvent :=
  {| comms := []; commActive := false |}.

Definition init : STCommEvent := reset (mkSTCommEvent [] false).

(** The loop of [addEdge] over [comms]: the first edge of the same writer
    and writer event takes the address; [None] when no edge matches. *)
Fixpoint addEdge_loop (cs : list CommEdge) (writer : TID) (writer_event : EID)
    (addr : Addr) : result (option (list CommEdge)) :=
  match cs with
  | [] => Ok None
  | edge :: cs' =>
      if (edge.1.1 =? writer) && (edge.1.2 =? writer_event) then
        s ← AddrSet.insert edge.2 (addr, addr);
        Ok (Some ((edge.1.1, edge.1.2, s) :: cs'))
      else
        r ← addEdge_loop cs' writer writer_event addr;
        Ok (option_map (cons edge) r)
  end.

(** [STCommEvent::addEdge]. *)
Definition addEdge (ev : STCommEvent) (writer : TID) (writer_event : EID)
    (addr : Addr) : result STCommEvent :=
  let fresh := (writer, writer_event, AddrSet.singleton (addr, addr)) in
  match comms ev with
  | [] => Ok {| comms := [fresh]; commActive := true |}
  | _ :: _ =>
      r ← addEdge_loop (comms ev) writer writer_event addr;
      match r with
      | Some cs => Ok {| comms := cs; commActive := true |}
      | None => Ok {| comms := comms ev ++ [fresh]; commActive := true |}
      end
  end.

End CommEvent.

(** ** The flushes of STEvent.cpp: the text lines *)

(** In STEvent.cpp every event writes its own line and bumps the event id
    it shares with the other events of the thread.  [Sink] holds what these
    flushes share: the event id, the thread id and the lines logged. *)
Record Sink : Type := mkSink {
  event_id : EID;
  thread_id : TID;
  lines : list string
}.

Module STEventText.
Section WithHex.

(** The helper [n2hexstr] is declared in STEvent.hpp, which is not embedded
    here: it is a parameter. *)
Variable n2hexstr : Addr -> string.

(** The loops "for (auto &addr_pair : ...)" of the flushes: each range is
    checked and appended behind its marker. *)
Fixpoint log_ranges (marker : string) (rs : list AddrRange) (logmsg : string)
  : result string :=
  match rs with
  | [] => Ok logmsg
  | addr_pair :: rs' =>
      _ ← assert_ (addr_pair.1 <=? addr_pair.2);
      log_ranges marker rs'
        (logmsg +:+ marker +:+ n2hexstr addr_pair.1 +:+ " "
                +:+ n2hexstr addr_pair.2)
  end.

(** [STCompEvent::flush]. *)
Definition STCompEvent_flush (ev : STCompEvent) (k : Sink)
  : result (STCompEvent * Sink) :=
  if isActive ev then
    let logmsg :=
      pretty (event_id k) +:+ "," +:+ pretty (thread_id k) +:+ ","
      +:+ pretty (iops ev) +:+ "," +:+ pretty (flops ev) +:+ ","
      +:+ pretty (reads ev) +:+ "," +:+ pretty (writes ev) in
    logmsg ← log_ranges " $ " (uniqueWriteAddrs ev) logmsg;
    logmsg ← log_ranges " * " (uniqueReadAddrs ev) logmsg;
    e ← INCR_EID_OVERFLOW (event_id k);
    Ok (CompEvent.reset ev, mkSink e (thread_id k) (lines k ++ [logmsg]))
  else Ok (ev, k).

(** The loop of [STCommEvent::flush] over the edges. *)
Fixpoint log_edges (cs : list CommEdge) (logmsg : string) : result string :=
  match cs with
  | [] => Ok logmsg
  | edge :: cs' =>
      logmsg ← log_ranges
                 (" # " +:+ pretty edge.1.1 +:+ " " +:+ pretty edge.1.2
                        +:+ " ")
                 edge.2 logmsg;
      log_edges cs' logmsg
  end.

(** [STCommEvent::flush]. *)
Definition STCommEvent_flush (ev : STCommEvent) (k : Sink)
  : result (STCommEvent * Sink) :=
  if commActive ev then
    let logmsg := pretty (event_id k) +:+ "," +:+ pretty (thread_id k) in
    _ ← assert_ (negb (bool_decide (comms ev = [])));
    logmsg ← log_edges (comms ev) logmsg;
    e ← INCR_EID_OVERFLOW (event_id k);
    Ok (CommEvent.reset ev, mkSink e (thread_id k) (lines k ++ [logmsg]))
  else Ok (ev, k).

(** [STSyncEvent::flush]. *)
Definition STSyncEvent_flush (type : Z) (sync_addr : Addr) (k : Sink)
  : result Sink :=
  let logmsg :=
    pretty (event_id k) +:+ "," +:+ pretty (thread_id k) +:+ ",pth_ty:"
    +:+ pretty type +:+ "^" +:+ n2hexstr sync_addr in
  e ← INCR_EID_OVERFLOW (event_id k);
  Ok (mkSink e (thread_id k) (lines k ++ [logmsg])).

(** [STInstrEvent]: the instruction addresses waiting for their line;
    [None] when [is_empty] holds. *)
Definition STInstrEvent_append_instr (instrs : option string) (addr : Addr)
  : option string :=
  Some (default "" instrs +:+ "! " +:+ n2hexstr addr +:+ " ").

(** [STInstrEvent::flush]. *)
Definition STInstrEvent_flush (instrs : option string) (k : Sink)
  : option string * Sink :=
  match instrs with
  | Some l => (None, mkSink (event_id k) (thread_id k) (lines k ++ [l]))
  | None => (None, k)
  end.

End WithHex.
End STEventText.

(** ** STShadowMemory: per-byte last writer and readers *)

(** Modelled from the spec: STShadowMemory.hpp is not embedded here; the
    cell of a byte holds the last writer thread (or the undefined
    value), the event id of that write and the set of threads that read the
    byte since. *)
Record ShadowCell : Type := mkShadowCell {
  writer_tid : TID;
  writer_eid : EID;
  reader_set : gset Z
}.

Abbreviation STShadowMemory := (gmap Z ShadowCell).

(** Modelled from the spec: the two build-time choices of the shadow memory:
    the value [SO_UNDEF] that stands for "no writer recorded", and which
    addresses the table accepts (every address under
    [ALLOW_ADDRESS_OVERFLOW]; otherwise an access outside the range throws
    [std::out_of_range]). *)
Class ShadowPolicy : Type := mkShadowPolicy {
  SO_UNDEF : TID;
  addr_in_range : Addr -> bool
}.

(** The byte addresses that a loop [for (i = 0; i < bytes; ++i)] visits as
    [start + i]. *)
Definition byte_addrs (start bytes : Addr) : list Addr :=
  (fun i : nat => wrap (start + Z.of_nat i)) <$> seq 0 (Z.to_nat bytes).

Module Shadow.
Section WithPolicy.
Context `{policy : ShadowPolicy}.

(** Modelled from the spec: a byte never touched has no writer and no
    reader. *)
Definition untouched : ShadowCell :=
  {| writer_tid := SO_UNDEF; writer_eid := 0; reader_set := ∅ |}.

(** Modelled from the spec: the table is sparse; the cell of a byte that
    was never touched reads as [untouched]. *)
Definition cell (sh : STShadowMemory) (addr : Addr) : ShadowCell :=
  default untouched (sh !! addr).

(** Modelled from the spec: [getWriter(addr)] of §4.2, the last writer or
    the undefined value; [None] stands for the out-of-range signal. *)
Definition getWriterTID (sh : STShadowMemory) (addr : Addr) : option TID :=
  if addr_in_range addr then Some (writer_tid (cell sh addr)) else None.

(** Modelled from the spec: [getWriterEid(addr)] of §4.2, the event id of
    the last writer. *)
Definition getWriterEID (sh : STShadowMemory) (addr : Addr) : option EID :=
  if addr_in_range addr then Some (writer_eid (cell sh addr)) else None.

(** Modelled from the spec: [isReader(addr, tid)] of §4.2, the membership
    test on the reader set of the byte. *)
Definition isReaderTID (sh : STShadowMemory) (addr : Addr) (tid : TID)
  : option bool :=
  if addr_in_range addr
  then Some (bool_decide (tid ∈ reader_set (cell sh addr)))
  else None.

(** Modelled from the spec: what [updateReader] does to one byte: [tid]
    joins its reader set. *)
Definition updateReader_byte (tid : TID) (sh : STShadowMemory) (addr : Addr)
  : option STShadowMemory :=
  if addr_in_range addr then
    Some (<[addr := {| writer_tid := writer_tid (cell sh addr);
                       writer_eid := writer_eid (cell sh addr);
                       reader_set := {[tid]} ∪ reader_set (cell sh addr) |}]> sh)
  else None.

(** Modelled from the spec: what [updateWriter] does to one byte: the byte
    is marked as written by [(tid, eid)] and its reader set is cleared. *)
Definition updateWriter_byte (tid : TID) (eid : EID) (sh : STShadowMemory)
    (addr : Addr) : option STShadowMemory :=
  if addr_in_range addr then
    Some (<[addr := {| writer_tid := tid; writer_eid := eid;
                       reader_set := ∅ |}]> sh)
  else None.

(** Modelled from the spec: an update of a range of bytes goes byte by
    byte; on an out-of-range byte the signal is raised and the access is
    dropped from the shadow tracking as a whole (§5, failure model). *)
Fixpoint each_byte (f : STShadowMemory -> Addr -> option STShadowMemory)
    (sh : STShadowMemory) (addrs : list Addr) : option STShadowMemory :=
  match addrs with
  | [] => Some sh
  | a :: addrs' =>
      match f sh a with
      | Some sh' => each_byte f sh' addrs'
      | None => None
      end
  end.

(** Modelled from the spec: [updateReader(addr, size, tid)] of §4.2. *)
Definition updateReader (sh : STShadowMemory) (addr size : Addr) (tid : TID)
  : option STShadowMemory :=
  each_byte (updateReader_byte tid) sh (byte_addrs addr size).

(** Modelled from the spec: [updateWriter(start, size, tid, eid)] of
    §4.2. *)
Definition updateWriter (sh : STShadowMemory) (start size : Addr) (tid : TID)
    (eid : EID) : option STShadowMemory :=
  each_byte (updateWriter_byte tid eid) sh (byte_addrs start size).

End WithPolicy.
End Shadow.

(** ** The calls a ThreadContext makes on its logger *)

(** [LoggerStrategy] is a template parameter of [ThreadContext]; what the
    context does with it is a sequence of calls, recorded here in order:
    [logger.flush(stComp, events, tid)], [logger.flush(stComm, events, tid)],
    [logger.flush(syncType, syncAddr, events, tid)] and
    [logger.instrMarker(limit)]. *)
Inductive LogCall : Type :=
  | FlushComp (ev : STCompEvent) (eid : EID) (tid : TID)
  | FlushComm (ev : STCommEvent) (eid : EID) (tid : TID)
  | FlushSync (syncType : Z) (syncAddr : Addr) (eid : EID) (tid : TID)
  | InstrMarker (limit : Z).

(** ** Statistics *)

Record Stats : Type := mkStats {
  stat_IOP : Z;
  stat_FLOP : Z;
  stat_READ : Z;
  stat_WRITE : Z;
  stat_INSTR : Z
}.

(** Modelled from the spec: [PerBarrierStats] is declared in a header that
    is not embedded here; it keeps the tallies since the last barrier
    and the closed tally of every barrier passed. *)
Record BarrierTally : Type := mkBarrierTally {
  bt_iops : Z;
  bt_flops : Z;
  bt_instrs : Z;
  bt_memAccesses : Z;
  bt_locks : Z
}.

Record PerBarrierStats : Type := mkPerBarrierStats {
  current : BarrierTally;
  barriers : list (Addr * BarrierTally)
}.

Module BarrierStats.

Definition zero : BarrierTally := mkBarrierTally 0 0 0 0 0.
Definition init : PerBarrierStats := mkPerBarrierStats zero [].

Definition upd (f : BarrierTally -> BarrierTally) (s : PerBarrierStats)
  : PerBarrierStats :=
  {| current := f (current s); barriers := barriers s |}.

Definition incIOPs : PerBarrierStats -> PerBarrierStats :=
  upd (fun c => mkBarrierTally (incr (bt_iops c)) (bt_flops c) (bt_instrs c)
                  (bt_memAccesses c) (bt_locks c)).
Definition incFLOPs : PerBarrierStats -> PerBarrierStats :=
  upd (fun c => mkBarrierTally (bt_iops c) (incr (bt_flops c)) (bt_instrs c)
                  (bt_memAccesses c) (bt_locks c)).
Definition incInstrs : PerBarrierStats -> PerBarrierStats :=
  upd (fun c => mkBarrierTally (bt_iops c) (bt_flops c) (incr (bt_instrs c))
                  (bt_memAccesses c) (bt_locks c)).
Definition incMemAccesses : PerBarrierStats -> PerBarrierStats :=
  upd (fun c => mkBarrierTally (bt_iops c) (bt_flops c) (bt_instrs c)
                  (incr (bt_memAccesses c)) (bt_locks c)).
Definition incLocks : PerBarrierStats -> PerBarrierStats :=
  upd (fun c => mkBarrierTally (bt_iops c) (bt_flops c) (bt_instrs c)
                  (bt_memAccesses c) (incr (bt_locks c))).
Definition barrier (s : PerBarrierStats) (id : Addr) : PerBarrierStats :=
  {| current := zero; barriers := barriers s ++ [(id, current s)] |}.

End BarrierStats.

(** ** ThreadContext (ThreadContext.hpp) *)

Record ThreadContext : Type := mkThreadContext {
  stComp : STCompEvent;
  stComm : STCommEvent;
  tid : TID;
  primsPerStCompEv : Z;
  logger : list LogCall;
  stats : Stats;
  events : EID;
  barrierStats : PerBarrierStats
}.

Module TCxt.

Definition set_stComp (c : STCompEvent) (tc : ThreadContext) : ThreadContext :=
  mkThreadContext c (stComm tc) (tid tc) (primsPerStCompEv tc) (logger tc)
    (stats tc) (events tc) (barrierStats tc).
Definition set_stComm (c : STCommEvent) (tc : ThreadContext) : ThreadContext :=
  mkThreadContext (stComp tc) c (tid tc) (primsPerStCompEv tc) (logger tc)
    (stats tc) (events tc) (barrierStats tc).
Definition set_logger (l : list LogCall) (tc : ThreadContext) : ThreadContext :=
  mkThreadContext (stComp tc) (stComm tc) (tid tc) (primsPerStCompEv tc) l
    (stats tc) (events tc) (barrierStats tc).
Definition set_stats (s : Stats) (tc : ThreadContext) : ThreadContext :=
  mkThreadContext (stComp tc) (stComm tc) (tid tc) (primsPerStCompEv tc)
    (logger tc) s (events tc) (barrierStats tc).
Definition set_events (e : EID) (tc : ThreadContext) : ThreadContext :=
  mkThreadContext (stComp tc) (stComm tc) (tid tc) (primsPerStCompEv tc)
    (logger tc) (stats tc) e (barrierStats tc).
Definition set_barrierStats (b : PerBarrierStats) (tc : ThreadContext)
  : ThreadContext :=
  mkThreadContext (stComp tc) (stComm tc) (tid tc) (primsPerStCompEv tc)
    (logger tc) (stats tc) (events tc) b.

(** The call [logger.m(...)]: one more entry in the record of calls. *)
Definition log (c : LogCall) (tc : ThreadContext) : ThreadContext :=
  set_logger (logger tc ++ [c]) tc.

(** A ThreadContext as its constructor leaves it: the two aggregators
    reset, [stats{0,0,0,0,0}], [events{0}], nothing logged. *)
Definition fresh (tid : TID) (primsPerStCompEv : Z) : ThreadContext :=
  {| stComp := CompEvent.init; stComm := CommEvent.init; tid := tid;
     primsPerStCompEv := primsPerStCompEv; logger := [];
     stats := mkStats 0 0 0 0 0; events := 0;
     barrierStats := BarrierStats.init |}.

(** The constructor, with its two assertions on the thread id and on the
    compression level. *)
Definition create (tid : TID) (primsPerStCompEv : Z) : result ThreadContext :=
  _ ← assert_ (tid <=? 128);
  _ ← assert_ ((0 <? primsPerStCompEv) && (primsPerStCompEv <=? 100));
  Ok (fresh tid primsPerStCompEv).

(** [compFlushIfActive]. *)
Definition compFlushIfActive (tc : ThreadContext) : result ThreadContext :=
  tc ← (if isActive (stComp tc) then
          let tc := log (FlushComp (stComp tc) (events tc) (tid tc)) tc in
          let tc := set_stComp (CompEvent.reset (stComp tc)) tc in
          e ← INCR_EID_OVERFLOW (events tc);
          Ok (set_events e tc)
        else Ok tc);
  _ ← assert_ (negb (isActive (stComp tc)));
  Ok tc.

(** [commFlushIfActive]. *)
Definition commFlushIfActive (tc : ThreadContext) : result ThreadContext :=
  tc ← (if commActive (stComm tc) then
          let tc := log (FlushComm (stComm tc) (events tc) (tid tc)) tc in
          let tc := set_stComm (CommEvent.reset (stComm tc)) tc in
          e ← INCR_EID_OVERFLOW (events tc);
          Ok (set_events e tc)
        else Ok tc);
  _ ← assert_ (negb (commActive (stComm tc)));
  Ok tc.

(** [checkCompFlushLimit]. *)
Definition checkCompFlushLimit (tc : ThreadContext) : result ThreadContext :=
  tc ← (if (writes (stComp tc) >=? primsPerStCompEv tc)
           || (reads (stComp tc) >=? primsPerStCompEv tc)
        then compFlushIfActive tc else Ok tc);
  _ ← assert_ (negb (isActive (stComp tc))
               || ((writes (stComp tc) <? primsPerStCompEv tc)
                   && (reads (stComp tc) <? primsPerStCompEv tc)));
  Ok tc.

(** [onIop]. *)
Definition onIop (tc : ThreadContext) : result ThreadContext :=
  tc ← commFlushIfActive tc;
  let tc := set_stComp (CompEvent.incIOP (stComp tc)) tc in
  let s := stats tc in
  let tc := set_stats (mkStats (incr (stat_IOP s)) (stat_FLOP s) (stat_READ s)
                         (stat_WRITE s) (stat_INSTR s)) tc in
  Ok (set_barrierStats (BarrierStats.incIOPs (barrierStats tc)) tc).

(** [onFlop]. *)
Definition onFlop (tc : ThreadContext) : result ThreadContext :=
  tc ← commFlushIfActive tc;
  let tc := set_stComp (CompEvent.incFLOP (stComp tc)) tc in
  let s := stats tc in
  let tc := set_stats (mkStats (stat_IOP s) (incr (stat_FLOP s)) (stat_READ s)
                         (stat_WRITE s) (stat_INSTR s)) tc in
  Ok (set_barrierStats (BarrierStats.incFLOPs (barrierStats tc)) tc).

Section WithShadow.
Context `{policy : ShadowPolicy}.

(** What the byte loop of [onRead] carries from one byte to the next: the
    two aggregators, the shared shadow memory and the flag [isCommEdge]. *)
Record ReadLoop : Type := mkReadLoop {
  rl_comp : STCompEvent;
  rl_comm : STCommEvent;
  rl_shadow : STShadowMemory;
  rl_isCommEdge : bool
}.

(** The [catch (std::out_of_range&)] block of the byte loop: the byte is
    recorded as a local read ([warn] only writes to the console). *)
Definition onRead_catch (st : ReadLoop) (sh : STShadowMemory)
    (isCommEdge : bool) (addr : Addr) : result ReadLoop :=
  c ← CompEvent.updateReads (rl_comp st) addr 1;
  Ok (mkReadLoop c (rl_comm st) sh isCommEdge).

(** One iteration of the byte loop of [onRead]: the [try] block, statement
    by statement, each shadow call either returning or throwing. *)
Definition onRead_byte (tid : TID) (st : ReadLoop) (addr : Addr)
  : result ReadLoop :=
  let sh := rl_shadow st in
  match Shadow.getWriterTID sh addr with
  | None => onRead_catch st sh (rl_isCommEdge st) addr
  | Some writer =>
      match Shadow.isReaderTID sh addr tid with
      | None => onRead_catch st sh (rl_isCommEdge st) addr
      | Some isReader =>
          match (if isReader then Some sh
                 else Shadow.updateReader sh addr 1 tid) with
          | None => onRead_catch st sh (rl_isCommEdge st) addr
          | Some sh1 =>
              if negb isReader && negb (writer =? tid)
                 && negb (writer =? SO_UNDEF)
              then
                match Shadow.getWriterEID sh1 addr with
                | None => onRead_catch st sh1 true addr
                | Some weid =>
                    c ← CommEvent.addEdge (rl_comm st) writer weid addr;
                    Ok (mkReadLoop (rl_comp st) c sh1 true)
                end
              else
                c ← CompEvent.updateReads (rl_comp st) addr 1;
                Ok (mkReadLoop c (rl_comm st) sh1 (rl_isCommEdge st))
          end
      end
  end.

(** The byte loop of [onRead]. *)
Fixpoint onRead_loop (tid : TID) (st : ReadLoop) (addrs : list Addr)
  : result ReadLoop :=
  match addrs with
  | [] => Ok st
  | a :: addrs' => st' ← onRead_byte tid st a; onRead_loop tid st' addrs'
  end.

(** [onRead] after the byte loop: the flush of the other aggregator, the
    compression check and the statistics. *)
Definition onRead_finish (tc : ThreadContext) (st : ReadLoop)
  : result (ThreadContext * STShadowMemory) :=
  let tc := set_stComm (rl_comm st) (set_stComp (rl_comp st) tc) in
  tc ← (if negb (rl_isCommEdge st) then
          tc ← commFlushIfActive tc;
          Ok (set_stComp (CompEvent.incReads (stComp tc)) tc)
        else compFlushIfActive tc);
  tc ← checkCompFlushLimit tc;
  let s := stats tc in
  let tc := set_stats (mkStats (stat_IOP s) (stat_FLOP s) (incr (stat_READ s))
                         (stat_WRITE s) (stat_INSTR s)) tc in
  Ok (set_barrierStats (BarrierStats.incMemAccesses (barrierStats tc)) tc,
      rl_shadow st).

(** [onRead]. *)
Definition onRead (tc : ThreadContext) (sh : STShadowMemory)
    (start bytes : Addr) : result (ThreadContext * STShadowMemory) :=
  st ← onRead_loop (tid tc) (mkReadLoop (stComp tc) (stComm tc) sh false)
         (byte_addrs start bytes);
  onRead_finish tc st.

(** [onWrite]. *)
Definition onWrite (tc : ThreadContext) (sh : STShadowMemory)
    (start bytes : Addr) : result (ThreadContext * STShadowMemory) :=
  let tc := set_stComp (CompEvent.incWrites (stComp tc)) tc in
  c ← CompEvent.updateWrites (stComp tc) start bytes;
  let tc := set_stComp c tc in
  let sh := match Shadow.updateWriter sh start bytes (tid tc) (events tc) with
            | Some sh' => sh'
            | None => sh
            end in
  tc ← checkCompFlushLimit tc;
  let s := stats tc in
  let tc := set_stats (mkStats (stat_IOP s) (stat_FLOP s) (stat_READ s)
                         (incr (stat_WRITE s)) (stat_INSTR s)) tc in
  Ok (set_barrierStats (BarrierStats.incMemAccesses (barrierStats tc)) tc, sh).

(** *** The byte loop of [onRead], as the classification reads *)

(** The byte [a] is a communication edge for the reader [tid] in the shadow
    memory [sh]: the table accepts [a], a writer is recorded, it is another
    thread, and [tid] has not read the byte since that write. *)
Definition comm_edge_byte (tid : TID) (sh : STShadowMemory) (a : Addr) : bool :=
  addr_in_range a
  && negb (writer_tid (Shadow.cell sh a) =? SO_UNDEF)
  && negb (writer_tid (Shadow.cell sh a) =? tid)
  && negb (bool_decide (tid ∈ reader_set (Shadow.cell sh a))).

(** The shadow memory once [tid] has read the byte [a]. *)
Definition mark_read (tid : TID) (sh : STShadowMemory) (a : Addr)
  : STShadowMemory :=
  if addr_in_range a && negb (bool_decide (tid ∈ reader_set (Shadow.cell sh a)))
  then <[a := {| writer_tid := writer_tid (Shadow.cell sh a);
                 writer_eid := writer_eid (Shadow.cell sh a);
                 reader_set := {[tid]} ∪ reader_set (Shadow.cell sh a) |}]> sh
  else sh.

(** One byte, classified against the shadow memory [sh0] as it was when the
    load began: an edge from the recorded writer and its event, or a local
    read range of one byte. *)
Definition classified_byte (tid : TID) (sh0 : STShadowMemory) (st : ReadLoop)
    (a : Addr) : result ReadLoop :=
  if comm_edge_byte tid sh0 a then
    c ← CommEvent.addEdge (rl_comm st) (writer_tid (Shadow.cell sh0 a))
          (writer_eid (Shadow.cell sh0 a)) a;
    Ok (mkReadLoop (rl_comp st) c (mark_read tid (rl_shadow st) a) true)
  else
    c ← CompEvent.updateReads (rl_comp st) a 1;
    Ok (mkReadLoop c (rl_comm st) (mark_read tid (rl_shadow st) a)
          (rl_isCommEdge st)).

Fixpoint classified_loop (tid : TID) (sh0 : STShadowMemory) (st : ReadLoop)
    (addrs : list Addr) : result ReadLoop :=
  match addrs with
  | [] => Ok st
  | a :: addrs' =>
      st' ← classified_byte tid sh0 st a; classified_loop tid sh0 st' addrs'
  end.

End WithShadow.

(** [onSync]: [syncType] is the canonical SynchroTrace number. *)
Definition onSync (tc : ThreadContext) (syncType : Z) (syncAddr : Addr)
  : result ThreadContext :=
  tc ← compFlushIfActive tc;
  tc ← commFlushIfActive tc;
  let tc :=
    if syncType =? 1 then
      set_barrierStats (BarrierStats.incLocks (barrierStats tc)) tc
    else if syncType =? 5 then
      set_barrierStats (BarrierStats.barrier (barrierStats tc) syncAddr) tc
    else tc in
  Ok (log (FlushSync syncType syncAddr (events tc) (tid tc)) tc).

(** [onInstr]: a marker every [2^12] instructions. *)
Definition onInstr (tc : ThreadContext) : ThreadContext :=
  let s := stats tc in
  let tc := set_stats (mkStats (stat_IOP s) (stat_FLOP s) (stat_READ s)
                         (stat_WRITE s) (incr (stat_INSTR s))) tc in
  let tc := set_barrierStats (BarrierStats.incInstrs (barrierStats tc)) tc in
  let limit := Z.shiftl 1 12 in
  if Z.land (limit - 1) (stat_INSTR (stats tc)) =? 0
  then log (InstrMarker limit) tc else tc.

(** The destructor [~ThreadContext]. *)
Definition destroy (tc : ThreadContext) : result ThreadContext :=
  tc ← compFlushIfActive tc;
  commFlushIfActive tc.

(** *** Runs of one ThreadContext *)

(** What reaches a ThreadContext: the primitives that the dispatcher
    forwards, and [FlushBoth], the two flushes that the dispatcher orders
    when it swaps the thread out and that the destructor runs. *)
Inductive Prim : Type :=
  | Load (start bytes : Addr)
  | Store (start bytes : Addr)
  | Iop
  | Flop
  | Sync (syncType : Z) (syncAddr : Addr)
  | Instr
  | FlushBoth.

Section Runs.
Context `{policy : ShadowPolicy}.

Definition step (tc : ThreadContext) (sh : STShadowMemory) (p : Prim)
  : result (ThreadContext * STShadowMemory) :=
  match p with
  | Load start bytes => onRead tc sh start bytes
  | Store start bytes => onWrite tc sh start bytes
  | Iop => tc ← onIop tc; Ok (tc, sh)
  | Flop => tc ← onFlop tc; Ok (tc, sh)
  | Sync ty a => tc ← onSync tc ty a; Ok (tc, sh)
  | Instr => Ok (onInstr tc, sh)
  | FlushBoth => tc ← destroy tc; Ok (tc, sh)
  end.

(** The states of a ThreadContext from its construction on.  The shadow
    memory is shared with the other threads: each step may find it in any
    state. *)
Inductive reachable : ThreadContext -> Prop :=
  | reach_create tid prims tc :
      create tid prims = Ok tc -> reachable tc
  | reach_step tc sh p tc' sh' :
      reachable tc -> step tc sh p = Ok (tc', sh') -> reachable tc'.

(** A run on a shadow memory that no other thread touches meanwhile. *)
Fixpoint run (tc : ThreadContext) (sh : STShadowMemory) (ps : list Prim)
  : result (ThreadContext * STShadowMemory) :=
  match ps with
  | [] => Ok (tc, sh)
  | p :: ps' => r ← step tc sh p; run r.1 r.2 ps'
  end.

End Runs.

(** The event id that a compute or communication record carries. *)
Definition agg_eid (c : LogCall) : option EID :=
  match c with
  | FlushComp _ eid _ | FlushComm _ eid _ => Some eid
  | FlushSync _ _ _ _ | InstrMarker _ => None
  end.

Definition agg_eids (l : list LogCall) : list EID := omap agg_eid l.

(** A compute or communication record was handed over by an aggregator that
    was active. *)
Definition from_active (c : LogCall) : Prop :=
  match c with
  | FlushComp ev _ _ => isActive ev = true
  | FlushComm ev _ _ => commActive ev = true
  | FlushSync _ _ _ _ | InstrMarker _ => True
  end.

(** After the compression check: the compute aggregator is inactive, or
    both counters are below the compression level. *)
Definition below_cap (tc : ThreadContext) : Prop :=
  isActive (stComp tc) = false \/
  (writes (stComp tc) < primsPerStCompEv tc /\
   reads (stComp tc) < primsPerStCompEv tc).

(** How the logger and the event counter move in one go: not at all, or by
    one record; a compute or communication record comes from an active
    aggregator, carries the current event id and bumps the counter, any
    other record leaves the counter alone. *)
Definition log_step (tc tc' : ThreadContext) : Prop :=
  (logger tc' = logger tc /\ events tc' = events tc) \/
  (exists c, logger tc' = logger tc ++ [c] /\ from_active c /\
     match agg_eid c with
     | Some e => e = events tc /\ events tc' = events tc + 1 /\
                 events tc <> StatCounter_max
     | None => events tc' = events tc
     end).

Definition log_steps : relation ThreadContext := rtc log_step.

(** The event ids of the compute and communication records so far are
    [0, 1, ..., events - 1], in this order. *)
Definition eid_inv (tc : ThreadContext) : Prop :=
  agg_eids (logger tc) = Z.of_nat <$> seq 0 (Z.to_nat (events tc)) /\
  0 <= events tc <= StatCounter_max.

End TCxt.

(** Case analysis on the outcome of the first computation of a bind. *)
Ltac bind_ok H :=
  match type of H with
  | (match ?m with Ok _ => _ | Fatal _ => _ end) = Ok _ =>
      let E := fresh "E" in
      destruct m eqn:E; simpl in H; [|discriminate H]
  | (?m ≫= _) = Ok _ =>
      let E := fresh "E" in
      destruct m eqn:E; simpl in H; [|discriminate H]
  end.

(** ** CapnLogger: the packed-binary encoder (CapnLogger.cpp) *)

(** The sync kinds of the serialization schema. *)
Inductive CapnSyncType : Type :=
  | LOCK | UNLOCK | SPAWN | JOIN | BARRIER | COND_WAIT | COND_SIGNAL
  | COND_BROADCAST | SPIN_LOCK | SPIN_UNLOCK.

(** One [Event] of the schema, as the builders of [flush] fill it. *)
Inductive CapnEvent : Type :=
  | CapnComp (iops flops reads writes : Z)
             (writeAddrs readAddrs : list AddrRange)
  | CapnComm (edges : list (TID * EID * list AddrRange))
  | CapnSync (type : CapnSyncType) (id : Addr)
  | CapnMarker (count : Z).

(** [orphans] are the events built and not yet written, [capn_events] the
    member [events] that counts them, [written] the messages handed to the
    compressed stream so far. *)
Record CapnLogger : Type := mkCapnLogger {
  orphans : list CapnEvent;
  capn_events : Z;
  written : list (list CapnEvent)
}.

Module Capn.

(** Modelled from the spec: the constant [eventsPerMessage] is declared in
    CapnLogger.hpp, which is not embedded here; the spec gives 1000. *)
Definition eventsPerMessage : Z := 1000.

Definition init : CapnLogger := mkCapnLogger [] 0 [].

(** [flushOrphans]: one message with the first [events] orphans. *)
Definition flushOrphans (l : CapnLogger) : CapnLogger :=
  {| orphans := [];
     capn_events := capn_events l;
     written := written l ++ [take (Z.to_nat (capn_events l)) (orphans l)] |}.

(** The common tail of every [flush]: keep the orphan, write a message when
    [eventsPerMessage] of them are waiting. *)
Definition emplace_back (l : CapnLogger) (orphan : CapnEvent) : CapnLogger :=
  let l := mkCapnLogger (orphans l ++ [orphan]) (incr (capn_events l))
             (written l) in
  if capn_events l =? eventsPerMessage then
    let l := flushOrphans l in
    mkCapnLogger (orphans l) 0 (written l)
  else l.

(** The event that [flush(const STCompEvent&, eid, tid)] builds: both range
    lists are read through [ev.uniqueWriteAddrs.get()]. *)
Definition comp_orphan (ev : STCompEvent) : CapnEvent :=
  let writesRange := uniqueWriteAddrs ev in
  let readsRange := uniqueWriteAddrs ev in
  CapnComp (iops ev) (flops ev) (reads ev) (writes ev) writesRange readsRange.

(** [CapnLogger::flush(const STCompEvent&, eid, tid)]. *)
Definition flush_comp (l : CapnLogger) (ev : STCompEvent) (eid : EID)
    (tid : TID) : CapnLogger :=
  emplace_back l (comp_orphan ev).

(** [CapnLogger::flush(const STCommEvent&, eid, tid)]. *)
Definition flush_comm (l : CapnLogger) (ev : STCommEvent) (eid : EID)
    (tid : TID) : CapnLogger :=
  emplace_back l (CapnComm (comms ev)).

(** The [switch] of the sync [flush]. *)
Definition translate_sync (syncType : Z) : result CapnSyncType :=
  if syncType =? 1 then Ok LOCK
  else if syncType =? 2 then Ok UNLOCK
  else if syncType =? 3 then Ok SPAWN
  else if syncType =? 4 then Ok JOIN
  else if syncType =? 5 then Ok BARRIER
  else if syncType =? 6 then Ok COND_WAIT
  else if syncType =? 7 then Ok COND_SIGNAL
  else if syncType =? 8 then Ok COND_BROADCAST
  else if syncType =? 9 then Ok SPIN_LOCK
  else if syncType =? 10 then Ok SPIN_UNLOCK
  else Fatal UnhandledSync.

(** [CapnLogger::flush(syncType, syncAddr, eid, tid)]. *)
Definition flush_sync (l : CapnLogger) (syncType : Z) (syncAddr : Addr)
    (eid : EID) (tid : TID) : result CapnLogger :=
  ty ← translate_sync syncType;
  Ok (emplace_back l (CapnSync ty syncAddr)).

(** [CapnLogger::instrMarker]. *)
Definition instrMarker (l : CapnLogger) (limit : Z) : CapnLogger :=
  emplace_back l (CapnMarker limit).

(** The encoder run on the calls of a ThreadContext. *)
Definition call (l : CapnLogger) (c : LogCall) : result CapnLogger :=
  match c with
  | FlushComp ev eid tid => Ok (flush_comp l ev eid tid)
  | FlushComm ev eid tid => Ok (flush_comm l ev eid tid)
  | FlushSync ty a eid tid => flush_sync l ty a eid tid
  | InstrMarker limit => Ok (instrMarker l limit)
  end.

End Capn.

(** ** EventHandlers: the dispatcher (EventHandlers.cpp) *)

(** Modelled from the spec: the primitives of the frontend are declared in
    the Sigil2 headers, which are not embedded here.  The sync kinds
    are the enumerators that EventHandlers.cpp names; [SGLPRIM_SYNC_other]
    stands for every other value of the integer type. *)
Inductive SyncType : Type :=
  | SGLPRIM_SYNC_SWAP
  | SGLPRIM_SYNC_CREATE
  | SGLPRIM_SYNC_BARRIER
  | SGLPRIM_SYNC_LOCK
  | SGLPRIM_SYNC_UNLOCK
  | SGLPRIM_SYNC_JOIN
  | SGLPRIM_SYNC_CONDWAIT
  | SGLPRIM_SYNC_CONDSIG
  | SGLPRIM_SYNC_CONDBROAD
  | SGLPRIM_SYNC_SPINLOCK
  | SGLPRIM_SYNC_SPINUNLOCK
  | SGLPRIM_SYNC_other (code : Z).

Inductive CompCostType : Type :=
  | SGLPRIM_COMP_IOP | SGLPRIM_COMP_FLOP | SGLPRIM_COMP_other (code : Z).

Inductive MemType : Type :=
  | SGLPRIM_MEM_LOAD | SGLPRIM_MEM_STORE | SGLPRIM_MEM_other (code : Z).

Inductive CxtType : Type :=
  | SGLPRIM_CXT_INSTR | SGLPRIM_CXT_other (code : Z).

Record SglSyncEv : Type := mkSglSyncEv { sync_type : SyncType; sync_id : Addr }.
Record SglCompEv : Type := mkSglCompEv { comp_type : CompCostType }.
Record SglMemEv : Type := mkSglMemEv {
  mem_type : MemType; begin_addr : Addr; mem_size : Addr
}.
Record SglCxtEv : Type := mkSglCxtEv { cxt_type : CxtType }.

(** The state shared by all threads: the unnamed namespace of
    EventHandlers.cpp and the static shadow memory. *)
Record Globals : Type := mkGlobals {
  g_primsPerStCompEv : Z;
  threadSpawns : list (TID * Addr);
  newThreadsInOrder : list TID;
  barrierParticipants : list (Addr * gset Z);
  shadow : STShadowMemory
}.

(** [cachedTCxt] points into [tcxts]: it is the key of the entry it points
    to, [None] for [nullptr]. *)
Record EventHandlers : Type := mkEventHandlers {
  tcxts : gmap Z ThreadContext;
  currentTID : TID;
  cachedTCxt : option TID
}.

Module EH.

Definition set_tcxts (m : gmap Z ThreadContext) (eh : EventHandlers)
  : EventHandlers := mkEventHandlers m (currentTID eh) (cachedTCxt eh).
Definition set_currentTID (t : TID) (eh : EventHandlers) : EventHandlers :=
  mkEventHandlers (tcxts eh) t (cachedTCxt eh).
Definition set_cachedTCxt (c : option TID) (eh : EventHandlers)
  : EventHandlers := mkEventHandlers (tcxts eh) (currentTID eh) c.

Definition set_shadow (sh : STShadowMemory) (g : Globals) : Globals :=
  mkGlobals (g_primsPerStCompEv g) (threadSpawns g) (newThreadsInOrder g)
    (barrierParticipants g) sh.

(** A call [cachedTCxt->m(...)]: the context the pointer designates is
    updated in place in [tcxts]. *)
Definition cached (eh : EventHandlers)
    (m : ThreadContext -> result ThreadContext) : result EventHandlers :=
  match cachedTCxt eh with
  | None => Fatal NullPointer
  | Some k =>
      match tcxts eh !! k with
      | None => Fatal ModelStuck
      | Some tc => tc' ← m tc; Ok (set_tcxts (<[k := tc']> (tcxts eh)) eh)
      end
  end.

(** The same for the two methods that also use the shared shadow memory. *)
Definition cached_mem (eh : EventHandlers) (g : Globals)
    (m : ThreadContext -> STShadowMemory ->
         result (ThreadContext * STShadowMemory))
  : result (EventHandlers * Globals) :=
  match cachedTCxt eh with
  | None => Fatal NullPointer
  | Some k =>
      match tcxts eh !! k with
      | None => Fatal ModelStuck
      | Some tc =>
          r ← m tc (shadow g);
          Ok (set_tcxts (<[k := r.1]> (tcxts eh)) eh, set_shadow r.2 g)
      end
  end.

(** [tcxts.emplace(newTID, ...)]: the context is constructed, and stored
    unless the key is taken. *)
Definition emplace (newTID : TID) (tc : ThreadContext)
    (m : gmap Z ThreadContext) : gmap Z ThreadContext :=
  match m !! newTID with
  | Some _ => m
  | None => <[newTID := tc]> m
  end.

(** [onSwapTCxt].  The last but one assertion is written
    [assert(currentTID = newTID)]: it assigns, and holds when the value
    assigned is not zero. *)
Definition onSwapTCxt (eh : EventHandlers) (g : Globals) (newTID : TID)
  : result (EventHandlers * Globals) :=
  _ ← assert_ (newTID >? 0);
  r ← (if bool_decide (currentTID eh ≠ newTID) then
         r ← (if bool_decide (newTID ∉ newThreadsInOrder g) then
                let g := mkGlobals (g_primsPerStCompEv g) (threadSpawns g)
                           (newThreadsInOrder g ++ [newTID])
                           (barrierParticipants g) (shadow g) in
                tc ← TCxt.create newTID (g_primsPerStCompEv g);
                Ok (set_tcxts (emplace newTID tc (tcxts eh)) eh, g)
              else Ok (eh, g));
         let g := r.2 in
         eh ← (match cachedTCxt r.1 with
               | Some _ =>
                   cached r.1 (fun tc => tc ← TCxt.compFlushIfActive tc;
                                         TCxt.commFlushIfActive tc)
               | None => Ok r.1
               end);
         let eh := set_currentTID newTID eh in
         _ ← assert_ (bool_decide (is_Some (tcxts eh !! currentTID eh)));
         Ok (set_cachedTCxt (Some (currentTID eh)) eh, g)
       else Ok (eh, g));
  let eh := set_currentTID newTID r.1 in
  _ ← assert_ (negb (newTID =? 0));
  _ ← assert_ (bool_decide (is_Some (cachedTCxt eh)));
  Ok (eh, r.2).

(** [onCreate]. *)
Definition onCreate (eh : EventHandlers) (g : Globals) (data : Addr)
  : Globals :=
  mkGlobals (g_primsPerStCompEv g) (threadSpawns g ++ [(currentTID eh, data)])
    (newThreadsInOrder g) (barrierParticipants g) (shadow g).

(** The scan of [onBarrier] for the entry of [data]. *)
Fixpoint barrier_idx (l : list (Addr * gset Z)) (data : Addr) : nat :=
  match l with
  | [] => O
  | p :: l' => if p.1 =? data then O else S (barrier_idx l' data)
  end.

(** [onBarrier]. *)
Definition onBarrier (eh : EventHandlers) (g : Globals) (data : Addr)
  : Globals :=
  let idx := barrier_idx (barrierParticipants g) data in
  let bp :=
    if bool_decide (idx = length (barrierParticipants g)) then
      barrierParticipants g ++ [(data, {[currentTID eh]})]
    else
      alter (fun p => (p.1, {[currentTID eh]} ∪ p.2)) idx
        (barrierParticipants g) in
  mkGlobals (g_primsPerStCompEv g) (threadSpawns g) (newThreadsInOrder g) bp
    (shadow g).

(** The [switch] of [convertAndFlush]: the SynchroTrace number of a sync
    kind, [0] for a kind without a case. *)
Definition stSyncType (type : SyncType) : Z :=
  match type with
  | SGLPRIM_SYNC_LOCK => 1
  | SGLPRIM_SYNC_UNLOCK => 2
  | SGLPRIM_SYNC_CREATE => 3
  | SGLPRIM_SYNC_JOIN => 4
  | SGLPRIM_SYNC_BARRIER => 5
  | SGLPRIM_SYNC_CONDWAIT => 6
  | SGLPRIM_SYNC_CONDSIG => 7
  | SGLPRIM_SYNC_CONDBROAD => 8
  | SGLPRIM_SYNC_SPINLOCK => 9
  | SGLPRIM_SYNC_SPINUNLOCK => 10
  | _ => 0
  end.

(** [convertAndFlush]. *)
Definition convertAndFlush (eh : EventHandlers) (type : SyncType) (data : Addr)
  : result EventHandlers :=
  if stSyncType type >? 0
  then cached eh (fun tc => TCxt.onSync tc (stSyncType type) data)
  else Ok eh.

(** [onSyncEv]. *)
Definition onSyncEv (eh : EventHandlers) (g : Globals) (ev : SglSyncEv)
  : result (EventHandlers * Globals) :=
  let syncType := sync_type ev in
  let syncID := sync_id ev in
  match syncType with
  | SGLPRIM_SYNC_SWAP => onSwapTCxt eh g syncID
  | _ =>
      let g := match syncType with
               | SGLPRIM_SYNC_CREATE => onCreate eh g syncID
               | SGLPRIM_SYNC_BARRIER => onBarrier eh g syncID
               | _ => g
               end in
      eh ← convertAndFlush eh syncType syncID;
      Ok (eh, g)
  end.

(** [onCompEv]. *)
Definition onCompEv (eh : EventHandlers) (ev : SglCompEv)
  : result EventHandlers :=
  match comp_type ev with
  | SGLPRIM_COMP_IOP => cached eh TCxt.onIop
  | SGLPRIM_COMP_FLOP => cached eh TCxt.onFlop
  | SGLPRIM_COMP_other _ => Ok eh
  end.

(** [onCxtEv]. *)
Definition onCxtEv (eh : EventHandlers) (ev : SglCxtEv)
  : result EventHandlers :=
  match cxt_type ev with
  | SGLPRIM_CXT_INSTR => cached eh (fun tc => Ok (TCxt.onInstr tc))
  | SGLPRIM_CXT_other _ => Ok eh
  end.

Section WithShadow.
Context `{policy : ShadowPolicy}.

(** [onMemEv]. *)
Definition onMemEv (eh : EventHandlers) (g : Globals) (ev : SglMemEv)
  : result (EventHandlers * Globals) :=
  match mem_type ev with
  | SGLPRIM_MEM_LOAD =>
      cached_mem eh g (fun tc sh => TCxt.onRead tc sh (begin_addr ev) (mem_size ev))
  | SGLPRIM_MEM_STORE =>
      cached_mem eh g (fun tc sh => TCxt.onWrite tc sh (begin_addr ev) (mem_size ev))
  | SGLPRIM_MEM_other _ => Ok (eh, g)
  end.

(** The stream of primitives that reaches the four handlers, in the order
    in which the event manager notifies them. *)
Inductive SglEvent : Type :=
  | MemEv (ev : SglMemEv)
  | CompEv (ev : SglCompEv)
  | SyncEv (ev : SglSyncEv)
  | CxtEv (ev : SglCxtEv).

Definition dispatch (eh : EventHandlers) (g : Globals) (e : SglEvent)
  : result (EventHandlers * Globals) :=
  match e with
  | MemEv ev => onMemEv eh g ev
  | CompEv ev => eh ← onCompEv eh ev; Ok (eh, g)
  | SyncEv ev => onSyncEv eh g ev
  | CxtEv ev => eh ← onCxtEv eh ev; Ok (eh, g)
  end.

Fixpoint run (eh : EventHandlers) (g : Globals) (es : list SglEvent)
  : result (EventHandlers * Globals) :=
  match es with
  | [] => Ok (eh, g)
  | e :: es' => r ← dispatch eh g e; run r.1 r.2 es'
  end.

(** The context of thread [t] after a run; [None] when the run fails or
    the thread has no context. *)
Definition tcxt_of (t : TID) (r : result (EventHandlers * Globals))
  : option ThreadContext :=
  match r with
  | Ok (eh, _) => tcxts eh !! t
  | Fatal _ => None
  end.

(** The record of logger calls of thread [t] after a run. *)
Definition log_of (t : TID) (r : result (EventHandlers * Globals))
  : option (list LogCall) :=
  logger <$> tcxt_of t r.

End WithShadow.

(** Modelled from the spec: the members of [EventHandlers] are declared in
    EventHandlers.hpp, which is not embedded here; before the first swap
    there is no ThreadContext and no current thread ([t0] is the value of
    [currentTID] then, no thread's id). *)
Definition init (t0 : TID) : EventHandlers := mkEventHandlers ∅ t0 None.

(** The shared state when the run starts: the default compression level
    [primsPerStCompEv{100}], empty lists, an untouched shadow memory. *)
Definition init_globals : Globals := mkGlobals 100 [] [] [] ∅.

(** Shorthands for the primitives of the examples. *)
Definition swap (t : TID) : SglEvent :=
  SyncEv (mkSglSyncEv SGLPRIM_SYNC_SWAP t).
Definition store (a n : Addr) : SglEvent :=
  MemEv (mkSglMemEv SGLPRIM_MEM_STORE a n).
Definition load (a n : Addr) : SglEvent :=
  MemEv (mkSglMemEv SGLPRIM_MEM_LOAD a n).
Definition iop : SglEvent := CompEv (mkSglCompEv SGLPRIM_COMP_IOP).

End EH.

(** ** Concrete settings for the examples *)

(** The shadow memory as ThreadContext.hpp builds it
    ([ALLOW_ADDRESS_OVERFLOW]): every address is accepted.  The undefined
    writer is [-1], no thread's id. *)
#[global] Instance allow_overflow : ShadowPolicy :=
  {| SO_UNDEF := -1; addr_in_range := fun _ => true |}.


(** A store of at least one byte whose bytes stay clear of the last address
    (where the arithmetic of the range set wraps). *)
Definition store_ok (start bytes : Addr) : Prop :=
  0 <= start /\ 1 <= bytes /\ start + bytes <= Addr_max.

(** The shadow memory once thread 1 has stored one byte at [0x4000] under
    its event [0]. *)
Definition shadow_T1_4000 : STShadowMemory :=
  default ∅ (Shadow.updateWriter (policy := allow_overflow) ∅ 0x4000 1 1 0).


(** A dispatcher whose current thread is thread 1, freshly created. *)
Definition eh_T1 : EventHandlers :=
  mkEventHandlers {[1 := TCxt.fresh 1 100]} 1 (Some 1).

Definition globals_T1 : Globals := mkGlobals 100 [] [1] [] ∅.

(** ** Outcomes that the program cannot have *)

(** The outcome is not [ModelStuck]. *)
Definition not_stuck {A} (r : result A) : Prop := r <> Fatal ModelStuck.

(** [cachedTCxt], when it is not null, designates an entry of [tcxts]. *)
Definition cached_wf (eh : EventHandlers) : Prop :=
  forall k, cachedTCxt eh = Some k -> is_Some (tcxts eh !! k).

(** ** Quantities read off the record of logger calls *)
Module Log.

(** The compute events handed to the logger, in order. *)
Definition comp_records (l : list LogCall) : list STCompEvent :=
  omap (fun c => match c with FlushComp ev _ _ => Some ev | _ => None end) l.

(** The communication events handed to the logger, in order. *)
Definition comm_records (l : list LogCall) : list STCommEvent :=
  omap (fun c => match c with FlushComm ev _ _ => Some ev | _ => None end) l.

(** The instruction markers handed to the logger, in order. *)
Definition marker_records (l : list LogCall) : list Z :=
  omap (fun c => match c with InstrMarker n => Some n | _ => None end) l.

(** The sum of one counter over the compute events logged. *)
Definition total (f : STCompEvent -> Z) (l : list LogCall) : Z :=
  foldr Z.add 0 (f <$> comp_records l).

End Log.

(** ** Addresses held by the two aggregators *)

(** The address [p] lies in a range of an edge from the producer thread
    [w] and its event [e]. *)
Definition edge_holds (cs : list CommEdge) (w : TID) (e : EID) (p : Z) : Prop :=
  exists s, (w, e, s) ∈ cs /\ AddrSet.holds s p.

(** Every edge holds a canonical set of ranges. *)
Definition edges_canon (cs : list CommEdge) : Prop :=
  Forall (fun edge => AddrSet.canon edge.2) cs.

(** The byte [a] is a communication edge for the reader [tid] in the shadow
    memory [sh]: the table accepts the address, a writer is recorded, it is
    another thread, and [tid] has not read the byte since. *)
Definition is_comm_edge `{policy : ShadowPolicy} (tid : TID)
    (sh : STShadowMemory) (a : Addr) : Prop :=
  addr_in_range a = true /\
  writer_tid (Shadow.cell sh a) <> SO_UNDEF /\
  writer_tid (Shadow.cell sh a) <> tid /\
  tid ∉ reader_set (Shadow.cell sh a).


(** The read set of the compute aggregator and the edges of the
    communication aggregator are canonical. *)
Definition read_sets_canon (tc : ThreadContext) : Prop :=
  AddrSet.canon (uniqueReadAddrs (stComp tc)) /\ edges_canon (comms (stComm tc)).

(** A load stays below the last address. *)
Definition load_below (p : TCxt.Prim) : Prop :=
  match p with
  | TCxt.Load start bytes => 0 <= start /\ start + bytes <= Addr_max
  | _ => True
  end.

(** ** What holds of a ThreadContext between two primitives *)

(** The producers of the edges of a communication event, in order. *)
Definition edge_keys (cs : list CommEdge) : list (TID * EID) :=
  (fun edge => edge.1) <$> cs.

(** A compute event as the logger receives it: it was active and carries
    at most [prims] reads and at most [prims] writes. *)
Definition comp_record_ok (prims : Z) (ev : STCompEvent) : Prop :=
  isActive ev = true /\ 0 <= reads ev <= prims /\ 0 <= writes ev <= prims.

(** A communication event is active exactly when it holds an edge, and no
    two of its edges have the same producer thread and event. *)
Definition comm_ok (ev : STCommEvent) : Prop :=
  (commActive ev = true <-> comms ev <> []) /\ NoDup (edge_keys (comms ev)).

(** What was counted into compute events, logged or pending. *)
Definition mass (f : STCompEvent -> Z) (tc : ThreadContext) : Z :=
  Log.total f (logger tc) + f (stComp tc).

Definition tc_inv (tc : ThreadContext) : Prop :=
  0 < primsPerStCompEv tc <= 100 /\
  0 <= reads (stComp tc) < primsPerStCompEv tc /\
  0 <= writes (stComp tc) < primsPerStCompEv tc /\
  Forall (comp_record_ok (primsPerStCompEv tc)) (Log.comp_records (logger tc)) /\
  mass iops tc mod (StatCounter_max + 1) = stat_IOP (stats tc) /\
  mass flops tc mod (StatCounter_max + 1) = stat_FLOP (stats tc) /\
  mass writes tc mod (StatCounter_max + 1) = stat_WRITE (stats tc) /\
  comm_ok (stComm tc) /\
  Forall (fun ev => commActive ev = true /\ comm_ok ev)
    (Log.comm_records (logger tc)) /\
  (isActive (stComp tc) = false ->
   iops (stComp tc) = 0 /\ flops (stComp tc) = 0 /\
   reads (stComp tc) = 0 /\ writes (stComp tc) = 0).

(** How many primitives of a list satisfy [f]. *)
Definition count_prims (f : TCxt.Prim -> bool) (ps : list TCxt.Prim) : Z :=
  foldr (fun p n => if f p then n + 1 else n) 0 ps.

Definition is_Load (p : TCxt.Prim) : bool :=
  match p with TCxt.Load _ _ => true | _ => false end.
Definition is_Store (p : TCxt.Prim) : bool :=
  match p with TCxt.Store _ _ => true | _ => false end.
Definition is_Iop (p : TCxt.Prim) : bool :=
  match p with TCxt.Iop => true | _ => false end.
Definition is_Flop (p : TCxt.Prim) : bool :=
  match p with TCxt.Flop => true | _ => false end.
Definition is_Instr (p : TCxt.Prim) : bool :=
  match p with TCxt.Instr => true | _ => false end.

(** What one primitive does to the statistics. *)
Definition bump (p : TCxt.Prim) (s : Stats) : Stats :=
  match p with
  | TCxt.Load _ _ => mkStats (stat_IOP s) (stat_FLOP s) (incr (stat_READ s))
                  (stat_WRITE s) (stat_INSTR s)
  | TCxt.Store _ _ => mkStats (stat_IOP s) (stat_FLOP s) (stat_READ s)
                   (incr (stat_WRITE s)) (stat_INSTR s)
  | TCxt.Iop => mkStats (incr (stat_IOP s)) (stat_FLOP s) (stat_READ s)
             (stat_WRITE s) (stat_INSTR s)
  | TCxt.Flop => mkStats (stat_IOP s) (incr (stat_FLOP s)) (stat_READ s)
              (stat_WRITE s) (stat_INSTR s)
  | TCxt.Instr => mkStats (stat_IOP s) (stat_FLOP s) (stat_READ s)
               (stat_WRITE s) (incr (stat_INSTR s))
  | TCxt.Sync _ _ | TCxt.FlushBoth => s
  end.

(** ** The life of a CapnLogger *)

Module CapnSession.

(** The constructor: [assert(tid >= 1)]; the compressed stream is taken to
    open (its failure is a [fatal] of the file system, not of the data). *)
Definition capn_create (tid : TID) : result CapnLogger :=
  _ ← assert_ (tid >=? 1);
  Ok Capn.init.

(** The destructor: the orphans that wait are written as a last message;
    the stream is taken to close. *)
Definition capn_destroy (l : CapnLogger) : CapnLogger :=
  if capn_events l >? 0 then Capn.flushOrphans l else l.

(** The encoder run on a sequence of calls, in order. *)
Fixpoint capn_run (l : CapnLogger) (cs : list LogCall) : result CapnLogger :=
  match cs with
  | [] => Ok l
  | c :: cs' => l' ← Capn.call l c; capn_run l' cs'
  end.

(** The event that a call builds. *)
Definition event_of (c : LogCall) : result CapnEvent :=
  match c with
  | FlushComp ev _ _ => Ok (Capn.comp_orphan ev)
  | FlushComm ev _ _ => Ok (CapnComm (comms ev))
  | FlushSync ty a _ _ => ty' ← Capn.translate_sync ty; Ok (CapnSync ty' a)
  | InstrMarker limit => Ok (CapnMarker limit)
  end.

Fixpoint events_of (cs : list LogCall) : result (list CapnEvent) :=
  match cs with
  | [] => Ok []
  | c :: cs' => e ← event_of c; es ← events_of cs'; Ok (e :: es)
  end.

(** The sync calls of a log carry SynchroTrace numbers from [1] to [10]. *)
Definition sync_types_known (cs : list LogCall) : Prop :=
  Forall (fun c => match c with
                   | FlushSync ty _ _ _ => 1 <= ty <= 10
                   | _ => True
                   end) cs.

(** Between two calls: [events] counts the orphans, fewer than
    [eventsPerMessage] of them wait, and every message written holds
    exactly [eventsPerMessage] events. *)
Definition batched (l : CapnLogger) : Prop :=
  capn_events l = Z.of_nat (length (orphans l)) /\
  Z.of_nat (length (orphans l)) < Capn.eventsPerMessage /\
  Forall (fun m => Z.of_nat (length m) = Capn.eventsPerMessage) (written l).

End CapnSession.

(** ** What holds of the dispatcher between two primitives *)

(** [cachedTCxt], when set, designates the context of the current thread;
    the threads listed in [newThreadsInOrder], each once, are the threads
    that have a context; every context carries the id it is stored under,
    a positive id within the limit of the shadow memory, is in a state that
    the primitives of a thread lead to, and has logged sync calls with
    SynchroTrace numbers only. *)
Definition eh_wf `{policy : ShadowPolicy} (eh : EventHandlers) (g : Globals)
  : Prop :=
  (forall k, cachedTCxt eh = Some k -> k = currentTID eh) /\
  NoDup (newThreadsInOrder g) /\
  (forall k, is_Some (tcxts eh !! k) <-> k ∈ newThreadsInOrder g) /\
  (forall k, cachedTCxt eh = Some k -> is_Some (tcxts eh !! k)) /\
  (forall k tc, tcxts eh !! k = Some tc ->
     tid tc = k /\ 0 < k <= 128 /\ TCxt.reachable tc /\
     CapnSession.sync_types_known (logger tc)).

(** A step of a thread that the dispatcher can order: the thread id stays,
    the state stays reachable, the sync calls logged stay known. *)
Definition good_step `{policy : ShadowPolicy} (tc tc' : ThreadContext) : Prop :=
  tid tc' = tid tc /\
  (TCxt.reachable tc -> TCxt.reachable tc') /\
  (CapnSession.sync_types_known (logger tc) ->
   CapnSession.sync_types_known (logger tc')).

(** A sync primitive that swaps the thread. *)
Definition is_swap (e : EH.SglEvent) : bool :=
  match e with
  | EH.SyncEv ev =>
      match sync_type ev with SGLPRIM_SYNC_SWAP => true | _ => false end
  | _ => false
  end.

(** A primitive whose type the handlers have no case for. *)
Definition is_ignored (e : EH.SglEvent) : bool :=
  match e with
  | EH.MemEv ev =>
      match mem_type ev with SGLPRIM_MEM_other _ => true | _ => false end
  | EH.CompEv ev =>
      match comp_type ev with SGLPRIM_COMP_other _ => true | _ => false end
  | EH.SyncEv ev =>
      match sync_type ev with SGLPRIM_SYNC_other _ => true | _ => false end
  | EH.CxtEv ev =>
      match cxt_type ev with SGLPRIM_CXT_other _ => true | _ => false end
  end.

(** ** The barriers of [onBarrier] *)

(** The threads recorded for the barrier at [data]. *)
Definition participants_of (bp : list (Addr * gset Z)) (data : Addr) : gset Z :=
  ⋃ (snd <$> filter (fun p => p.1 = data) bp).

(** ** Option parsing: onParse (EventHandlers.cpp) *)

(** The logger class that [genLog] constructs. *)
Inductive LogGenerator : Type := GenTextLogger | GenCapnLogger | GenNullLogger.

(** The settings of the unnamed namespace that [onParse] assigns;
    [genLog] is an empty [std::function] until then. *)
Record Settings : Type := mkSettings {
  outputPath : string;
  s_primsPerStCompEv : Z;
  genLog : option LogGenerator
}.

(** [outputPath{"."}], [primsPerStCompEv{100}], [genLog]. *)
Definition default_settings : Settings :=
  mkSettings "." 100 None.

(** The calls to [fatal] of [onParse]. *)
Inductive ParseFatal : Type :=
  | UnexpectedOptions
  | UnexpectedLogger (l : string)
  | CompressionInvalidArgument
  | CompressionOutOfRange.

Inductive ParseResult : Type :=
  | Parsed (s : Settings)
  | ParseFailed (e : ParseFatal).

(** What [std::stoi] does with a string: the [int] it reads, or one of the
    two exceptions it throws. *)
Inductive StoiResult : Type :=
  | StoiValue (n : Z)
  | StoiInvalidArgument
  | StoiOutOfRange.

Module Parse.

(** The [std::set<char>] of the short options, in the order of the set. *)
Definition options : list ascii := ["c"; "l"; "o"]%char.

(** [s.substr(pos)]: up to the end. *)
Definition substr_from (pos : nat) (s : string) : string :=
  String.substring pos (String.length s - pos) s.

(** "opt found": [arg.substr(0, 1) == "-" && arg.length() > 1]. *)
Definition opt_found (arg : string) : bool :=
  String.eqb (String.substring 0 1 arg) "-" && (1 <? String.length arg)%nat.

(** The inner loop over the options: the first option [opt] with
    [arg.substr(1, 1) == {opt}]; [None] for [opt == options.cend()]. *)
Definition match_opt (arg : string) : option ascii :=
  List.find (fun opt => String.eqb (String.substring 1 1 arg) (String opt EmptyString))
    options.

(** [matches[c]]: a key that is absent reads as the empty string. *)
Definition at_key (matches : gmap ascii string) (c : ascii) : string :=
  default EmptyString (matches !! c).

(** The loop over the arguments.  An option takes its value from the rest
    of the argument, or consumes the next argument ([*(++arg)]); an option
    that ends the list takes none. *)
Fixpoint parse_args (args : list string) (matches : gmap ascii string)
    (unmatched : Z) : gmap ascii string * Z :=
  match args with
  | [] => (matches, unmatched)
  | arg :: rest =>
      if opt_found arg then
        match match_opt arg with
        | Some opt =>
            if (2 <? String.length arg)%nat then
              parse_args rest (<[opt := substr_from 2 arg]> matches) unmatched
            else
              match rest with
              | value :: rest' =>
                  parse_args rest' (<[opt := value]> matches) unmatched
              | [] => (matches, unmatched)
              end
        | None => parse_args rest matches (unmatched + 1)
        end
      else parse_args rest matches (unmatched + 1)
  end.

(** [::tolower] in the C locale. *)
Definition tolower (c : ascii) : ascii :=
  let n := nat_of_ascii c in
  if ((65 <=? n) && (n <=? 90))%nat then ascii_of_nat (n + 32) else c.

(** [std::transform(l.begin(), l.end(), l.begin(), ::tolower)]. *)
Fixpoint transform_tolower (s : string) : string :=
  match s with
  | EmptyString => EmptyString
  | String c s' => String (tolower c) (transform_tolower s')
  end.

Definition is_empty (s : string) : bool :=
  match s with EmptyString => true | _ => false end.

(** The choice of the logger. *)
Definition choose_logger (l : string) : option LogGenerator :=
  if String.eqb l "text" then Some GenTextLogger
  else if String.eqb l "capnp" then Some GenCapnLogger
  else if String.eqb l "null" then Some GenNullLogger
  else None.

Section WithStoi.

(** [std::stoi] is a function of the C++ library: it is a parameter. *)
Variable stoi : string -> StoiResult.

(** [onParse].  The [int] that [std::stoi] returns is assigned to the
    [unsigned primsPerStCompEv]. *)
Definition onParse (s : Settings) (args : list string) : ParseResult :=
  let r := parse_args args ∅ 0 in
  let matches := r.1 in
  let unmatched := r.2 in
  if unmatched >? 0 then ParseFailed UnexpectedOptions else
  let s := if is_empty (at_key matches "o") then s
           else mkSettings (at_key matches "o") (s_primsPerStCompEv s)
                  (genLog s) in
  let gen :=
    if is_empty (at_key matches "l") then Some GenTextLogger
    else choose_logger (transform_tolower (at_key matches "l")) in
  match gen with
  | None =>
      ParseFailed (UnexpectedLogger (transform_tolower (at_key matches "l")))
  | Some gen =>
      let s := mkSettings (outputPath s) (s_primsPerStCompEv s) (Some gen) in
      if is_empty (at_key matches "c") then Parsed s
      else
        match stoi (at_key matches "c") with
        | StoiValue n =>
            Parsed (mkSettings (outputPath s) (n mod 2 ^ 32) (genLog s))
        | StoiInvalidArgument => ParseFailed CompressionInvalidArgument
        | StoiOutOfRange => ParseFailed CompressionOutOfRange
        end
  end.

End WithStoi.

(** The argument [-<opt>]. *)
Definition bare (opt : ascii) : string := String "-" (String opt EmptyString).

(** The argument [-<opt><value>]. *)
Definition attached (opt : ascii) (value : string) : string :=
  String "-" (String opt value).

(** An argument list that spells a sequence of options with their values,
    each either as [-<opt> <value>] or, when the value is not empty, as
    [-<opt><value>]. *)
Inductive spells : list (ascii * string) -> list string -> Prop :=
  | spells_nil : spells [] []
  | spells_separate opt value gs args :
      spells gs args ->
      spells ((opt, value) :: gs) (bare opt :: value :: args)
  | spells_attached opt value gs args :
      value <> EmptyString -> spells gs args ->
      spells ((opt, value) :: gs) (attached opt value :: args).

(** The values assigned in order: a later one replaces an earlier one. *)
Definition assign (matches : gmap ascii string) (gs : list (ascii * string))
  : gmap ascii string :=
  foldl (fun m g => <[g.1 := g.2]> m) matches gs.

End Parse.

(** ** The text lines of STEvent.cpp *)

(** The condition that the flushes of STEvent.cpp assert of every range
    they print. *)
Definition ordered (r : AddrRange) : Prop := r.1 <= r.2.

(** The first fields of the line of a compute event. *)
Definition comp_header (ev : STCompEvent) (k : Sink) : string :=
  pretty (event_id k) +:+ "," +:+ pretty (thread_id k) +:+ ","
  +:+ pretty (iops ev) +:+ "," +:+ pretty (flops ev) +:+ ","
  +:+ pretty (reads ev) +:+ "," +:+ pretty (writes ev).

(** * Properties *)

(** ** AddrSet *)

Module AddrSetFacts.
Import AddrSet.

Lemma wrap_small z : 0 <= z <= Addr_max -> wrap z = z.
Proof. unfold wrap, Addr_max. intros. apply Z.mod_small. lia. Qed.

Lemma Addr_max_pos : 0 < Addr_max.
Proof. reflexivity. Qed.

Lemma pair_ltb_spec x y :
  pair_ltb x y = true <-> (x.1 < y.1 \/ (x.1 = y.1 /\ x.2 < y.2)).
Proof.
  unfold pair_ltb. rewrite orb_true_iff, andb_true_iff.
  rewrite !Z.ltb_lt, Z.eqb_eq. tauto.
Qed.

Lemma canon_valid ms r : canon ms -> r ∈ ms -> valid r.
Proof.
  induction ms as [|x ms IH]; simpl; intros Hc Hin.
  - inversion Hin.
  - destruct Hc as (Hv & _ & Hc). apply elem_of_cons in Hin as [->|Hin]; auto.
Qed.

Lemma canon_app l1 l2 :
  canon (l1 ++ l2) <->
  canon l1 /\ canon l2 /\ (forall a b, a ∈ l1 -> b ∈ l2 -> gap a b).
Proof.
  induction l1 as [|x l1 IH]; simpl.
  - split; [|tauto]. intros H. split; [done|]. split; [done|].
    intros a b Ha. inversion Ha.
  - rewrite Forall_app, IH. split.
    + intros (Hv & (Hf1 & Hf2) & Hc1 & Hc2 & Hg).
      split; [done|]. split; [done|].
      intros a b Ha Hb. apply elem_of_cons in Ha as [->|Ha]; [|eauto].
      rewrite Forall_forall in Hf2. auto.
    + intros ((Hv & Hf & Hc1) & Hc2 & Hg).
      split; [done|]. split; [split; [done|]|].
      * apply Forall_forall. intros b Hb. apply Hg; [left|done].
      * split; [done|]. split; [done|].
        intros a b Ha Hb. apply Hg; [by right|done].
Qed.

Lemma canon_delete i ms : canon ms -> canon (delete i ms).
Proof.
  revert i. induction ms as [|x ms IH]; intros i Hc; [done|].
  destruct Hc as (Hv & Hf & Hc). destruct i as [|i]; simpl; [done|].
  split; [done|]. split; [by apply Forall_delete|by apply IH].
Qed.

Lemma canon_lookup_gap ms i j a b :
  canon ms -> (i < j)%nat -> ms !! i = Some a -> ms !! j = Some b -> gap a b.
Proof.
  revert i j. induction ms as [|x ms IH]; intros i j Hc Hij Ha Hb; [done|].
  destruct Hc as (Hv & Hf & Hc). destruct j as [|j]; [lia|].
  destruct i as [|i]; simpl in *.
  - injection Ha as ->. rewrite Forall_forall in Hf. apply Hf.
    by eapply list_elem_of_lookup_2.
  - eapply (IH i j); eauto. lia.
Qed.

Lemma lower_bound_le ms r : (lower_bound ms r <= length ms)%nat.
Proof. induction ms as [|x ms IH]; simpl; [lia|]. destruct (pair_ltb x r); simpl; lia. Qed.

Lemma lower_bound_before ms r i x :
  (i < lower_bound ms r)%nat -> ms !! i = Some x -> pair_ltb x r = true.
Proof.
  revert i. induction ms as [|y ms IH]; intros i Hi Hx; simpl in *; [lia|].
  destruct (pair_ltb y r) eqn:E; [|lia].
  destruct i as [|i]; simpl in *; [by injection Hx as <-|].
  apply (IH i); [lia|done].
Qed.

Lemma lower_bound_at ms r x :
  ms !! lower_bound ms r = Some x -> pair_ltb x r = false.
Proof.
  induction ms as [|y ms IH]; simpl; [done|].
  destruct (pair_ltb y r) eqn:E; simpl; [done|]. by intros [= <-].
Qed.

Lemma ms_insert_place pre post r :
  0 <= r.1 <= r.2 ->
  Forall (fun a => a.1 <= a.2 /\ gap a r) pre ->
  Forall (gap r) post ->
  ms_insert r (pre ++ post) = pre ++ r :: post.
Proof.
  intros Hr Hpre Hpost. induction Hpre as [|a pre [Ha Hg] _ IH]; simpl.
  - destruct Hpost as [|b post Hb _]; simpl; [done|].
    assert (pair_ltb r b = true) as ->; [|done].
    apply pair_ltb_spec. unfold gap in Hb. lia.
  - assert (pair_ltb r a = false) as ->; [|by rewrite IH].
    apply not_true_is_false. rewrite pair_ltb_spec. unfold gap in Hg. lia.
Qed.

Lemma holds_app l1 l2 p : holds (l1 ++ l2) p <-> holds l1 p \/ holds l2 p.
Proof. apply Exists_app. Qed.

Lemma holds_cons r l p : holds (r :: l) p <-> covers r p \/ holds l p.
Proof. apply Exists_cons. Qed.

Lemma holds_nil p : ~ holds [] p.
Proof. intros H. inversion H. Qed.

(** The position that [insert] examines. *)
Lemma adjust_spec ms r :
  canon ms -> valid r -> ms <> [] ->
  exists cur, ms !! adjust ms r (lower_bound ms r) = Some cur /\
    (r.1 < cur.1 ->
       forall i x, (i < adjust ms r (lower_bound ms r))%nat ->
                   ms !! i = Some x -> gap x r) /\
    (cur.2 + 1 < r.1 -> S (adjust ms r (lower_bound ms r)) = length ms).
Proof.
  intros Hc Hr Hne. unfold adjust.
  pose proof (lower_bound_le ms r) as Hle.
  destruct ms as [|m0 ms0] eqn:Ems; [done|]. rewrite <- Ems in *.
  assert (0 < length ms)%nat as Hlen by (rewrite Ems; simpl; lia).
  case_bool_decide as Hlb0.
  - case_bool_decide as Hend.
    + (* lower_bound is the end: the last element *)
      destruct (lookup_lt_is_Some_2 ms (length ms - 1)) as [cur Hcur]; [lia|].
      exists cur. split; [done|].
      assert (pair_ltb cur r = true) as Hlt
        by (eapply lower_bound_before; [|exact Hcur]; lia).
      apply pair_ltb_spec in Hlt. split; [lia|lia].
    + destruct (lookup_lt_is_Some_2 ms (lower_bound ms r - 1)) as [prev Hprev]; [lia|].
      rewrite Hprev.
      assert (valid prev) as Hvp
        by (eapply canon_valid; [done|by eapply list_elem_of_lookup_2]).
      assert (pair_ltb prev r = true) as Hlt
        by (eapply lower_bound_before; [|exact Hprev]; lia).
      apply pair_ltb_spec in Hlt.
      rewrite wrap_small by (unfold valid in Hvp; lia).
      destruct (Z.gtb_spec r.1 (prev.2 + 1)) as [Hgt|Hngt].
      * destruct (lookup_lt_is_Some_2 ms (lower_bound ms r)) as [cur Hcur]; [lia|].
        exists cur. split; [done|].
        pose proof (lower_bound_at _ _ _ Hcur) as Hnlt.
        apply not_true_iff_false in Hnlt. rewrite pair_ltb_spec in Hnlt.
        assert (valid cur) as Hvc
          by (eapply canon_valid; [done|by eapply list_elem_of_lookup_2]).
        split.
        -- intros _ i x Hi Hx. unfold gap.
           destruct (decide (i = lower_bound ms r - 1)%nat) as [->|Hi'].
           ++ rewrite Hprev in Hx. injection Hx as <-. lia.
           ++ assert (gap x prev) as Hg
                by (eapply (canon_lookup_gap ms i); [done| |done|done]; lia).
              unfold gap, valid in *. lia.
        -- intros Hgap. unfold valid in *. lia.
      * exists prev. split; [done|]. unfold valid in *. split; [lia|lia].
  - assert (lower_bound ms r = 0)%nat as Hz by (destruct (lower_bound ms r); [done|by destruct Hlb0]).
    rewrite Hz in *.
    destruct (lookup_lt_is_Some_2 ms 0) as [cur Hcur]; [lia|].
    exists cur. split; [done|].
    assert (pair_ltb cur r = false) as Hnlt
      by (apply (lower_bound_at ms); by rewrite Hz).
    apply not_true_iff_false in Hnlt. rewrite pair_ltb_spec in Hnlt.
    assert (valid cur) as Hvc
      by (eapply canon_valid; [done|by eapply list_elem_of_lookup_2]).
    split; [intros _ i x Hi; lia|]. unfold valid in *. lia.
Qed.

Lemma canon_middle pre cur post :
  canon (pre ++ cur :: post) ->
  valid cur /\ canon (pre ++ post) /\
  Forall (fun a => a.1 <= a.2 /\ gap a cur) pre /\ Forall (gap cur) post.
Proof.
  intros Hc. pose proof Hc as Hc'. apply canon_app in Hc' as (Hpre & (Hv & Hpost & Hcp) & Hg).
  split; [done|]. split.
  - apply canon_app. split; [done|]. split; [done|].
    intros a b Ha Hb. apply Hg; [done|by right].
  - split; [|done]. apply Forall_forall. intros a Ha. split.
    + assert (valid a) as Hva by (eapply canon_valid; [exact Hpre|done]).
      unfold valid in Hva. lia.
    + apply Hg; [done|left].
Qed.

Lemma canon_place pre r post :
  valid r -> canon (pre ++ post) ->
  Forall (fun a => a.1 <= a.2 /\ gap a r) pre -> Forall (gap r) post ->
  canon (pre ++ r :: post).
Proof.
  intros Hr Hc Hpre Hpost. apply canon_app in Hc as (Hc1 & Hc2 & Hg).
  apply canon_app. split; [done|]. split; [by simpl|].
  intros a b Ha Hb. apply elem_of_cons in Hb as [->|Hb]; [|by apply Hg].
  rewrite Forall_forall in Hpre. by apply Hpre.
Qed.

Lemma covers_join (a b : AddrRange) p :
  a.1 <= b.1 -> b.1 <= a.2 + 1 -> a.2 <= b.2 -> b.1 <= b.2 -> a.1 <= a.2 ->
  covers (a.1, b.2) p <-> covers a p \/ covers b p.
Proof. unfold covers; simpl. lia. Qed.

Lemma holds_delete ms i cur p :
  ms !! i = Some cur -> holds ms p <-> covers cur p \/ holds (delete i ms) p.
Proof.
  intros Hi. rewrite <- (take_drop_middle ms i cur Hi) at 1.
  rewrite delete_take_drop, !holds_app, holds_cons. tauto.
Qed.

Lemma insert_rec_spec fuel : forall ms r,
  (length ms < fuel)%nat -> canon ms -> valid r ->
  exists ms', insert_rec fuel ms r = Ok ms' /\ insert_post ms r ms'.
Proof.
  induction fuel as [|fuel IH]; intros ms r Hlen Hc Hr; [lia|].
  simpl. unfold insert_body.
  assert ((r.1 <=? r.2) = true) as -> by (apply Z.leb_le; unfold valid in Hr; lia).
  simpl. destruct (empty ms) eqn:Eempty.
  { destruct ms; [|done]. exists [r]. split; [done|]. split; [by simpl|].
    intros p. rewrite holds_cons. pose proof (holds_nil p). tauto. }
  assert (ms <> []) as Hne by (by destruct ms).
  destruct (adjust_spec ms r Hc Hr Hne) as (cur & Hcur & F1 & F2).
  set (it := adjust ms r (lower_bound ms r)) in *.
  rewrite Hcur.
  pose proof (take_drop_middle ms it cur Hcur) as Hsplit.
  pose proof (delete_take_drop ms it) as Hdel.
  set (pre := take it ms) in *. set (post := drop (S it) ms) in *.
  assert (length (delete it ms) < fuel)%nat as Hlen'.
  { pose proof (lookup_lt_Some _ _ _ Hcur). rewrite length_delete by eauto. lia. }
  pose proof Hc as Hc0. rewrite <- Hsplit in Hc0.
  apply canon_middle in Hc0 as (Hvc & Hcd & Hpre & Hpost).
  rewrite <- Hdel in Hcd.
  assert (Hrec : forall tmp, valid tmp ->
            (forall p, covers tmp p <-> covers cur p \/ covers r p) ->
            exists ms', insert_rec fuel (delete it ms) tmp = Ok ms' /\ insert_post ms r ms').
  { intros tmp Hvt Hcov. destruct (IH (delete it ms) tmp Hlen' Hcd Hvt) as (ms' & Hms' & Hcan & Hpts).
    exists ms'. split; [done|]. split; [done|]. intros p.
    rewrite Hpts, Hcov, (holds_delete ms it cur p Hcur). tauto. }
  unfold valid in Hvc, Hr.
  rewrite !wrap_small by lia.
  destruct (Z.eqb_spec r.1 (cur.2 + 1)) as [Ha|Hna].
  { apply Hrec; [unfold valid; simpl; lia|]. intros p. unfold covers; simpl. lia. }
  destruct (Z.eqb_spec (r.2 + 1) cur.1) as [Hb|Hnb].
  { apply Hrec; [unfold valid; simpl; lia|]. intros p. unfold covers; simpl. lia. }
  destruct (Z.gtb_spec r.1 cur.2) as [Hgt|Hngt].
  { (* above the last range *)
    assert (post = []) as Hpost0.
    { assert (S it = length ms) as Hl by (apply F2; lia).
      unfold post. apply drop_ge. lia. }
    rewrite Hpost0 in *.
    assert (ms_insert r ms = (pre ++ [cur]) ++ [r]) as ->.
    { rewrite <- Hsplit. replace (pre ++ [cur]) with ((pre ++ [cur]) ++ []) at 1 by apply app_nil_r.
      apply ms_insert_place; [lia| |done].
      apply Forall_app. split.
      - eapply Forall_impl; [exact Hpre|]. unfold gap. simpl. intros a [? ?]. lia.
      - apply Forall_singleton. unfold gap. lia. }
    eexists. split; [done|]. split.
    - apply canon_place; [done|by rewrite app_nil_r, Hsplit| |done].
      apply Forall_app. split.
      + eapply Forall_impl; [exact Hpre|]. unfold gap. simpl. intros a [? ?]. lia.
      + apply Forall_singleton. unfold gap. lia.
    - intros p. rewrite holds_app, holds_cons, Hsplit. pose proof (holds_nil p). tauto. }
  destruct (Z.geb_spec r.1 cur.1) as [Hge|Hnge].
  { destruct (Z.gtb_spec r.2 cur.2) as [Hgt2|Hngt2].
    - apply Hrec; [unfold valid; simpl; lia|]. intros p. unfold covers; simpl. lia.
    - exists ms. split; [done|]. split; [done|]. intros p.
      rewrite (holds_delete ms it cur p Hcur). unfold covers. intuition lia. }
  assert (Forall (fun a => a.1 <= a.2 /\ gap a r) pre) as Hpre_r.
  { apply Forall_forall. intros a Ha. split.
    - rewrite Forall_forall in Hpre. apply Hpre in Ha. tauto.
    - apply list_elem_of_lookup in Ha as [i Hi].
      unfold pre in Hi. pose proof (lookup_lt_Some _ _ _ Hi) as Hlt.
      rewrite length_take in Hlt. rewrite lookup_take_lt in Hi by lia.
      apply (F1 ltac:(lia) i a); [lia|done]. }
  destruct (Z.ltb_spec r.2 cur.1) as [Hlt|Hnlt].
  { assert (ms_insert r ms = pre ++ r :: cur :: post) as ->.
    { rewrite <- Hsplit at 1. apply ms_insert_place; [lia|done|].
      constructor; [unfold gap; lia|].
      eapply Forall_impl; [exact Hpost|]. unfold gap. simpl. intros; lia. }
    eexists. split; [done|]. split.
    - apply canon_place; [done|by rewrite Hsplit|done|].
      constructor; [unfold gap; lia|].
      eapply Forall_impl; [exact Hpost|]. unfold gap. simpl. intros; lia.
    - intros p. rewrite <- Hsplit. rewrite !holds_app, !holds_cons. tauto. }
  destruct (Z.leb_spec r.2 cur.2) as [Hle|Hnle].
  { assert (ms_insert (r.1, cur.2) (delete it ms) = pre ++ (r.1, cur.2) :: post) as ->.
    { rewrite Hdel. apply ms_insert_place; [simpl; lia|done|].
      eapply Forall_impl; [exact Hpost|]. unfold gap. simpl. intros; lia. }
    eexists. split; [done|]. split.
    - apply canon_place; [unfold valid; simpl; lia|by rewrite <- Hdel|done|].
      eapply Forall_impl; [exact Hpost|]. unfold gap. simpl. intros; lia.
    - intros p. rewrite <- Hsplit. rewrite !holds_app, !holds_cons.
      unfold covers; simpl. intuition lia. }
  apply Hrec; [done|]. intros p. unfold covers. lia.
Qed.

Lemma insert_spec ms r :
  canon ms -> valid r ->
  exists ms', insert ms r = Ok ms' /\ insert_post ms r ms'.
Proof. intros. apply insert_rec_spec; [lia|done|done]. Qed.

(** A canonical list is determined by the addresses it holds. *)
Lemma canon_head_min r ms p :
  canon (r :: ms) -> holds (r :: ms) p -> r.1 <= p.
Proof.
  intros (Hv & Hf & Hc) Hp. apply holds_cons in Hp as [Hp|Hp].
  - unfold covers in Hp. lia.
  - unfold holds in Hp. apply Exists_exists in Hp as (x & Hx & Hcov).
    rewrite Forall_forall in Hf. apply Hf in Hx.
    unfold gap, covers, valid in *. lia.
Qed.

Lemma canon_tail_above r ms p :
  canon (r :: ms) -> holds ms p -> r.2 + 1 < p.
Proof.
  intros (Hv & Hf & Hc) Hp.
  unfold holds in Hp. apply Exists_exists in Hp as (x & Hx & Hcov).
  rewrite Forall_forall in Hf. apply Hf in Hx.
  unfold gap, covers, valid in *. lia.
Qed.

Lemma canon_unique l1 : forall l2,
  canon l1 -> canon l2 -> (forall p, holds l1 p <-> holds l2 p) -> l1 = l2.
Proof.
  induction l1 as [|a l1 IH]; intros [|b l2] Hc1 Hc2 Hpts.
  - done.
  - exfalso. apply (holds_nil b.1). apply Hpts. apply holds_cons. left.
    destruct Hc2 as (Hv & _). unfold covers, valid in *. lia.
  - exfalso. apply (holds_nil a.1). apply Hpts. apply holds_cons. left.
    destruct Hc1 as (Hv & _). unfold covers, valid in *. lia.
  - pose proof Hc1 as (Hva & Hfa & Hca). pose proof Hc2 as (Hvb & Hfb & Hcb).
    unfold valid in Hva, Hvb.
    assert (covers a a.1) as Haa by (unfold covers; lia).
    assert (covers b b.1) as Hbb by (unfold covers; lia).
    assert (a.1 = b.1) as H1.
    { assert (b.1 <= a.1).
      { apply (canon_head_min b l2); [done|]. apply Hpts, holds_cons. by left. }
      assert (a.1 <= b.1).
      { apply (canon_head_min a l1); [done|]. apply Hpts, holds_cons. by left. }
      lia. }
    assert (forall (x y : AddrRange) lx ly, canon (x :: lx) -> canon (y :: ly) ->
              (forall p, holds (x :: lx) p <-> holds (y :: ly) p) ->
              x.1 = y.1 -> x.1 <= x.2 -> ~ x.2 < y.2) as Hsnd.
    { intros x y lx ly Hcx Hcy Hp Heq Hx Hlt.
      assert (holds (x :: lx) (x.2 + 1)) as Hh.
      { apply Hp, holds_cons. left. unfold covers. lia. }
      apply holds_cons in Hh as [Hh|Hh].
      - unfold covers in Hh. lia.
      - pose proof (canon_tail_above _ _ _ Hcx Hh). lia. }
    assert (a.2 = b.2) as H2.
    { pose proof (Hsnd a b l1 l2 Hc1 Hc2 Hpts H1 ltac:(lia)).
      pose proof (Hsnd b a l2 l1 Hc2 Hc1 ltac:(intros p; symmetry; apply Hpts)
                    ltac:(lia) ltac:(lia)).
      lia. }
    assert (a = b) as -> by (destruct a, b; simpl in *; congruence).
    f_equal. apply IH; [done|done|]. intros p.
    specialize (Hpts p). rewrite !holds_cons in Hpts. split; intros Hh.
    + pose proof (canon_tail_above _ _ _ Hc1 Hh). unfold covers in Hpts. intuition lia.
    + pose proof (canon_tail_above _ _ _ Hc2 Hh). unfold covers in Hpts. intuition lia.
Qed.

Lemma insert_all_spec rs : forall ms,
  canon ms -> Forall valid rs ->
  exists ms', insert_all ms rs = Ok ms' /\ canon ms' /\
              forall p, holds ms' p <-> holds ms p \/ union_of rs p.
Proof.
  induction rs as [|r rs IH]; intros ms Hc Hrs; simpl.
  - exists ms. split; [done|]. split; [done|]. intros p.
    unfold union_of. rewrite Exists_nil. tauto.
  - apply Forall_cons in Hrs as [Hr Hrs].
    destruct (insert_spec ms r Hc Hr) as (ms1 & -> & Hc1 & Hp1). simpl.
    destruct (IH ms1 Hc1 Hrs) as (ms' & -> & Hc' & Hp').
    exists ms'. split; [done|]. split; [done|]. intros p.
    rewrite Hp', Hp1. unfold union_of. rewrite Exists_cons. tauto.
Qed.

(** [ModelStuck] is never the outcome of [insert], whatever the list. *)
Lemma adjust_lt ms r : ms <> [] -> (adjust ms r (lower_bound ms r) < length ms)%nat.
Proof.
  intros Hne. pose proof (lower_bound_le ms r).
  assert (0 < length ms)%nat by (destruct ms; [done|simpl; lia]).
  unfold adjust. repeat case_bool_decide; try lia.
  destruct (ms !! _) as [prev|]; [|lia]. destruct (_ >? _); lia.
Qed.

Lemma insert_rec_total fuel : forall ms r,
  (length ms < fuel)%nat -> insert_rec fuel ms r <> Fatal ModelStuck.
Proof.
  induction fuel as [|fuel IH]; intros ms r Hlen; [lia|].
  simpl. unfold insert_body, assert_. destruct (_ <=? _); simpl; [|done].
  destruct (empty ms) eqn:Eempty; [done|].
  assert (ms <> []) as Hne by (by destruct ms).
  pose proof (adjust_lt ms r Hne) as Hlt.
  destruct (lookup_lt_is_Some_2 ms _ Hlt) as [cur Hcur]. rewrite Hcur.
  assert (length (delete (adjust ms r (lower_bound ms r)) ms) < fuel)%nat as Hlen'.
  { rewrite length_delete by eauto. lia. }
  repeat (destruct (_ =? _) || destruct (_ >? _) || destruct (_ >=? _)
          || destruct (_ <? _) || destruct (_ <=? _)); try done; by apply IH.
Qed.

(** Below the last address the set is what it is meant to be: any sequence
    of insertions succeeds, the stored ranges hold exactly the addresses
    inserted, no two of them overlap or touch, and two sequences that cover
    the same addresses yield the same stored ranges. *)
Theorem insert_all_below_last_address rs rs' :
  Forall valid rs -> Forall valid rs' ->
  (forall p, union_of rs p <-> union_of rs' p) ->
  exists ms, insert_all [] rs = Ok ms /\ insert_all [] rs' = Ok ms /\
             canon ms /\ forall p, holds ms p <-> union_of rs p.
Proof.
  intros Hrs Hrs' Hsame.
  destruct (insert_all_spec rs [] I Hrs) as (ms & Hms & Hc & Hp).
  destruct (insert_all_spec rs' [] I Hrs') as (ms' & Hms' & Hc' & Hp').
  assert (ms' = ms) as ->.
  { apply canon_unique; [done|done|]. intros p. rewrite Hp, Hp', Hsame.
    pose proof (holds_nil p). tauto. }
  exists ms. split; [done|]. split; [done|]. split; [done|].
  intros p. rewrite Hp. pose proof (holds_nil p). tauto.
Qed.

Lemma insert_total ms r : insert ms r <> Fatal ModelStuck.
Proof. apply insert_rec_total. lia. Qed.
End AddrSetFacts.

(** ** The order of the container *)

Module OrderFacts.
Import AddrSet AddrSetFacts.

Lemma pair_le_spec x y :
  pair_le x y <-> (x.1 < y.1 \/ (x.1 = y.1 /\ x.2 <= y.2)).
Proof.
  unfold pair_le. rewrite <- not_true_iff_false, pair_ltb_spec. lia.
Qed.

Lemma pair_le_trans x y z : pair_le x y -> pair_le y z -> pair_le x z.
Proof. rewrite !pair_le_spec. lia. Qed.

Lemma pair_lt_le x y : pair_ltb x y = true -> pair_le x y.
Proof. rewrite pair_ltb_spec, pair_le_spec. lia. Qed.

Lemma Forall_ms_insert (P : AddrRange -> Prop) r ms :
  Forall P (ms_insert r ms) <-> P r /\ Forall P ms.
Proof.
  induction ms as [|x ms IH]; simpl.
  - rewrite Forall_singleton, Forall_nil. tauto.
  - destruct (pair_ltb r x); rewrite !Forall_cons, ?IH; tauto.
Qed.

Lemma ms_insert_sorted r ms : sorted ms -> sorted (ms_insert r ms).
Proof.
  induction ms as [|x ms IH]; simpl; intros Hs.
  - split; [constructor|done].
  - destruct Hs as [Hx Hs]. destruct (pair_ltb r x) eqn:Hlt; simpl.
    + split; [|done]. constructor; [by apply pair_lt_le|].
      eapply Forall_impl; [exact Hx|]. intros y Hy.
      eapply pair_le_trans; [by apply pair_lt_le|done].
    + split; [|by apply IH]. by apply Forall_ms_insert.
Qed.

Lemma sorted_delete i ms : sorted ms -> sorted (delete i ms).
Proof.
  revert i. induction ms as [|x ms IH]; intros i Hs; [done|].
  destruct Hs as [Hx Hs]. destruct i as [|i]; simpl; [done|].
  split; [by apply Forall_delete|by apply IH].
Qed.

(** Whatever the range, [insert] leaves the list in the container's
    order. *)
Lemma insert_rec_sorted fuel : forall ms r ms',
  sorted ms -> insert_rec fuel ms r = Ok ms' -> sorted ms'.
Proof.
  induction fuel as [|fuel IH]; intros ms r ms' Hs H; [done|].
  simpl in H. unfold insert_body in H. bind_ok H.
  destruct (empty ms).
  { injection H as <-. by apply ms_insert_sorted. }
  destruct (ms !! _) as [cur|]; [|done].
  pose proof (sorted_delete (adjust ms r (lower_bound ms r)) ms Hs) as Hd.
  repeat match type of H with
         | (if ?b then _ else _) = _ => destruct b
         end;
    try (by eapply IH); injection H as <-;
    by (done || apply ms_insert_sorted).
Qed.

Lemma insert_sorted ms r ms' : sorted ms -> insert ms r = Ok ms' -> sorted ms'.
Proof. apply insert_rec_sorted. Qed.

(** On a list in order, [lower_bound] is the position of the first element
    that is not less than the range. *)
Lemma lower_bound_after ms r : forall i x,
  sorted ms -> (lower_bound ms r <= i)%nat -> ms !! i = Some x ->
  pair_ltb x r = false.
Proof.
  induction ms as [|y ms IH]; intros i x Hs Hi Hx; [done|].
  destruct Hs as [Hy Hs]. simpl in Hi.
  destruct (pair_ltb y r) eqn:Hlt.
  - destruct i as [|i]; [lia|]. simpl in Hx. apply (IH i); [done|lia|done].
  - destruct i as [|i]; simpl in Hx; [by injection Hx as <-|].
    rewrite Forall_forall in Hy.
    assert (pair_le y x) as Hle by (apply Hy; by eapply list_elem_of_lookup_2).
    apply not_true_iff_false. apply not_true_iff_false in Hlt.
    rewrite pair_ltb_spec in *. rewrite pair_le_spec in Hle. lia.
Qed.

Lemma canon_sorted ms : canon ms -> sorted ms /\ NoDup ms.
Proof.
  induction ms as [|x ms IH]; simpl; [intros _; split; [done|constructor]|].
  intros (Hv & Hg & Hc). destruct (IH Hc) as [Hs Hn].
  split; [split; [|done]|].
  - eapply Forall_impl; [exact Hg|]. intros y Hy. apply pair_le_spec.
    unfold gap, valid in *. lia.
  - constructor; [|done]. intros Hin. rewrite Forall_forall in Hg.
    apply Hg in Hin. unfold gap, valid in *. lia.
Qed.

End OrderFacts.

(** ** The byte loop of onRead *)

Module ReadFacts.
Import TCxt.
Section ReadFacts.
Context `{policy : ShadowPolicy}.

Lemma wrap_id a : is_Addr a -> wrap a = a.
Proof. unfold is_Addr, wrap, Addr_max. intros. apply Z.mod_small. lia. Qed.

Lemma byte_addrs_one a : is_Addr a -> byte_addrs a 1 = [a].
Proof.
  intros Ha. unfold byte_addrs. simpl. rewrite Z.add_0_r. by rewrite wrap_id.
Qed.

Lemma cell_insert_eq (sh : STShadowMemory) a c :
  Shadow.cell (<[a := c]> sh) a = c.
Proof. unfold Shadow.cell. by rewrite lookup_insert_eq. Qed.

Lemma onRead_byte_classified tid st a :
  is_Addr a -> onRead_byte tid st a = classified_byte tid (rl_shadow st) st a.
Proof.
  intros Ha. unfold onRead_byte, classified_byte, comm_edge_byte, mark_read,
    Shadow.getWriterTID, Shadow.isReaderTID, Shadow.getWriterEID,
    Shadow.updateReader, onRead_catch.
  rewrite byte_addrs_one by done. simpl. unfold Shadow.updateReader_byte.
  destruct (addr_in_range a) eqn:Hin; simpl; [|done].
  case_bool_decide as Hrd; simpl.
  - by rewrite andb_false_r.
  - rewrite ?Hin, andb_true_r.
    destruct (writer_tid (Shadow.cell (rl_shadow st) a) =? tid) eqn:E1;
    destruct (writer_tid (Shadow.cell (rl_shadow st) a) =? SO_UNDEF) eqn:E2;
      simpl; try done.
    by rewrite cell_insert_eq.
Qed.


(** A byte read changes the cell of that byte only. *)
Lemma cell_mark_read_ne tid sh a b :
  a <> b -> Shadow.cell (mark_read tid sh a) b = Shadow.cell sh b.
Proof.
  intros Hne. unfold mark_read. destruct (_ && _); [|done].
  unfold Shadow.cell. by rewrite lookup_insert_ne.
Qed.

Lemma comm_edge_byte_ext tid sh sh' a :
  Shadow.cell sh a = Shadow.cell sh' a ->
  comm_edge_byte tid sh a = comm_edge_byte tid sh' a.
Proof. intros H. unfold comm_edge_byte. by rewrite H. Qed.

Lemma classified_byte_ext tid sh sh' st a :
  Shadow.cell sh a = Shadow.cell sh' a ->
  classified_byte tid sh st a = classified_byte tid sh' st a.
Proof.
  intros H. unfold classified_byte.
  by rewrite (comm_edge_byte_ext tid sh sh' a H), H.
Qed.

Lemma classified_byte_shadow tid sh0 st a st' :
  classified_byte tid sh0 st a = Ok st' ->
  rl_shadow st' = mark_read tid (rl_shadow st) a.
Proof.
  unfold classified_byte. destruct (comm_edge_byte _ _ _).
  - destruct (CommEvent.addEdge _ _ _ _); simpl; [|done]. by intros [= <-].
  - destruct (CompEvent.updateReads _ _ _); simpl; [|done]. by intros [= <-].
Qed.

Lemma onRead_loop_classified tid sh0 addrs : forall st,
  Forall is_Addr addrs -> NoDup addrs ->
  (forall a, a ∈ addrs -> Shadow.cell (rl_shadow st) a = Shadow.cell sh0 a) ->
  onRead_loop tid st addrs = classified_loop tid sh0 st addrs.
Proof.
  induction addrs as [|a addrs IH]; intros st Hin Hnd Hsh; [done|].
  apply Forall_cons in Hin as [Ha Hin]. apply NoDup_cons in Hnd as [Hna Hnd].
  simpl. rewrite (onRead_byte_classified tid st a Ha).
  rewrite (classified_byte_ext tid (rl_shadow st) sh0 st a)
    by (apply Hsh; left).
  destruct (classified_byte tid sh0 st a) as [st'|e] eqn:Hst; simpl; [|done].
  apply IH; [done|done|]. intros b Hb.
  rewrite (classified_byte_shadow _ _ _ _ _ Hst).
  rewrite cell_mark_read_ne by (intros ->; done).
  apply Hsh. by right.
Qed.

Lemma byte_addrs_is_Addr start bytes : Forall is_Addr (byte_addrs start bytes).
Proof.
  unfold byte_addrs. apply Forall_fmap, Forall_forall. intros i _. simpl.
  unfold is_Addr, wrap, Addr_max.
  pose proof (Z.mod_pos_bound (start + Z.of_nat i) Addr_modulus ltac:(done)). lia.
Qed.

Lemma byte_addrs_NoDup start bytes :
  bytes <= Addr_modulus -> NoDup (byte_addrs start bytes).
Proof.
  intros Hb. unfold byte_addrs. apply NoDup_fmap_2_strong; [|apply NoDup_seq].
  intros i j Hi Hj Heq. apply elem_of_seq in Hi, Hj. unfold wrap in Heq.
  assert (Addr_modulus = 2 ^ 64) as HM by done.
  assert ((Z.of_nat i - Z.of_nat j) mod Addr_modulus = 0) as Hd.
  { replace (Z.of_nat i - Z.of_nat j) with ((start + Z.of_nat i) - (start + Z.of_nat j)) by lia.
    rewrite Zminus_mod, Heq, Z.sub_diag. done. }
  apply Z.mod_divide in Hd; [|lia]. destruct Hd as [k Hk].
  assert (k = 0) by nia. lia.
Qed.

End ReadFacts.

End ReadFacts.

(** ** Flushes, the event counter and the record of calls *)

Module FlushFacts.
Import TCxt.

Lemma INCR_EID_OVERFLOW_Ok e e' :
  INCR_EID_OVERFLOW e = Ok e' -> e' = e + 1 /\ e <> StatCounter_max.
Proof.
  unfold INCR_EID_OVERFLOW. destruct (Z.eqb_spec e StatCounter_max); [done|].
  by intros [= <-].
Qed.

Lemma compFlushIfActive_inactive tc :
  isActive (stComp tc) = false -> compFlushIfActive tc = Ok tc.
Proof. intros H. unfold compFlushIfActive. rewrite H. simpl. by rewrite H. Qed.

Lemma commFlushIfActive_inactive tc :
  commActive (stComm tc) = false -> commFlushIfActive tc = Ok tc.
Proof. intros H. unfold commFlushIfActive. rewrite H. simpl. by rewrite H. Qed.

Lemma compFlushIfActive_active tc :
  isActive (stComp tc) = true ->
  compFlushIfActive tc =
    if events tc =? StatCounter_max then Fatal EidOverflow
    else Ok (set_events (events tc + 1)
               (set_stComp (CompEvent.reset (stComp tc))
                  (log (FlushComp (stComp tc) (events tc) (tid tc)) tc))).
Proof.
  intros H. unfold compFlushIfActive, INCR_EID_OVERFLOW. rewrite H. simpl.
  by destruct (_ =? _).
Qed.

Lemma commFlushIfActive_active tc :
  commActive (stComm tc) = true ->
  commFlushIfActive tc =
    if events tc =? StatCounter_max then Fatal EidOverflow
    else Ok (set_events (events tc + 1)
               (set_stComm (CommEvent.reset (stComm tc))
                  (log (FlushComm (stComm tc) (events tc) (tid tc)) tc))).
Proof.
  intros H. unfold commFlushIfActive, INCR_EID_OVERFLOW. rewrite H. simpl.
  by destruct (_ =? _).
Qed.

Lemma log_step_silent tc tc' :
  logger tc' = logger tc -> events tc' = events tc -> log_step tc tc'.
Proof. intros. by left. Qed.

Lemma log_step_frame tc tc1 tc2 :
  log_step tc tc1 -> logger tc2 = logger tc1 -> events tc2 = events tc1 ->
  log_step tc tc2.
Proof.
  intros [[Hl He]|(c & Hl & Ha & He)] Hl2 He2.
  - left. split; congruence.
  - right. exists c. rewrite Hl2, He2. done.
Qed.

Lemma log_step_frame_l tc0 tc tc1 :
  logger tc0 = logger tc -> events tc0 = events tc -> log_step tc tc1 ->
  log_step tc0 tc1.
Proof.
  intros Hl0 He0 [[Hl He]|(c & Hl & Ha & He)].
  - left. split; congruence.
  - right. exists c. rewrite Hl0, He0. done.
Qed.

Lemma log_steps_frame tc tc1 tc2 :
  log_steps tc tc1 -> logger tc2 = logger tc1 -> events tc2 = events tc1 ->
  log_steps tc tc2.
Proof.
  intros H Hl He. eapply rtc_r; [exact H|]. by apply log_step_silent.
Qed.

Lemma compFlushIfActive_Ok tc tc' :
  compFlushIfActive tc = Ok tc' ->
  log_step tc tc' /\ isActive (stComp tc') = false /\
  stComm tc' = stComm tc /\ tid tc' = tid tc /\
  primsPerStCompEv tc' = primsPerStCompEv tc /\
  (isActive (stComp tc) = false -> tc' = tc).
Proof.
  destruct (isActive (stComp tc)) eqn:Hact.
  - rewrite compFlushIfActive_active by done.
    destruct (Z.eqb_spec (events tc) StatCounter_max) as [|Hne]; [done|].
    intros [= <-]. simpl. split; [|done]. right.
    exists (FlushComp (stComp tc) (events tc) (tid tc)). by simpl.
  - rewrite compFlushIfActive_inactive by done. intros [= <-].
    split; [by left|done].
Qed.

Lemma commFlushIfActive_Ok tc tc' :
  commFlushIfActive tc = Ok tc' ->
  log_step tc tc' /\ commActive (stComm tc') = false /\
  stComp tc' = stComp tc /\ tid tc' = tid tc /\
  primsPerStCompEv tc' = primsPerStCompEv tc /\
  (commActive (stComm tc) = false -> tc' = tc).
Proof.
  destruct (commActive (stComm tc)) eqn:Hact.
  - rewrite commFlushIfActive_active by done.
    destruct (Z.eqb_spec (events tc) StatCounter_max) as [|Hne]; [done|].
    intros [= <-]. simpl. split; [|done]. right.
    exists (FlushComm (stComm tc) (events tc) (tid tc)). by simpl.
  - rewrite commFlushIfActive_inactive by done. intros [= <-].
    split; [by left|done].
Qed.

(** The assertion that closes [checkCompFlushLimit] holds on every path. *)
Lemma checkCompFlushLimit_spec tc :
  match checkCompFlushLimit tc with
  | Ok tc' =>
      below_cap tc' /\ log_step tc tc' /\ stComm tc' = stComm tc /\
      (isActive (stComp tc') = true -> stComp tc' = stComp tc) /\
      (stComp tc' = stComp tc \/ stComp tc' = CompEvent.reset (stComp tc))
  | Fatal e => e = EidOverflow /\ events tc = StatCounter_max
  end.
Proof.
  unfold checkCompFlushLimit, below_cap.
  destruct ((writes (stComp tc) >=? primsPerStCompEv tc)
            || (reads (stComp tc) >=? primsPerStCompEv tc)) eqn:Hcap.
  - destruct (isActive (stComp tc)) eqn:Hact.
    + rewrite compFlushIfActive_active by done.
      destruct (Z.eqb_spec (events tc) StatCounter_max) as [|Hne]; [done|].
      simpl. split; [by left|]. split; [|split; [done|split; [done|by right]]].
      right. exists (FlushComp (stComp tc) (events tc) (tid tc)). by simpl.
    + rewrite compFlushIfActive_inactive by done. simpl. rewrite Hact. simpl.
      split; [by left|]. split; [by left|]. split; [done|]. split; [done|by left].
  - simpl. apply orb_false_iff in Hcap as [Hw Hr].
    rewrite Z.geb_leb in Hw, Hr. apply Z.leb_gt in Hw, Hr.
    assert ((writes (stComp tc) <? primsPerStCompEv tc) = true) as ->
      by by apply Z.ltb_lt.
    assert ((reads (stComp tc) <? primsPerStCompEv tc) = true) as ->
      by by apply Z.ltb_lt.
    rewrite orb_true_r. simpl. split; [by right|]. split; [by left|].
    split; [done|]. split; [done|by left].
Qed.

Lemma checkCompFlushLimit_Ok tc tc' :
  checkCompFlushLimit tc = Ok tc' ->
  below_cap tc' /\ log_step tc tc' /\ stComm tc' = stComm tc /\
  (isActive (stComp tc') = true -> stComp tc' = stComp tc).
Proof.
  intros H. pose proof (checkCompFlushLimit_spec tc) as Hs.
  rewrite H in Hs. tauto.
Qed.

(** In STEvent.cpp a sync record bumps the shared event id. *)
Lemma STSyncEvent_flush_bumps n2hexstr type a k k' :
  STEventText.STSyncEvent_flush n2hexstr type a k = Ok k' ->
  event_id k' = event_id k + 1.
Proof.
  unfold STEventText.STSyncEvent_flush. intros H. bind_ok H. injection H as <-.
  by apply INCR_EID_OVERFLOW_Ok in E as [-> _].
Qed.

Lemma onIop_Ok tc tc' :
  onIop tc = Ok tc' ->
  log_steps tc tc' /\ isActive (stComp tc') = true /\
  commActive (stComm tc') = false.
Proof.
  unfold onIop. intros H. bind_ok H. injection H as <-.
  apply commFlushIfActive_Ok in E as (Hs & Hc & _). simpl.
  split; [|done]. by apply rtc_once, (log_step_frame _ _ _ Hs).
Qed.

Lemma onFlop_Ok tc tc' :
  onFlop tc = Ok tc' ->
  log_steps tc tc' /\ isActive (stComp tc') = true /\
  commActive (stComm tc') = false.
Proof.
  unfold onFlop. intros H. bind_ok H. injection H as <-.
  apply commFlushIfActive_Ok in E as (Hs & Hc & _). simpl.
  split; [|done]. by apply rtc_once, (log_step_frame _ _ _ Hs).
Qed.

Section WithPolicy.
Context `{policy : ShadowPolicy}.

Lemma check_keeps_exclusion a a0 :
  checkCompFlushLimit a = Ok a0 ->
  isActive (stComp a) && commActive (stComm a) = false ->
  isActive (stComp a0) && commActive (stComm a0) = false.
Proof.
  intros H Hex. apply checkCompFlushLimit_Ok in H as (_ & _ & Hcomm & Hcomp).
  rewrite Hcomm. destruct (isActive (stComp a0)) eqn:Ha0; [|done].
  rewrite <- Hcomp in Hex by done. by rewrite Ha0 in Hex.
Qed.

Lemma onRead_finish_Ok tc st tc' sh' :
  onRead_finish tc st = Ok (tc', sh') ->
  log_steps tc tc' /\ below_cap tc' /\ sh' = rl_shadow st /\
  isActive (stComp tc') && commActive (stComm tc') = false.
Proof.
  unfold onRead_finish. intros H. bind_ok H. bind_ok H. injection H as <- <-.
  set (tc0 := set_stComm (rl_comm st) (set_stComp (rl_comp st) tc)) in *.
  assert (log_step tc0 a /\
          isActive (stComp a) && commActive (stComm a) = false) as [Hs1 Hex].
  { destruct (rl_isCommEdge st); simpl in E.
    - apply compFlushIfActive_Ok in E as (Hs & -> & _). done.
    - bind_ok E. injection E as <-.
      apply commFlushIfActive_Ok in E1 as (Hs & Hc & _). simpl.
      rewrite Hc, ?andb_false_r. split; [|done].
      by apply (log_step_frame _ _ _ Hs). }
  pose proof (check_keeps_exclusion _ _ E0 Hex) as Hex0.
  apply checkCompFlushLimit_Ok in E0 as (Hcap & Hs2 & _).
  split; [|done].
  eapply log_steps_frame; [|done|done].
  eapply rtc_l; [|by apply rtc_once].
  by apply (log_step_frame_l tc tc0).
Qed.

Lemma onRead_Ok tc sh start bytes tc' sh' :
  onRead tc sh start bytes = Ok (tc', sh') ->
  log_steps tc tc' /\ below_cap tc' /\
  isActive (stComp tc') && commActive (stComm tc') = false.
Proof.
  unfold onRead. intros H. bind_ok H.
  apply onRead_finish_Ok in H as (? & ? & _ & ?). done.
Qed.

Lemma onWrite_Ok tc sh start bytes tc' sh' :
  onWrite tc sh start bytes = Ok (tc', sh') ->
  log_steps tc tc' /\ below_cap tc'.
Proof.
  unfold onWrite. intros H. bind_ok H. bind_ok H. injection H as <- _.
  apply checkCompFlushLimit_Ok in E0 as (Hcap & Hs & _).
  split; [|done]. eapply log_steps_frame; [|done|done].
  apply rtc_once. by apply (log_step_frame_l _ _ _ eq_refl eq_refl) in Hs.
Qed.

End WithPolicy.

Lemma destroy_Ok tc tc' :
  destroy tc = Ok tc' ->
  log_steps tc tc' /\ isActive (stComp tc') = false /\
  commActive (stComm tc') = false.
Proof.
  unfold destroy. intros H. bind_ok H.
  apply compFlushIfActive_Ok in E as (Hs1 & Hc1 & _).
  apply commFlushIfActive_Ok in H as (Hs2 & Hc2 & Hcomp & _).
  rewrite Hcomp. split; [|done]. eapply rtc_l; [exact Hs1|by apply rtc_once].
Qed.

Lemma onSync_Ok tc ty a tc' :
  onSync tc ty a = Ok tc' ->
  log_steps tc tc' /\ isActive (stComp tc') = false /\
  commActive (stComm tc') = false /\
  exists tc1, log_steps tc tc1 /\
    logger tc' = logger tc1 ++ [FlushSync ty a (events tc1) (tid tc1)] /\
    events tc' = events tc1.
Proof.
  unfold onSync. intros H. bind_ok H. bind_ok H. injection H as <-.
  apply compFlushIfActive_Ok in E as (Hs1 & Hc1 & _).
  apply commFlushIfActive_Ok in E0 as (Hs2 & Hc2 & Hcomp & _).
  assert (log_steps tc a1) as Hs by (eapply rtc_l; [exact Hs1|by apply rtc_once]).
  assert (forall t, stComp t = stComp a1 -> stComm t = stComm a1 ->
            isActive (stComp t) = false /\ commActive (stComm t) = false) as Hfl
    by (intros t -> ->; by rewrite Hcomp).
  split; [|split; [|split]].
  - eapply rtc_r; [exact Hs|]. right.
    eexists (FlushSync ty a _ _). repeat (destruct (_ =? _)); simpl; done.
  - repeat (destruct (_ =? _)); simpl; by rewrite ?Hcomp.
  - repeat (destruct (_ =? _)); simpl; done.
  - exists a1. split; [done|]. repeat (destruct (_ =? _)); simpl; done.
Qed.

Lemma onInstr_steps tc : log_steps tc (onInstr tc).
Proof.
  unfold onInstr. destruct (_ =? _).
  - apply rtc_once. right. eexists (InstrMarker _). by simpl.
  - apply rtc_once. by left.
Qed.

Section Runs.
Context `{policy : ShadowPolicy}.

Lemma step_steps tc sh p tc' sh' :
  step tc sh p = Ok (tc', sh') -> log_steps tc tc'.
Proof.
  destruct p; simpl; intros H.
  - by apply onRead_Ok in H as (? & _).
  - by apply onWrite_Ok in H as (? & _).
  - bind_ok H. injection H as <- _. by apply onIop_Ok in E as (? & _).
  - bind_ok H. injection H as <- _. by apply onFlop_Ok in E as (? & _).
  - bind_ok H. injection H as <- _. by apply onSync_Ok in E as (? & _).
  - injection H as <- _. apply onInstr_steps.
  - bind_ok H. injection H as <- _. by apply destroy_Ok in E as (? & _).
Qed.

Lemma eid_inv_step tc tc' : log_step tc tc' -> eid_inv tc -> eid_inv tc'.
Proof.
  intros [[Hl He]|(c & Hl & _ & He)] [Hids Hb]; unfold eid_inv.
  - by rewrite Hl, He.
  - rewrite Hl. unfold agg_eids in *. rewrite omap_app, Hids. simpl.
    destruct (agg_eid c) as [e|].
    + destruct He as (-> & -> & Hne). split; [|lia].
      replace (Z.to_nat (events tc + 1)) with (Z.to_nat (events tc) + 1)%nat by lia.
      rewrite seq_app, fmap_app. simpl. rewrite Z2Nat.id by lia. done.
    + rewrite He, app_nil_r. done.
Qed.

Lemma active_inv_step tc tc' :
  log_step tc tc' -> Forall from_active (logger tc) ->
  Forall from_active (logger tc').
Proof.
  intros [[Hl He]|(c & Hl & Hc & He)] Hall; rewrite Hl; [done|].
  apply Forall_app. split; [done|]. by apply Forall_singleton.
Qed.

Lemma reachable_inv tc :
  reachable tc -> eid_inv tc /\ Forall from_active (logger tc).
Proof.
  induction 1 as [tid prims tc Hc|tc sh p tc' sh' _ [IH1 IH2] Hstep].
  - unfold create in Hc. bind_ok Hc. bind_ok Hc. injection Hc as <-.
    split; [|by constructor]. split; [done|]. simpl. unfold StatCounter_max. lia.
  - apply step_steps in Hstep. clear -IH1 IH2 Hstep.
    induction Hstep as [|x y z Hxy _ IH]; [done|].
    apply IH; [by eapply eid_inv_step|by eapply active_inv_step].
Qed.

(** A run stays within the reachable states. *)
Lemma run_reachable ps : forall tc sh tc' sh',
  reachable tc -> run tc sh ps = Ok (tc', sh') -> reachable tc'.
Proof.
  induction ps as [|p ps IH]; intros tc sh tc' sh' Hr Hrun; simpl in Hrun.
  - by injection Hrun as <- _.
  - bind_ok Hrun. destruct a as [tc1 sh1]. simpl in Hrun.
    eapply IH; [|exact Hrun]. by eapply reach_step.
Qed.

(** A run of two lists of primitives, one after the other. *)
Lemma run_app ps qs : forall tc sh,
  run tc sh (ps ++ qs) = (r ← run tc sh ps; run r.1 r.2 qs).
Proof.
  induction ps as [|p ps IH]; intros tc sh; simpl; [done|].
  destruct (step tc sh p) as [[tc1 sh1]|e]; simpl; [apply IH|done].
Qed.

End Runs.
End FlushFacts.

(** ** The embedding never gets stuck *)

Module Totality.
Import TCxt AddrSetFacts.

Lemma not_stuck_Ok {A} (a : A) : not_stuck (Ok a).
Proof. done. Qed.

Lemma not_stuck_bind {A B} (m : result A) (k : A -> result B) :
  not_stuck m -> (forall a, m = Ok a -> not_stuck (k a)) -> not_stuck (m ≫= k).
Proof.
  intros Hm Hk. destruct m as [a|e]; simpl; [by apply Hk|].
  intros [= ->]. by apply Hm.
Qed.

Lemma not_stuck_assert c : not_stuck (assert_ c).
Proof. by destruct c. Qed.

Lemma not_stuck_INCR e : not_stuck (INCR_EID_OVERFLOW e).
Proof. unfold INCR_EID_OVERFLOW. by destruct (_ =? _). Qed.

(** Goals [not_stuck _] over binds, conditionals and assertions. *)
Ltac stuck :=
  repeat first
    [ apply not_stuck_Ok | apply not_stuck_assert | apply not_stuck_INCR
    | apply insert_total
    | apply not_stuck_bind; [|intros ? _]
    | match goal with |- not_stuck (if ?b then _ else _) => destruct b end
    | match goal with |- not_stuck (match ?o with Some _ => _ | None => _ end) =>
        destruct o end
    | done ].

Lemma updateReads_not_stuck ev a n : not_stuck (CompEvent.updateReads ev a n).
Proof. unfold CompEvent.updateReads. stuck. Qed.

Lemma updateWrites_not_stuck ev a n : not_stuck (CompEvent.updateWrites ev a n).
Proof. unfold CompEvent.updateWrites. stuck. Qed.

Lemma addEdge_loop_not_stuck cs w e a : not_stuck (CommEvent.addEdge_loop cs w e a).
Proof. induction cs as [|c cs IH]; simpl; stuck. Qed.

Lemma addEdge_not_stuck ev w e a : not_stuck (CommEvent.addEdge ev w e a).
Proof.
  unfold CommEvent.addEdge. destruct (comms ev); [stuck|].
  apply not_stuck_bind; [apply addEdge_loop_not_stuck|]. intros ? _. stuck.
Qed.

Lemma compFlushIfActive_not_stuck tc : not_stuck (compFlushIfActive tc).
Proof. unfold compFlushIfActive. stuck. Qed.

Lemma commFlushIfActive_not_stuck tc : not_stuck (commFlushIfActive tc).
Proof. unfold commFlushIfActive. stuck. Qed.

Lemma checkCompFlushLimit_not_stuck tc : not_stuck (checkCompFlushLimit tc).
Proof.
  unfold checkCompFlushLimit.
  apply not_stuck_bind; [destruct (_ || _); [apply compFlushIfActive_not_stuck|done]|].
  intros ? _. stuck.
Qed.

Lemma onIop_not_stuck tc : not_stuck (onIop tc).
Proof.
  unfold onIop. apply not_stuck_bind; [apply commFlushIfActive_not_stuck|done].
Qed.

Lemma onFlop_not_stuck tc : not_stuck (onFlop tc).
Proof.
  unfold onFlop. apply not_stuck_bind; [apply commFlushIfActive_not_stuck|done].
Qed.

Lemma destroy_not_stuck tc : not_stuck (destroy tc).
Proof.
  unfold destroy. apply not_stuck_bind; [apply compFlushIfActive_not_stuck|].
  intros ? _. apply commFlushIfActive_not_stuck.
Qed.

Lemma onSync_not_stuck tc ty a : not_stuck (onSync tc ty a).
Proof.
  unfold onSync. apply not_stuck_bind; [apply compFlushIfActive_not_stuck|].
  intros ? _. apply not_stuck_bind; [apply commFlushIfActive_not_stuck|done].
Qed.

Section WithPolicy.
Context `{policy : ShadowPolicy}.

Lemma onRead_byte_not_stuck tid st a : not_stuck (onRead_byte tid st a).
Proof.
  unfold onRead_byte, onRead_catch.
  repeat first
    [ apply not_stuck_bind; [first [apply updateReads_not_stuck|apply addEdge_not_stuck]|intros ? _]
    | match goal with |- not_stuck (match ?o with Some _ => _ | None => _ end) =>
        destruct o end
    | match goal with |- not_stuck (if ?b then _ else _) => destruct b end
    | done ].
Qed.

Lemma onRead_loop_not_stuck tid addrs : forall st,
  not_stuck (onRead_loop tid st addrs).
Proof.
  induction addrs as [|a addrs IH]; intros st; simpl; [done|].
  apply not_stuck_bind; [apply onRead_byte_not_stuck|]. intros ? _. apply IH.
Qed.

Lemma onRead_not_stuck tc sh start bytes : not_stuck (onRead tc sh start bytes).
Proof.
  unfold onRead. apply not_stuck_bind; [apply onRead_loop_not_stuck|].
  intros st _. unfold onRead_finish. apply not_stuck_bind.
  - destruct (negb _); [|apply compFlushIfActive_not_stuck].
    apply not_stuck_bind; [apply commFlushIfActive_not_stuck|done].
  - intros ? _. apply not_stuck_bind; [apply checkCompFlushLimit_not_stuck|done].
Qed.

Lemma onWrite_not_stuck tc sh start bytes : not_stuck (onWrite tc sh start bytes).
Proof.
  unfold onWrite. apply not_stuck_bind; [apply updateWrites_not_stuck|].
  intros ? _. apply not_stuck_bind; [apply checkCompFlushLimit_not_stuck|done].
Qed.

(** No step of a ThreadContext ends in [ModelStuck]: the recursion budget of
    [insert] suffices and no iterator is read past the end. *)
Lemma step_not_stuck tc sh p : not_stuck (step tc sh p).
Proof.
  destruct p; simpl.
  - apply onRead_not_stuck.
  - apply onWrite_not_stuck.
  - apply not_stuck_bind; [apply onIop_not_stuck|done].
  - apply not_stuck_bind; [apply onFlop_not_stuck|done].
  - apply not_stuck_bind; [apply onSync_not_stuck|done].
  - done.
  - apply not_stuck_bind; [apply destroy_not_stuck|done].
Qed.

End WithPolicy.

(** The same for the dispatcher. *)
Lemma cached_not_stuck eh m :
  cached_wf eh -> (forall tc, not_stuck (m tc)) -> not_stuck (EH.cached eh m).
Proof.
  intros Hwf Hm. unfold EH.cached. destruct (cachedTCxt eh) as [k|] eqn:Hk; [|done].
  destruct (Hwf k Hk) as [tc ->]. apply not_stuck_bind; [apply Hm|done].
Qed.

Lemma cached_wf_preserved eh m eh' :
  cached_wf eh -> EH.cached eh m = Ok eh' -> cached_wf eh'.
Proof.
  intros Hwf H. unfold EH.cached in H.
  destruct (cachedTCxt eh) as [k|] eqn:Hk; [|done].
  destruct (tcxts eh !! k) as [tc|] eqn:Htc; [|done].
  bind_ok H. injection H as <-. intros k' Hk'. simpl in *.
  rewrite Hk in Hk'. injection Hk' as <-. rewrite lookup_insert_eq. by eexists.
Qed.

Lemma onSwapTCxt_wf eh g newTID eh' g' :
  cached_wf eh -> EH.onSwapTCxt eh g newTID = Ok (eh', g') -> cached_wf eh'.
Proof.
  intros Hwf. unfold EH.onSwapTCxt. intros H. bind_ok H.
  destruct (bool_decide (currentTID eh ≠ newTID)) eqn:Hne.
  - bind_ok H. destruct a0 as [eh1 g1]. simpl in H.
    bind_ok H. bind_ok H. injection H as <- _.
    simpl in E0. bind_ok E0. destruct a0. simpl in E0.
    bind_ok E0. bind_ok E0. injection E0 as <- _.
    intros k Hk. simpl in *. injection Hk as <-.
    unfold assert_ in E5. by case_bool_decide.
  - simpl in H. bind_ok H. bind_ok H. injection H as <- _.
    intros k Hk. simpl in *. by apply Hwf.
Qed.

End Totality.

(** ** Stores below the compression level and at it *)

Module StoreFacts.
Import TCxt AddrSet AddrSetFacts FlushFacts.

Lemma incr_small c : 0 <= c < StatCounter_max -> incr c = c + 1.
Proof. unfold incr. intros. apply Z.mod_small. lia. Qed.

Lemma store_range_valid start bytes :
  store_ok start bytes -> valid (start, wrap (wrap (start + bytes) - 1)).
Proof.
  intros (H0 & H1 & H2). pose proof Addr_max_pos.
  rewrite (wrap_small (start + bytes)) by lia.
  rewrite wrap_small by lia. unfold valid. simpl. lia.
Qed.

Lemma updateWrites_Ok ev start bytes :
  canon (uniqueWriteAddrs ev) -> store_ok start bytes ->
  exists ev', CompEvent.updateWrites ev start bytes = Ok ev' /\
              canon (uniqueWriteAddrs ev').
Proof.
  intros Hc Hs. apply store_range_valid in Hs.
  destruct (insert_spec _ _ Hc Hs) as (ws & Hins & Hcw & _).
  unfold CompEvent.updateWrites. rewrite Hins. simpl. by eexists.
Qed.

Section WithPolicy.
Context `{policy : ShadowPolicy}.

(** A store of at least one byte below the last address is processed to the
    end, and the write set stays canonical. *)
Lemma onWrite_completes tc sh start bytes :
  canon (uniqueWriteAddrs (stComp tc)) -> store_ok start bytes ->
  events tc <> StatCounter_max ->
  exists tc' sh', onWrite tc sh start bytes = Ok (tc', sh') /\
                  canon (uniqueWriteAddrs (stComp tc')).
Proof.
  intros Hc Hs He.
  destruct (updateWrites_Ok (CompEvent.incWrites (stComp tc)) start bytes Hc Hs)
    as (ev' & Hupd & Hcw).
  unfold onWrite. simpl. rewrite Hupd. simpl.
  match goal with |- context [checkCompFlushLimit ?t] =>
    pose proof (checkCompFlushLimit_spec t) as Hs';
    destruct (checkCompFlushLimit t) as [tc1|e] end.
  - simpl. eexists _, _. split; [done|]. simpl.
    destruct Hs' as (_ & _ & _ & _ & [->| ->]); done.
  - by destruct Hs' as [_ Hev].
Qed.

(** A store that stays below the compression level. *)
Lemma onWrite_below tc sh start bytes w tc' sh' :
  onWrite tc sh start bytes = Ok (tc', sh') ->
  writes (stComp tc) = w -> 0 <= w -> w + 1 < primsPerStCompEv tc ->
  primsPerStCompEv tc <= 100 -> reads (stComp tc) < primsPerStCompEv tc ->
  writes (stComp tc') = w + 1 /\ reads (stComp tc') = reads (stComp tc) /\
  isActive (stComp tc') = true /\
  logger tc' = logger tc /\ events tc' = events tc /\ tid tc' = tid tc /\
  primsPerStCompEv tc' = primsPerStCompEv tc /\ stComm tc' = stComm tc.
Proof.
  intros H Hw H0 Hlt Hcap Hr.
  unfold onWrite in H. bind_ok H. bind_ok H. injection H as <- _.
  unfold CompEvent.updateWrites in E. bind_ok E. injection E as <-.
  unfold checkCompFlushLimit in E0. simpl in E0. rewrite Hw in E0.
  rewrite incr_small in E0 by (unfold StatCounter_max; lia).
  assert ((w + 1 >=? primsPerStCompEv tc) = false) as Hn by lia.
  assert ((reads (stComp tc) >=? primsPerStCompEv tc) = false) as Hn' by lia.
  rewrite Hn, Hn' in E0. simpl in E0.
  assert ((w + 1 <? primsPerStCompEv tc) = true) as Hy by lia.
  assert ((reads (stComp tc) <? primsPerStCompEv tc) = true) as Hy' by lia.
  rewrite Hy, Hy' in E0. simpl in E0. injection E0 as <-. done.
Qed.

(** A store that reaches the compression level: the compute record leaves
    with the incremented counter. *)
Lemma onWrite_reaches_cap tc sh start bytes w tc' sh' :
  onWrite tc sh start bytes = Ok (tc', sh') ->
  writes (stComp tc) = w -> 0 <= w -> primsPerStCompEv tc <= w + 1 ->
  w < 100 ->
  exists ev,
    logger tc' = logger tc ++ [FlushComp ev (events tc) (tid tc)] /\
    writes ev = w + 1 /\ reads ev = reads (stComp tc) /\
    writes (stComp tc') = 0 /\ reads (stComp tc') = 0 /\
    isActive (stComp tc') = false /\
    events tc' = events tc + 1 /\ tid tc' = tid tc /\
    primsPerStCompEv tc' = primsPerStCompEv tc /\ stComm tc' = stComm tc.
Proof.
  intros H Hw H0 Hge Hcap.
  unfold onWrite in H. bind_ok H. bind_ok H. injection H as <- _.
  unfold CompEvent.updateWrites in E. bind_ok E. injection E as <-.
  unfold checkCompFlushLimit in E0. simpl in E0. rewrite Hw in E0.
  rewrite incr_small in E0 by (unfold StatCounter_max; lia).
  assert ((w + 1 >=? primsPerStCompEv tc) = true) as Hy by lia.
  rewrite Hy in E0. simpl in E0.
  rewrite compFlushIfActive_active in E0 by done. simpl in E0.
  destruct (events tc =? StatCounter_max); [done|]. simpl in E0.
  injection E0 as <-. simpl. by eexists.
Qed.

(** The range of a store of size [0] is [(start, start - 1)]: unless
    [start] is [0] it fails the assertion [first <= second] of
    [AddrSet::insert]. *)
Lemma onWrite_empty_range_asserts tc sh start :
  0 < start <= Addr_max -> onWrite tc sh start 0 = Fatal AssertionFailed.
Proof.
  intros Ha. unfold onWrite, CompEvent.updateWrites. simpl.
  rewrite Z.add_0_r, (wrap_small start) by lia.
  rewrite wrap_small by lia. unfold AddrSet.insert. simpl.
  unfold AddrSet.insert_body, assert_. simpl.
  by assert ((start <=? start - 1) = false) as -> by lia.
Qed.

End WithPolicy.
End StoreFacts.

(** ** The flushes, case by case *)

Module CaseFacts.
Import TCxt FlushFacts.

Lemma compFlush_cases tc tc' :
  compFlushIfActive tc = Ok tc' ->
  (isActive (stComp tc) = false /\ tc' = tc) \/
  (isActive (stComp tc) = true /\ events tc <> StatCounter_max /\
   tc' = set_events (events tc + 1)
           (set_stComp (CompEvent.reset (stComp tc))
              (log (FlushComp (stComp tc) (events tc) (tid tc)) tc))).
Proof.
  destruct (isActive (stComp tc)) eqn:Ha.
  - rewrite compFlushIfActive_active by done.
    destruct (events tc =? StatCounter_max) eqn:He; [done|].
    intros [= <-]. right. split; [done|]. split; [lia|done].
  - rewrite compFlushIfActive_inactive by done. intros [= <-]. by left.
Qed.

Lemma commFlush_cases tc tc' :
  commFlushIfActive tc = Ok tc' ->
  (commActive (stComm tc) = false /\ tc' = tc) \/
  (commActive (stComm tc) = true /\ events tc <> StatCounter_max /\
   tc' = set_events (events tc + 1)
           (set_stComm (CommEvent.reset (stComm tc))
              (log (FlushComm (stComm tc) (events tc) (tid tc)) tc))).
Proof.
  destruct (commActive (stComm tc)) eqn:Ha.
  - rewrite commFlushIfActive_active by done.
    destruct (events tc =? StatCounter_max) eqn:He; [done|].
    intros [= <-]. right. split; [done|]. split; [lia|done].
  - rewrite commFlushIfActive_inactive by done. intros [= <-]. by left.
Qed.

Lemma check_cases tc tc' :
  checkCompFlushLimit tc = Ok tc' ->
  (tc' = tc /\
   (isActive (stComp tc) = false \/
    (writes (stComp tc) < primsPerStCompEv tc /\
     reads (stComp tc) < primsPerStCompEv tc))) \/
  (isActive (stComp tc) = true /\ events tc <> StatCounter_max /\
   tc' = set_events (events tc + 1)
           (set_stComp (CompEvent.reset (stComp tc))
              (log (FlushComp (stComp tc) (events tc) (tid tc)) tc))).
Proof.
  unfold checkCompFlushLimit. intros H.
  destruct ((writes (stComp tc) >=? primsPerStCompEv tc)
            || (reads (stComp tc) >=? primsPerStCompEv tc)) eqn:Hlim.
  - bind_ok H. apply compFlush_cases in E as [[Ha ->]|(Ha & He & ->)].
    + unfold assert_ in H. rewrite Ha in H. simpl in H. injection H as <-.
      left. split; [done|by left].
    + simpl in H. injection H as <-. right. done.
  - simpl in H. unfold assert_ in H.
    destruct (negb _ || _) eqn:Hc; [|done]. simpl in H. injection H as <-.
    left. split; [done|]. right. lia.
Qed.




Lemma updateWrites_fields ev start bytes ev' :
  CompEvent.updateWrites ev start bytes = Ok ev' ->
  iops ev' = iops ev /\ flops ev' = flops ev /\ reads ev' = reads ev /\
  writes ev' = writes ev /\ total_events ev' = total_events ev /\
  uniqueReadAddrs ev' = uniqueReadAddrs ev /\ isActive ev' = isActive ev.
Proof. unfold CompEvent.updateWrites. intros H. bind_ok H. by injection H as <-. Qed.

Lemma updateReads_fields ev start bytes ev' :
  CompEvent.updateReads ev start bytes = Ok ev' ->
  iops ev' = iops ev /\ flops ev' = flops ev /\ reads ev' = reads ev /\
  writes ev' = writes ev /\ total_events ev' = total_events ev /\
  uniqueWriteAddrs ev' = uniqueWriteAddrs ev /\ isActive ev' = isActive ev.
Proof. unfold CompEvent.updateReads. intros H. bind_ok H. by injection H as <-. Qed.

End CaseFacts.

(** ** Edges and read ranges, one address at a time *)

Module EdgeFacts.
Import AddrSet AddrSetFacts.

Lemma single_valid a : 0 <= a < Addr_max -> valid (a, a).
Proof. unfold valid. simpl. lia. Qed.

Lemma holds_single a p : holds [(a, a)] p <-> p = a.
Proof.
  unfold holds, covers. rewrite Exists_cons, Exists_nil. simpl. lia.
Qed.

Lemma edge_holds_nil w e p : ~ edge_holds [] w e p.
Proof. intros (s & Hs & _). by apply elem_of_nil in Hs. Qed.

Lemma edge_holds_cons edge cs w e p :
  edge_holds (edge :: cs) w e p <->
  (edge.1 = (w, e) /\ holds edge.2 p) \/ edge_holds cs w e p.
Proof.
  unfold edge_holds. split.
  - intros (s & [Heq|Hs]%elem_of_cons & Hp).
    + left. by rewrite <- Heq.
    + right. by exists s.
  - intros [[Hk Hp]|(s & Hs & Hp)].
    + exists edge.2. split; [|done]. apply elem_of_cons. left.
      destruct edge as [[??]?]. simpl in *. congruence.
    + exists s. split; [|done]. apply elem_of_cons. by right.
Qed.

Lemma edge_holds_app cs1 cs2 w e p :
  edge_holds (cs1 ++ cs2) w e p <-> edge_holds cs1 w e p \/ edge_holds cs2 w e p.
Proof.
  induction cs1 as [|c cs1 IH]; simpl.
  - split; [by right|]. intros [H|H]; [by apply edge_holds_nil in H|done].
  - rewrite !edge_holds_cons, IH. tauto.
Qed.

Lemma addEdge_loop_spec cs w e a :
  edges_canon cs -> 0 <= a < Addr_max ->
  exists r, CommEvent.addEdge_loop cs w e a = Ok r /\
    match r with
    | Some cs' =>
        edges_canon cs' /\
        forall w' e' p, edge_holds cs' w' e' p <->
                        edge_holds cs w' e' p \/ (w' = w /\ e' = e /\ p = a)
    | None => forall s, (w, e, s) ∉ cs
    end.
Proof.
  intros Hc Ha. induction cs as [|edge cs IH]; simpl.
  - eexists. split; [done|]. intros s. apply not_elem_of_nil.
  - apply Forall_cons in Hc as [Hc1 Hc2].
    destruct ((edge.1.1 =? w) && (edge.1.2 =? e)) eqn:Hk.
    + apply andb_true_iff in Hk as [Hk1 Hk2]. apply Z.eqb_eq in Hk1, Hk2.
      destruct (insert_spec edge.2 (a, a) Hc1 (single_valid a Ha))
        as (s' & Hs' & Hcs' & Hh).
      rewrite Hs'. simpl. eexists. split; [done|]. split.
      * apply Forall_cons. done.
      * intros w' e' p. rewrite !edge_holds_cons. simpl. rewrite Hh.
        unfold covers. simpl.
        assert (edge.1 = (w, e)) as Hke
          by (destruct edge as [[??]?]; simpl in *; congruence).
        rewrite Hk1, Hk2, Hke. split.
        -- intros [[Hw [Hp|Hp]]|H]; [by left; left|right|by left; right].
           injection Hw as <- <-. repeat split; lia.
        -- intros [[[Hw Hp]|H]|(-> & -> & ->)];
             [by left; split; [|left]|by right|].
           left. split; [done|]. right. lia.
    + destruct (IH Hc2) as (r & Hr & Hspec). rewrite Hr. simpl.
      eexists. split; [done|].
      assert (edge.1 <> (w, e)) as Hne.
      { intros Heq. rewrite Heq in Hk. simpl in Hk.
        by rewrite !Z.eqb_refl in Hk. }
      destruct r as [cs'|]; simpl.
      * destruct Hspec as [Hc' Hh]. split; [by apply Forall_cons|].
        intros w' e' p. rewrite !edge_holds_cons, Hh. tauto.
      * intros s [Heq|Hin]%elem_of_cons; [|by eapply Hspec].
        apply Hne. by rewrite <- Heq.
Qed.

Lemma addEdge_spec ev w e a :
  edges_canon (comms ev) -> 0 <= a < Addr_max ->
  exists ev', CommEvent.addEdge ev w e a = Ok ev' /\
    commActive ev' = true /\ edges_canon (comms ev') /\
    forall w' e' p, edge_holds (comms ev') w' e' p <->
                    edge_holds (comms ev) w' e' p \/ (w' = w /\ e' = e /\ p = a).
Proof.
  intros Hc Ha. unfold CommEvent.addEdge.
  assert (forall w' e' p,
            edge_holds [(w, e, singleton (a, a))] w' e' p <->
            (w' = w /\ e' = e /\ p = a)) as Hfresh.
  { intros w' e' p. rewrite edge_holds_cons. simpl.
    change (singleton (a, a)) with [(a, a)]. rewrite holds_single. split.
    - intros [[[= <- <-] ->]|H]; [done|by apply edge_holds_nil in H].
    - intros (-> & -> & ->). by left. }
  assert (edges_canon [(w, e, singleton (a, a))]) as Hcf.
  { apply Forall_singleton. simpl. split; [by apply single_valid|].
    split; [constructor|done]. }
  destruct (comms ev) as [|c cs] eqn:Hcs.
  - eexists. split; [done|]. simpl. split; [done|]. split; [done|].
    intros w' e' p. rewrite Hfresh. split; [by right|].
    intros [H|H]; [by apply edge_holds_nil in H|done].
  - destruct (addEdge_loop_spec (c :: cs) w e a Hc Ha) as (r & Hr & Hspec).
    rewrite Hr. simpl. destruct r as [cs'|]; eexists; (split; [done|]); simpl.
    + destruct Hspec. done.
    + split; [done|]. rewrite app_comm_cons.
      split; [by apply Forall_app|].
      intros w' e' p. rewrite edge_holds_app, Hfresh. done.
Qed.

Lemma updateReads_one ev a :
  canon (uniqueReadAddrs ev) -> 0 <= a < Addr_max ->
  exists ev', CompEvent.updateReads ev a 1 = Ok ev' /\
    canon (uniqueReadAddrs ev') /\
    forall p, holds (uniqueReadAddrs ev') p <->
              holds (uniqueReadAddrs ev) p \/ p = a.
Proof.
  intros Hc Ha. unfold CompEvent.updateReads.
  assert (wrap (wrap (a + 1) - 1) = a) as ->.
  { rewrite (wrap_small (a + 1)) by lia.
    replace (a + 1 - 1) with a by lia. apply wrap_small. lia. }
  destruct (insert_spec _ (a, a) Hc (single_valid a Ha)) as (s & Hs & Hcs & Hh).
  rewrite Hs. simpl. eexists. split; [done|]. simpl. split; [done|].
  intros p. rewrite Hh. unfold covers. simpl. split; intros [?|?]; auto; lia.
Qed.

End EdgeFacts.

(** ** What a load leaves in the aggregators *)

Module ReadSpec.
Import AddrSet AddrSetFacts TCxt FlushFacts CaseFacts ReadFacts EdgeFacts.

Section WithPolicy.
Context `{policy : ShadowPolicy}.

Lemma comm_edge_byte_iff tid sh a :
  comm_edge_byte tid sh a = true <-> is_comm_edge tid sh a.
Proof.
  unfold comm_edge_byte, is_comm_edge.
  rewrite !andb_true_iff, !negb_true_iff, !Z.eqb_neq, bool_decide_eq_false.
  tauto.
Qed.

Lemma comm_edge_byte_false tid sh a :
  comm_edge_byte tid sh a = false <-> ~ is_comm_edge tid sh a.
Proof.
  rewrite <- comm_edge_byte_iff. by destruct (comm_edge_byte tid sh a).
Qed.

Lemma classified_loop_spec tid sh0 addrs : forall st,
  canon (uniqueReadAddrs (rl_comp st)) -> edges_canon (comms (rl_comm st)) ->
  Forall (fun a => 0 <= a < Addr_max) addrs ->
  exists st', classified_loop tid sh0 st addrs = Ok st' /\
    canon (uniqueReadAddrs (rl_comp st')) /\
    edges_canon (comms (rl_comm st')) /\
    (forall p, holds (uniqueReadAddrs (rl_comp st')) p <->
       holds (uniqueReadAddrs (rl_comp st)) p \/
       (p ∈ addrs /\ ~ is_comm_edge tid sh0 p)) /\
    (forall w e p, edge_holds (comms (rl_comm st')) w e p <->
       edge_holds (comms (rl_comm st)) w e p \/
       (p ∈ addrs /\ is_comm_edge tid sh0 p /\
        w = writer_tid (Shadow.cell sh0 p) /\
        e = writer_eid (Shadow.cell sh0 p))) /\
    (rl_isCommEdge st' = true <->
       rl_isCommEdge st = true \/ exists a, a ∈ addrs /\ is_comm_edge tid sh0 a).
Proof.
  induction addrs as [|a addrs IH]; intros st Hc He Ha; simpl.
  - eexists. split; [done|]. split; [done|]. split; [done|].
    split; [|split].
    + intros p. split; [by left|]. intros [?|[H _]]; [done|].
      by apply elem_of_nil in H.
    + intros w e p. split; [by left|]. intros [?|[H _]]; [done|].
      by apply elem_of_nil in H.
    + split; [by left|]. intros [?|(a & H & _)]; [done|].
      by apply elem_of_nil in H.
  - apply Forall_cons in Ha as [Ha1 Ha2]. unfold classified_byte.
    destruct (comm_edge_byte tid sh0 a) eqn:Hk.
    + apply comm_edge_byte_iff in Hk.
      destruct (addEdge_spec (rl_comm st) (writer_tid (Shadow.cell sh0 a))
                  (writer_eid (Shadow.cell sh0 a)) a He Ha1)
        as (c & Hadd & _ & Hcc & Hh).
      rewrite Hadd. simpl.
      destruct (IH (mkReadLoop (rl_comp st) c
                      (mark_read tid (rl_shadow st) a) true) Hc Hcc Ha2)
        as (st' & Hst' & Hc' & He' & Hr & Hee & Hf).
      simpl in *. exists st'. split; [done|]. split; [done|]. split; [done|].
      split; [|split].
      * intros p. rewrite Hr. split.
        -- intros [?|[Hp Hn]]; [by left|]. right. split; [|done].
           apply elem_of_cons. by right.
        -- intros [?|[[->|Hp]%elem_of_cons Hn]]; [by left|done|].
           right. done.
      * intros w e p. rewrite Hee, Hh. split.
        -- intros [[?|(-> & -> & ->)]|(Hp & ?)]; [by left| |].
           ++ right. split; [apply elem_of_cons; by left|done].
           ++ right. split; [apply elem_of_cons; by right|done].
        -- intros [?|([->|Hp]%elem_of_cons & Hn & -> & ->)];
             [by left; left|by left; right|by right].
      * rewrite Hf. split; [|by intros; left]. intros _. right. exists a.
        split; [apply elem_of_cons; by left|done].
    + apply comm_edge_byte_false in Hk.
      destruct (updateReads_one (rl_comp st) a Hc Ha1) as (c & Hupd & Hcc & Hh).
      rewrite Hupd. simpl.
      destruct (IH (mkReadLoop c (rl_comm st)
                      (mark_read tid (rl_shadow st) a) (rl_isCommEdge st))
                  Hcc He Ha2)
        as (st' & Hst' & Hc' & He' & Hr & Hee & Hf).
      simpl in *. exists st'. split; [done|]. split; [done|]. split; [done|].
      split; [|split].
      * intros p. rewrite Hr, Hh. split.
        -- intros [[?| ->]|[Hp Hn]]; [by left| |].
           ++ right. split; [apply elem_of_cons; by left|done].
           ++ right. split; [apply elem_of_cons; by right|done].
        -- intros [?|[[->|Hp]%elem_of_cons Hn]];
             [by left; left|by left; right|by right].
      * intros w e p. rewrite Hee. split.
        -- intros [?|(Hp & ?)]; [by left|]. right.
           split; [apply elem_of_cons; by right|done].
        -- intros [?|([->|Hp]%elem_of_cons & Hn & ?)]; [by left|done|].
           by right.
      * rewrite Hf. split.
        -- intros [?|(b & Hb & ?)]; [by left|]. right. exists b.
           split; [apply elem_of_cons; by right|done].
        -- intros [?|(b & [->|Hb]%elem_of_cons & ?)]; [by left|done|].
           right. by exists b.
Qed.


Lemma byte_addrs_elem start bytes a :
  0 <= start -> start + bytes <= Addr_max ->
  a ∈ byte_addrs start bytes <-> start <= a < start + bytes.
Proof.
  intros Hs Hb. unfold byte_addrs. rewrite list_elem_of_fmap. split.
  - intros (i & -> & Hi). apply elem_of_seq in Hi.
    rewrite wrap_small by lia. lia.
  - intros Ha. exists (Z.to_nat (a - start)). split.
    + rewrite wrap_small by lia. lia.
    + apply elem_of_seq. lia.
Qed.

Lemma byte_addrs_below start bytes :
  0 <= start -> start + bytes <= Addr_max ->
  Forall (fun a => 0 <= a < Addr_max) (byte_addrs start bytes).
Proof.
  intros Hs Hb. apply Forall_forall. intros a Ha.
  apply byte_addrs_elem in Ha; [lia|done|done].
Qed.






Lemma onRead_finish_sets tc st tc' sh' :
  onRead_finish tc st = Ok (tc', sh') ->
  (uniqueReadAddrs (stComp tc') = uniqueReadAddrs (rl_comp st) \/
   uniqueReadAddrs (stComp tc') = []) /\
  (stComm tc' = rl_comm st \/ stComm tc' = CommEvent.reset (rl_comm st)).
Proof.
  unfold onRead_finish. intros H. bind_ok H. bind_ok H. injection H as <- _.
  destruct (rl_isCommEdge st); simpl in E.
  - apply compFlush_cases in E as [[Ha ->]|(Ha & He & ->)];
      apply check_cases in E0 as [[-> Hb]|(Ha' & He' & ->)]; simpl; auto.
  - bind_ok E. injection E as <-.
    apply commFlush_cases in E1 as [[Ha ->]|(Ha & He & ->)];
      apply check_cases in E0 as [[-> Hb]|(Ha' & He' & ->)]; simpl; auto.
Qed.

Lemma step_read_sets_canon tc sh p tc' sh' :
  read_sets_canon tc -> load_below p ->
  step tc sh p = Ok (tc', sh') -> read_sets_canon tc'.
Proof.
  intros [Hc He] Hp H.
  assert (edges_canon []) as Hnil by constructor.
  destruct p; simpl in H, Hp.
  - destruct Hp as [Hs Hb]. unfold onRead in H.
    rewrite (onRead_loop_classified (tid tc) sh) in H; [| | |done].
    2: apply byte_addrs_is_Addr.
    2: apply byte_addrs_NoDup; unfold Addr_max in Hb; lia.
    destruct (classified_loop_spec (tid tc) sh (byte_addrs start bytes)
                (mkReadLoop (stComp tc) (stComm tc) sh false) Hc He
                (byte_addrs_below start bytes Hs Hb))
      as (st & Hst & Hcr & Hce & _).
    rewrite Hst in H. simpl in H.
    apply onRead_finish_sets in H as [[Hr|Hr] [Hm|Hm]];
      split; rewrite ?Hr, ?Hm; simpl; done.
  - unfold onWrite in H. bind_ok H. bind_ok H. injection H as <- _.
    apply updateWrites_fields in E as (_ & _ & _ & _ & _ & E6 & _).
    simpl in *.
    apply check_cases in E0 as [[-> Hb]|(Ha' & He' & ->)]; simpl;
      unfold read_sets_canon; simpl; rewrite ?E6; split; done.
  - bind_ok H. injection H as <- _. unfold onIop in E. bind_ok E.
    injection E as <-.
    apply commFlush_cases in E0 as [[Ha ->]|(Ha & He' & ->)]; unfold read_sets_canon; simpl; split; done.
  - bind_ok H. injection H as <- _. unfold onFlop in E. bind_ok E.
    injection E as <-.
    apply commFlush_cases in E0 as [[Ha ->]|(Ha & He' & ->)];
      unfold read_sets_canon; simpl; split; done.
  - bind_ok H. injection H as <- _. unfold onSync in E. bind_ok E. bind_ok E.
    injection E as <-.
    apply compFlush_cases in E0 as [[Ha ->]|(Ha & He' & ->)];
      apply commFlush_cases in E1 as [[Ha' ->]|(Ha' & He'' & ->)];
      destruct (syncType =? 1); try destruct (syncType =? 5);
      unfold read_sets_canon; simpl; split; done.
  - injection H as <- _. unfold onInstr. simpl.
    by destruct (_ =? 0); unfold read_sets_canon; simpl; split.
  - bind_ok H. injection H as <- _. unfold destroy in E. bind_ok E.
    apply compFlush_cases in E0 as [[Ha ->]|(Ha & He' & ->)];
      apply commFlush_cases in E as [[Ha' ->]|(Ha' & He'' & ->)];
      unfold read_sets_canon; simpl; split; done.
Qed.

(** The hypotheses of the classification of a load hold along every run
    from a fresh context whose loads stay below the last address. *)
Lemma run_read_sets_canon ps : forall tc sh tc' sh',
  read_sets_canon tc -> Forall load_below ps ->
  run tc sh ps = Ok (tc', sh') -> read_sets_canon tc'.
Proof.
  induction ps as [|p ps IH]; intros tc sh tc' sh' Hc Hp H; simpl in H.
  - by injection H as <- _.
  - apply Forall_cons in Hp as [Hp1 Hp2]. bind_ok H. destruct a as [tc1 sh1].
    eapply IH; [|done|exact H].
    eapply step_read_sets_canon; [done|exact Hp1|exact E].
Qed.

Lemma fresh_read_sets_canon t prims : read_sets_canon (fresh t prims).
Proof. split; [done|constructor]. Qed.

End WithPolicy.
End ReadSpec.

(** ** The claims *)

Module Claims.
Import TCxt AddrSet AddrSetFacts ReadFacts FlushFacts StoreFacts.
Import CaseFacts EdgeFacts ReadSpec.



(** C2.  At the last address the merge of [AddrSet::insert] loses
    addresses: [second + 1] wraps to [0], a range that ends at the last
    address is taken to touch a range that starts at [0], and the fused
    range drops what lies between.  After [(0,3)] and [(2, max)] the set is
    [(2,3)]: the addresses [0], [1] and [4 .. max] are gone.  After
    [(5, max)] and [(0,0)] the recursive call receives the range [(5,0)]
    and the assertion [first <= second] of [insert] itself fails. *)
Theorem C2_insert_loses_addresses_at_last_address :
  insert_all [] [(0, 3); (2, Addr_max)] = Ok [(2, 3)] /\
  union_of [(0, 3); (2, Addr_max)] 0 /\
  (holds [(2, 3)] 0 <-> False) /\
  insert_all [] [(5, Addr_max); (0, 0)] = Fatal AssertionFailed.
Proof.
  split; [by vm_compute|]. split; [|split; [|by vm_compute]].
  - apply Exists_cons. left. unfold covers. simpl. lia.
  - split; [|done]. intros H. apply Exists_cons in H as [H|H].
    + unfold covers in H. simpl in H. lia.
    + by apply Exists_nil in H.
Qed.

(** C3 (as stated) fails twice.  A store does not flush the communication
    aggregator: after a communication load and a store both aggregators are
    active (shown on the ThreadContext and through the dispatcher).  And a
    sync record is emitted when both aggregators have been flushed, so
    neither is active at that emit. *)
Lemma C3_counterexample :
  (exists tc sh,
     run (fresh 2 100) shadow_T1_4000 [Load 0x4000 1; Store 0x5000 1]
       = Ok (tc, sh) /\
     reachable tc /\
     isActive (stComp tc) = true /\ commActive (stComm tc) = true) /\
  (fun tc => (isActive (stComp tc), commActive (stComm tc))) <$>
    EH.tcxt_of 2
      (EH.run (EH.init (-1)) EH.init_globals
         [EH.swap 1; EH.store 0x4000 1; EH.swap 2; EH.load 0x4000 1;
          EH.store 0x5000 1]) = Some (true, true) /\
  (exists tc,
     onSync (fresh 2 100) 1 0x7000 = Ok tc /\
     logger tc = [FlushSync 1 0x7000 0 2] /\
     isActive (stComp tc) = false /\ commActive (stComm tc) = false).
Proof.
  assert (reachable (fresh 2 100)) as Hr by (by apply (reach_create 2 100)).
  split; [|split; [by vm_compute|]].
  - destruct (run (fresh 2 100) shadow_T1_4000 [Load 0x4000 1; Store 0x5000 1])
      as [[tc sh]|e] eqn:Hrun; [|by vm_compute in Hrun].
    exists tc, sh. split; [done|].
    split; [by apply (run_reachable _ _ _ _ _ Hr Hrun)|].
    vm_compute in Hrun. by injection Hrun as <- _.
  - eexists. split; [by vm_compute|]. done.
Qed.

(** C3 (amended).  After a load, an IOP or a FLOP at most one of the two
    aggregators is active, whatever the state before.  A sync, and the
    flush at swap-out or destruction, leave both inactive, so a sync record
    is emitted with neither active.  An instruction leaves both flags as
    they are.  Every compute or communication record in the log was handed
    over by its own aggregator while that aggregator was active.  (Stores
    are left out.) *)
Theorem C3_exclusion_after_load_iop_flop_sync `{policy : ShadowPolicy}
    tc sh p tc' sh' :
  reachable tc -> step tc sh p = Ok (tc', sh') ->
  match p with
  | Load _ _ | Iop | Flop =>
      isActive (stComp tc') && commActive (stComm tc') = false
  | Sync _ _ | FlushBoth =>
      isActive (stComp tc') = false /\ commActive (stComm tc') = false
  | Instr =>
      isActive (stComp tc') = isActive (stComp tc) /\
      commActive (stComm tc') = commActive (stComm tc)
  | Store _ _ => True
  end /\
  Forall from_active (logger tc').
Proof.
  intros Hr Hstep. split.
  - destruct p; simpl in Hstep.
    + by apply onRead_Ok in Hstep as (_ & _ & ?).
    + done.
    + bind_ok Hstep. injection Hstep as <- _.
      apply onIop_Ok in E as (_ & _ & ->). by rewrite andb_false_r.
    + bind_ok Hstep. injection Hstep as <- _.
      apply onFlop_Ok in E as (_ & _ & ->). by rewrite andb_false_r.
    + bind_ok Hstep. injection Hstep as <- _.
      by apply onSync_Ok in E as (_ & ? & ? & _).
    + injection Hstep as <- _. unfold onInstr. by destruct (_ =? _).
    + bind_ok Hstep. injection Hstep as <- _.
      by apply destroy_Ok in E as (_ & ? & ?).
  - apply (reachable_inv tc'). by eapply reach_step.
Qed.

Lemma C3_witness :
  reachable (fresh 2 100) /\
  exists tc sh,
    step (fresh 2 100) shadow_T1_4000 (Load 0x4000 1) = Ok (tc, sh) /\
    isActive (stComp tc) && commActive (stComm tc) = false /\
    Forall from_active (logger tc).
Proof.
  assert (reachable (fresh 2 100)) as Hr by (by apply (reach_create 2 100)).
  split; [exact Hr|].
  destruct (step (fresh 2 100) shadow_T1_4000 (Load 0x4000 1))
    as [[tc sh]|e] eqn:Hstep; [|by vm_compute in Hstep].
  exists tc, sh. split; [done|].
  exact (C3_exclusion_after_load_iop_flop_sync (fresh 2 100) shadow_T1_4000
           (Load 0x4000 1) tc sh Hr Hstep).
Defined.

(** C4 (as stated) fails twice.  The counter starts at [0]: the first
    record of a thread carries the event id [0] (in the second end-to-end
    scenario of the specification, thread 2 logs its communication record
    under the event id [0], with the producer's event id [0]).  And a sync
    record does not bump the counter: the sync record and the compute
    record that follows it carry the same event id. *)
Lemma C4_counterexample :
  create 1 100 = Ok (fresh 1 100) /\
  (exists tc sh,
     run (fresh 1 100) ∅ [Iop; FlushBoth] = Ok (tc, sh) /\
     agg_eids (logger tc) = [0]) /\
  EH.log_of 2
    (EH.run (EH.init (-1)) EH.init_globals
       [EH.swap 1; EH.store 0x2000 1; EH.swap 2; EH.load 0x2000 1;
        EH.swap 1]) =
    Some [FlushComm (mkSTCommEvent [(1, 0, [(0x2000, 0x2000)])] true) 0 2] /\
  (exists tc sh ev,
     run (fresh 1 100) ∅ [Sync 1 0x7000; Iop; Sync 2 0x7000] = Ok (tc, sh) /\
     logger tc = [FlushSync 1 0x7000 0 1; FlushComp ev 0 1;
                  FlushSync 2 0x7000 1 1]).
Proof.
  split; [done|]. split; [|split; [by vm_compute|]].
  - eexists _, _. split; by vm_compute.
  - eexists _, _, _. split; [by vm_compute|]. done.
Qed.

(** C4 (amended).  For every thread, the counter starts at [0] and is
    bumped exactly once by each flush of an active aggregator (a flush of an
    inactive one changes nothing); the event ids of the compute and
    communication records emitted so far are [0, 1, ..., events - 1] in this
    order, without repeat or gap; and a flush of an active aggregator when
    the counter holds its last value is fatal.  (Sync records are left
    out.) *)
Theorem C4_eids_contiguous_from_zero `{policy : ShadowPolicy} tc :
  reachable tc ->
  agg_eids (logger tc) = Z.of_nat <$> seq 0 (Z.to_nat (events tc)) /\
  0 <= events tc <= StatCounter_max /\
  (forall tc', compFlushIfActive tc = Ok tc' ->
     events tc' = events tc + (if isActive (stComp tc) then 1 else 0)) /\
  (forall tc', commFlushIfActive tc = Ok tc' ->
     events tc' = events tc + (if commActive (stComm tc) then 1 else 0)) /\
  (events tc = StatCounter_max ->
     (isActive (stComp tc) = true ->
        compFlushIfActive tc = Fatal EidOverflow) /\
     (commActive (stComm tc) = true ->
        commFlushIfActive tc = Fatal EidOverflow)).
Proof.
  intros Hr. destruct (reachable_inv tc Hr) as [[Hids Hb] _].
  split; [done|]. split; [done|]. split; [|split].
  - intros tc'. destruct (isActive (stComp tc)) eqn:Hact.
    + rewrite compFlushIfActive_active by done.
      destruct (_ =? _); [done|]. by intros [= <-].
    + rewrite compFlushIfActive_inactive by done. intros [= <-]. lia.
  - intros tc'. destruct (commActive (stComm tc)) eqn:Hact.
    + rewrite commFlushIfActive_active by done.
      destruct (_ =? _); [done|]. by intros [= <-].
    + rewrite commFlushIfActive_inactive by done. intros [= <-]. lia.
  - intros He. split; intros Hact.
    + rewrite compFlushIfActive_active by done. by rewrite He, Z.eqb_refl.
    + rewrite commFlushIfActive_active by done. by rewrite He, Z.eqb_refl.
Qed.

Lemma C4_witness :
  exists tc sh,
    run (fresh 1 100) ∅ [Iop; Sync 1 0x7000; Iop; FlushBoth] = Ok (tc, sh) /\
    reachable tc /\ events tc = 2 /\
    agg_eids (logger tc) = Z.of_nat <$> seq 0 (Z.to_nat (events tc)).
Proof.
  destruct (run (fresh 1 100) ∅ [Iop; Sync 1 0x7000; Iop; FlushBoth])
    as [[tc sh]|e] eqn:Hrun; [|by vm_compute in Hrun].
  assert (reachable tc) as Hr.
  { eapply run_reachable; [|exact Hrun]. by apply (reach_create 1 100). }
  exists tc, sh. split; [reflexivity|]. split; [exact Hr|]. split.
  - vm_compute in Hrun. by injection Hrun as <- _.
  - exact (proj1 (C4_eids_contiguous_from_zero tc Hr)).
Defined.

(** C5.  The assertion that closes the compression check never fails: the
    check either ends with the compute aggregator inactive or with both
    counters strictly below [primsPerStCompEv] (its only other outcome is
    the fatal event-id overflow); so the same holds after every load and
    every store.  With [primsPerStCompEv = 3], four consecutive stores on a
    fresh context, followed by the final flush, emit exactly two compute
    records, the first with three writes, the second with one: this is what
    the log holds whenever the five steps are processed, and they are
    processed whenever every store has at least one byte and stays clear of
    the last address (disjoint or not). *)
Theorem C5_compression_cap `{policy : ShadowPolicy}
    t sh s1 n1 s2 n2 s3 n3 s4 n4 :
  t <= 128 ->
  (forall tc,
     match checkCompFlushLimit tc with
     | Ok tc' => below_cap tc'
     | Fatal e => e = EidOverflow
     end) /\
  (forall tc sh0 start bytes tc' sh',
     onRead tc sh0 start bytes = Ok (tc', sh') \/
     onWrite tc sh0 start bytes = Ok (tc', sh') -> below_cap tc') /\
  create t 3 = Ok (fresh t 3) /\
  (forall tc sh',
     run (fresh t 3) sh
       [Store s1 n1; Store s2 n2; Store s3 n3; Store s4 n4; FlushBoth]
       = Ok (tc, sh') ->
     exists ev1 ev2,
       logger tc = [FlushComp ev1 0 t; FlushComp ev2 1 t] /\
       writes ev1 = 3 /\ reads ev1 = 0 /\ writes ev2 = 1 /\ reads ev2 = 0) /\
  (store_ok s1 n1 -> store_ok s2 n2 -> store_ok s3 n3 -> store_ok s4 n4 ->
   is_Ok (run (fresh t 3) sh
            [Store s1 n1; Store s2 n2; Store s3 n3; Store s4 n4; FlushBoth])
     = true).
Proof.
  intros Ht. split; [|split; [|split]].
  - intros tc. pose proof (checkCompFlushLimit_spec tc) as Hs.
    destruct (checkCompFlushLimit tc); tauto.
  - intros tc sh0 start bytes tc' sh' [H|H].
    + by apply onRead_Ok in H as (_ & ? & _).
    + by apply onWrite_Ok in H as (_ & ?).
  - unfold create, assert_. by assert ((t <=? 128) = true) as -> by lia.
  - assert (forall tc sh',
              run (fresh t 3) sh
                [Store s1 n1; Store s2 n2; Store s3 n3; Store s4 n4]
                = Ok (tc, sh') ->
              exists ev1, logger tc = [FlushComp ev1 0 t] /\
                writes ev1 = 3 /\ reads ev1 = 0 /\
                writes (stComp tc) = 1 /\ reads (stComp tc) = 0 /\
                isActive (stComp tc) = true /\ events tc = 1 /\ tid tc = t /\
                commActive (stComm tc) = false) as Hfour.
    { intros tc sh' Hrun. simpl in Hrun.
      bind_ok Hrun. destruct a as [tc1 sh1].
      bind_ok Hrun. destruct a as [tc2 sh2].
      bind_ok Hrun. destruct a as [tc3 sh3].
      bind_ok Hrun. destruct a as [tc4 sh4]. injection Hrun as <- _.
      simpl in E0, E1, E2.
      apply (onWrite_below _ _ _ _ 0) in E
        as (Hw1 & Hr1 & Ha1 & Hl1 & He1 & Ht1 & Hp1 & Hm1);
        [|done|lia|simpl; lia|simpl; lia|simpl; lia].
      apply (onWrite_below _ _ _ _ 1) in E0
        as (Hw2 & Hr2 & Ha2 & Hl2 & He2 & Ht2 & Hp2 & Hm2);
        [|done|lia|rewrite Hp1; simpl; lia|rewrite Hp1; simpl; lia
         |rewrite Hp1, Hr1; simpl; lia].
      apply (onWrite_reaches_cap _ _ _ _ 2) in E1
        as (ev1 & Hl3 & Hev1w & Hev1r & Hw3 & Hr3 & Ha3 & He3 & Ht3 & Hp3 & Hm3);
        [|done|lia|rewrite Hp2, Hp1; simpl; lia|lia].
      apply (onWrite_below _ _ _ _ 0) in E2
        as (Hw4 & Hr4 & Ha4 & Hl4 & He4 & Ht4 & Hp4 & Hm4);
        [|done|lia|rewrite Hp3, Hp2, Hp1; simpl; lia
         |rewrite Hp3, Hp2, Hp1; simpl; lia
         |rewrite Hp3, Hp2, Hp1, Hr3; simpl; lia].
      exists ev1. simpl.
      rewrite Hl4, Hl3, Hl2, Hl1, He2, He1, Ht2, Ht1, Hev1r, Hr2, Hr1, Hr4,
        Hr3, He4, He3, He2, He1, Ht4, Ht3, Ht2, Ht1, Hm4, Hm3, Hm2, Hm1.
      done. }
    split.
    + intros tc sh' Hrun.
      change [Store s1 n1; Store s2 n2; Store s3 n3; Store s4 n4; FlushBoth]
        with ([Store s1 n1; Store s2 n2; Store s3 n3; Store s4 n4]
              ++ [FlushBoth]) in Hrun.
      rewrite run_app in Hrun. bind_ok Hrun. destruct a as [tc4 sh4].
      destruct (Hfour tc4 sh4 eq_refl)
        as (ev1 & Hl & Hw1 & Hr1 & Hw & Hr & Ha & He & Htid & Hm).
      simpl in Hrun. bind_ok Hrun. injection Hrun as <- _.
      unfold destroy in E0. rewrite compFlushIfActive_active in E0 by done.
      rewrite He in E0. simpl in E0.
      rewrite commFlushIfActive_inactive in E0 by done. injection E0 as <-.
      exists ev1, (stComp tc4). simpl. rewrite Hl, Htid. done.
    + intros H1 H2 H3 H4.
      destruct (onWrite_completes (fresh t 3) sh s1 n1) as (tc1 & sh1 & E1 & C1);
        [done..|].
      pose proof E1 as F1. apply (onWrite_below _ _ _ _ 0) in F1
        as (Hw1 & Hr1 & Ha1 & Hl1 & He1 & Ht1 & Hp1 & Hm1);
        [|done|lia|simpl; lia|simpl; lia|simpl; lia].
      destruct (onWrite_completes tc1 sh1 s2 n2) as (tc2 & sh2 & E2 & C2);
        [done|done|by rewrite He1|].
      pose proof E2 as F2. apply (onWrite_below _ _ _ _ 1) in F2
        as (Hw2 & Hr2 & Ha2 & Hl2 & He2 & Ht2 & Hp2 & Hm2);
        [|done|lia|rewrite Hp1; simpl; lia|rewrite Hp1; simpl; lia
         |rewrite Hp1, Hr1; simpl; lia].
      destruct (onWrite_completes tc2 sh2 s3 n3) as (tc3 & sh3 & E3 & C3);
        [done|done|by rewrite He2, He1|].
      pose proof E3 as F3. apply (onWrite_reaches_cap _ _ _ _ 2) in F3
        as (ev1 & Hl3 & Hev1w & Hev1r & Hw3 & Hr3 & Ha3 & He3 & Ht3 & Hp3 & Hm3);
        [|done|lia|rewrite Hp2, Hp1; simpl; lia|lia].
      destruct (onWrite_completes tc3 sh3 s4 n4) as (tc4 & sh4 & E4 & C4);
        [done|done|by rewrite He3, He2, He1|].
      pose proof E4 as F4. apply (onWrite_below _ _ _ _ 0) in F4
        as (Hw4 & Hr4 & Ha4 & Hl4 & He4 & Ht4 & Hp4 & Hm4);
        [|done|lia|rewrite Hp3, Hp2, Hp1; simpl; lia
         |rewrite Hp3, Hp2, Hp1; simpl; lia
         |rewrite Hp3, Hp2, Hp1, Hr3; simpl; lia].
      simpl. rewrite E1. simpl. rewrite E2. simpl. rewrite E3. simpl.
      rewrite E4. simpl. unfold destroy.
      rewrite compFlushIfActive_active by done.
      assert (events tc4 = 1) as -> by (by rewrite He4, He3, He2, He1).
      simpl. rewrite commFlushIfActive_inactive; [done|].
      simpl. by rewrite Hm4, Hm3, Hm2, Hm1.
Qed.

Lemma C5_witness :
  1 <= 128 /\
  exists tc sh' ev1 ev2,
    run (fresh 1 3) ∅
      [Store 0x1000 4; Store 0x2000 4; Store 0x3000 4; Store 0x4000 4;
       FlushBoth] = Ok (tc, sh') /\
    logger tc = [FlushComp ev1 0 1; FlushComp ev2 1 1] /\
    writes ev1 = 3 /\ reads ev1 = 0 /\ writes ev2 = 1 /\ reads ev2 = 0.
Proof.
  split; [lia|].
  destruct (run (fresh 1 3) ∅
              [Store 0x1000 4; Store 0x2000 4; Store 0x3000 4; Store 0x4000 4;
               FlushBoth]) as [[tc sh']|e] eqn:Hrun; [|by vm_compute in Hrun].
  destruct (proj1 (proj2 (proj2 (proj2
              (C5_compression_cap 1 ∅ 0x1000 4 0x2000 4 0x3000 4 0x4000 4
                 ltac:(lia))))) tc sh' Hrun) as (ev1 & ev2 & H).
  exists tc, sh', ev1, ev2. split; [reflexivity|exact H].
Defined.

(** C6.  The packed-binary encoder fills the read-address ranges of a
    compute record from the write-address set: for a compute event whose
    only content is one local read at [0x3000], the record carries no read
    range at all, although the aggregator holds [(0x3000, 0x3000)]. *)
Theorem C6_capn_read_ranges_come_from_write_set :
  (forall ev,
     Capn.comp_orphan ev =
       CapnComp (iops ev) (flops ev) (reads ev) (writes ev)
         (uniqueWriteAddrs ev) (uniqueWriteAddrs ev)) /\
  exists tc sh ev,
    run (fresh 1 100) ∅ [Load 0x3000 1; FlushBoth] = Ok (tc, sh) /\
    logger tc = [FlushComp ev 0 1] /\
    uniqueReadAddrs ev = [(0x3000, 0x3000)] /\
    Capn.call Capn.init (FlushComp ev 0 1) =
      Ok (mkCapnLogger [CapnComp 0 0 1 0 [] []] 1 []).
Proof.
  split; [done|]. eexists _, _, _. split; [by vm_compute|].
  split; [done|]. split; [done|]. by vm_compute.
Qed.

(** C7 (as stated) fails: a sync primitive with a code that has no case is
    not fatal; the dispatcher returns normally and nothing has changed. *)
Lemma C7_counterexample :
  EH.onSyncEv eh_T1 globals_T1 (mkSglSyncEv (SGLPRIM_SYNC_other 99) 0x7000)
    = Ok (eh_T1, globals_T1).
Proof. done. Qed.

(** C7 (amended).  A sync primitive whose code is none of the ten
    recognized kinds and not the swap value is silently ignored: the
    dispatcher returns normally, with every ThreadContext, the shared lists
    and the shadow memory unchanged, and no record emitted. *)
Theorem C7_unknown_sync_code_is_ignored eh g code id :
  EH.onSyncEv eh g (mkSglSyncEv (SGLPRIM_SYNC_other code) id) = Ok (eh, g).
Proof. done. Qed.

(** C8.  A load of two bytes whose first byte is a communication edge and
    whose second byte is local: the read counter stays at [0] and the edge
    is emitted as a communication record, but the read range of the local
    byte stays in the compute aggregator and is emitted with the next
    compute record (here the one of the IOP that follows); when the compute
    aggregator is active at the load, the range leaves with the compute
    record that the load itself flushes.  The last part is the first
    scenario through the dispatcher: thread 1 stores, thread 2 loads and
    computes, and is swapped out. *)
Theorem C8_local_bytes_of_mixed_load_reach_compute_record :
  (exists tc sh ev,
     run (fresh 2 100) shadow_T1_4000 [Load 0x4000 2; Iop; FlushBoth]
       = Ok (tc, sh) /\
     logger tc =
       [FlushComm (mkSTCommEvent [(1, 0, [(0x4000, 0x4000)])] true) 0 2;
        FlushComp ev 1 2] /\
     reads ev = 0 /\ uniqueReadAddrs ev = [(0x4001, 0x4001)]) /\
  (exists tc sh ev,
     run (fresh 2 100) shadow_T1_4000 [Iop; Load 0x4000 2] = Ok (tc, sh) /\
     logger tc = [FlushComp ev 0 2] /\
     reads ev = 0 /\ uniqueReadAddrs ev = [(0x4001, 0x4001)]) /\
  EH.log_of 2
    (EH.run (EH.init (-1)) EH.init_globals
       [EH.swap 1; EH.store 0x4000 1; EH.swap 2; EH.load 0x4000 2; EH.iop;
        EH.swap 1]) =
    Some [FlushComm (mkSTCommEvent [(1, 0, [(0x4000, 0x4000)])] true) 0 2;
          FlushComp (mkSTCompEvent 1 0 0 0 1 [] [(0x4001, 0x4001)] true) 1 2].
Proof.
  split; [|split; [|by vm_compute]];
    eexists _, _, _; (split; [by vm_compute|]); done.
Qed.




(** C10.  A swap to the thread that is already current changes nothing.
    Under the assertions of [onSwapTCxt] itself (the thread id is positive
    and the dispatcher has a current ThreadContext) the dispatcher returns
    with every ThreadContext, the thread-order list and the other shared
    state exactly as they were: no context created, nothing appended,
    nothing flushed, no event id bumped, no record emitted.  And whatever
    the state, such a swap never returns with anything changed. *)
Theorem C10_swap_to_current_thread_is_a_no_op eh g newTID :
  newTID = currentTID eh ->
  (0 < newTID -> is_Some (cachedTCxt eh) ->
   EH.onSyncEv eh g (mkSglSyncEv SGLPRIM_SYNC_SWAP newTID) = Ok (eh, g)) /\
  (forall r,
     EH.onSyncEv eh g (mkSglSyncEv SGLPRIM_SYNC_SWAP newTID) = Ok r ->
     r = (eh, g)).
Proof.
  intros ->. unfold EH.onSyncEv, EH.onSwapTCxt, assert_.
  cbn [sync_type sync_id].
  rewrite bool_decide_eq_false_2 by (intros H; by apply H).
  assert (EH.set_currentTID (currentTID eh) eh = eh) as Heta by (by destruct eh).
  split.
  - intros Hpos Hc.
    assert ((currentTID eh >? 0) = true) as -> by lia.
    assert ((currentTID eh =? 0) = false) as -> by lia.
    cbn [mbind result_bind fst snd negb]. rewrite Heta.
    by rewrite bool_decide_eq_true_2.
  - intros r. destruct (currentTID eh >? 0); [|done].
    cbn [mbind result_bind fst snd]. rewrite Heta.
    destruct (negb _); [|done]. cbn [mbind result_bind].
    destruct (bool_decide _); [|done]. cbn [mbind result_bind].
    by intros [= <-].
Qed.

Lemma C10_witness :
  (1 = currentTID eh_T1 /\ 0 < 1 /\ is_Some (cachedTCxt eh_T1)) /\
  EH.onSyncEv eh_T1 globals_T1 (mkSglSyncEv SGLPRIM_SYNC_SWAP 1)
    = Ok (eh_T1, globals_T1).
Proof.
  assert (is_Some (cachedTCxt eh_T1)) as Hc by (by eexists).
  split; [split; [done|split; [lia|exact Hc]]|].
  exact (proj1 (C10_swap_to_current_thread_is_a_no_op eh_T1 globals_T1 1
                  eq_refl) ltac:(lia) Hc).
Defined.
End Claims.

(** * Further properties *)

(** ** The range set *)

Module AddrSetLaws.
Import AddrSet AddrSetFacts OrderFacts.

Lemma ms_insert_length x l : length (ms_insert x l) = S (length l).
Proof.
  induction l as [|y l IHl]; [done|]. simpl.
  destruct (pair_ltb x y); simpl; by rewrite ?IHl.
Qed.

Lemma insert_rec_length fuel : forall ms r ms',
  insert_rec fuel ms r = Ok ms' ->
  ms' <> [] /\ (length ms' <= S (length ms))%nat.
Proof.
  induction fuel as [|fuel IH]; intros ms r ms' H; [done|].
  simpl in H. unfold insert_body in H.
  destruct (assert_ _); [|done]. simpl in H.
  assert (forall x l, ms_insert x l <> []) as Hne.
  { intros x l E. apply (f_equal length) in E.
    by rewrite ms_insert_length in E. }
  destruct (empty ms) eqn:He.
  { injection H as <-. rewrite ms_insert_length. split; [apply Hne|lia]. }
  destruct (ms !! _) as [cur|] eqn:Hit; [|done].
  assert (S (length (delete (adjust ms r (lower_bound ms r)) ms)) = length ms)
    as Hdel.
  { rewrite length_delete by (by eexists). apply lookup_lt_Some in Hit. lia. }
  assert (forall r0, insert_rec fuel (delete (adjust ms r (lower_bound ms r)) ms) r0
                     = Ok ms' ->
                     ms' <> [] /\ (length ms' <= S (length ms))%nat) as Hrec.
  { intros r0 H0. apply IH in H0. split; [tauto|lia]. }
  assert (ms <> []) as Hms by (by destruct ms).
  repeat (match type of H with
          | (if ?c then _ else _) = _ => destruct c
          end); eauto;
    try (injection H as <-; rewrite ?ms_insert_length;
         split; [done || apply Hne|lia]).
Qed.

Lemma insert_all_length rs : forall ms ms',
  insert_all ms rs = Ok ms' ->
  (length ms' <= length ms + length rs)%nat /\
  (ms <> [] \/ rs <> [] -> ms' <> []).
Proof.
  induction rs as [|r rs IH]; intros ms ms' H; simpl in H.
  - injection H as <-. split; [lia|]. by intros [?|?].
  - bind_ok H. apply insert_rec_length in E as [Hne Hle].
    apply IH in H as [H1 H2]. simpl. split; [lia|]. intros _.
    apply H2. by left.
Qed.

(** X1.  Below the last address the set that a sequence of [insert] calls
    builds depends only on the addresses inserted, not on how they were
    split into ranges nor on the order of the calls: two sequences of valid
    ranges that cover the same addresses, inserted into the same set, give
    the same list of ranges, which is sorted, holds no range twice, keeps
    its ranges apart and covers the old addresses and the new ones. *)
Theorem X1_insert_all_depends_on_addresses_only ms rs rs' :
  canon ms -> Forall valid rs -> Forall valid rs' ->
  (forall p, union_of rs p <-> union_of rs' p) ->
  exists ms', insert_all ms rs = Ok ms' /\ insert_all ms rs' = Ok ms' /\
    canon ms' /\ sorted ms' /\ NoDup ms' /\
    forall p, holds ms' p <-> holds ms p \/ union_of rs p.
Proof.
  intros Hms Hrs Hrs' Hu.
  destruct (insert_all_spec rs ms Hms Hrs) as (m1 & E1 & C1 & H1).
  destruct (insert_all_spec rs' ms Hms Hrs') as (m2 & E2 & C2 & H2).
  assert (m1 = m2) as <-.
  { apply canon_unique; [done..|]. intros p. rewrite H1, H2, Hu. tauto. }
  exists m1. destruct (canon_sorted m1 C1). done.
Qed.

Lemma X1_witness :
  exists ms', insert_all [(10, 12)] [(0, 3); (4, 9)] = Ok ms' /\
    insert_all [(10, 12)] [(5, 9); (0, 4)] = Ok ms' /\
    canon ms' /\ sorted ms' /\ NoDup ms' /\
    forall p, holds ms' p <-> holds [(10, 12)] p \/ union_of [(0, 3); (4, 9)] p.
Proof.
  apply (X1_insert_all_depends_on_addresses_only
           [(10, 12)] [(0, 3); (4, 9)] [(5, 9); (0, 4)]).
  - simpl. unfold valid, Addr_max, Addr_modulus. simpl. split; [lia|done].
  - repeat constructor; unfold Addr_max, Addr_modulus; simpl; lia.
  - repeat constructor; unfold Addr_max, Addr_modulus; simpl; lia.
  - intros p. unfold union_of, covers.
    rewrite !Exists_cons, !Exists_nil. simpl. lia.
Defined.

(** X2.  Inserting addresses that the set already covers changes nothing:
    for a canonical set and a valid range all of whose addresses are
    held, [insert] returns the very same list. *)
Theorem X2_insert_of_covered_range_is_identity ms r :
  canon ms -> valid r -> (forall p, covers r p -> holds ms p) ->
  insert ms r = Ok ms.
Proof.
  intros Hms Hr Hcov.
  destruct (insert_spec ms r Hms Hr) as (ms' & E & C & H).
  rewrite E. f_equal. apply canon_unique; [done..|].
  intros p. rewrite H. split; [intros [?|?]; auto|auto].
Qed.

Lemma X2_witness :
  insert [(0, 9); (20, 29)] (22, 25) = Ok [(0, 9); (20, 29)].
Proof.
  apply (X2_insert_of_covered_range_is_identity [(0, 9); (20, 29)] (22, 25)).
  - simpl. unfold valid, gap, Addr_max, Addr_modulus. simpl.
    repeat split; try lia; try done; repeat constructor; simpl; lia.
  - unfold valid, Addr_max, Addr_modulus. simpl. lia.
  - intros p Hp. unfold holds, covers in *.
    rewrite !Exists_cons. simpl in *. lia.
Defined.

(** X3.  [insert] never reads through an iterator that points past the
    end and its recursion ends within one call per stored range: whatever
    the stored ranges and the range inserted (canonical or not, at the
    last address or not), the only way an [insert] does not return is its
    own assertion [first <= second]. *)
Theorem X3_insert_fails_only_by_its_assertion ms r :
  match insert ms r with
  | Ok ms' => True
  | Fatal e => e = AssertionFailed
  end.
Proof.
  pose proof (insert_total ms r) as Hns.
  unfold insert in *.
  assert (forall fuel ms r e,
            insert_rec fuel ms r = Fatal e -> e <> ModelStuck ->
            e = AssertionFailed) as Hgen.
  { clear. induction fuel as [|fuel IH]; intros ms r e H Hne; simpl in H.
    - by injection H as <-.
    - unfold insert_body, assert_ in H.
      destruct (r.1 <=? r.2); simpl in H; [|by injection H as <-].
      destruct (empty ms); [done|].
      destruct (ms !! _); [|by injection H as <-].
      repeat (match type of H with
              | (if ?c then _ else _) = _ => destruct c
              end); try done; by eapply IH. }
  destruct (insert_rec _ ms r) as [ms'|e] eqn:E; [done|].
  eapply Hgen; [done|]. intros ->. by apply Hns.
Qed.

(** X4.  One [insert] never leaves the set empty and adds at most one
    range to it; hence after any sequence of inserts the set holds no more
    ranges than it held before plus the number of calls. *)
Theorem X4_insert_adds_at_most_one_range ms rs ms' :
  insert_all ms rs = Ok ms' ->
  (length ms' <= length ms + length rs)%nat /\
  (rs <> [] -> ms' <> []).
Proof.
  intros H. apply insert_all_length in H as [H1 H2]. split; [done|].
  intros ?. apply H2. by right.
Qed.

Lemma X4_witness :
  (length [(0, 9)] <= length [(4, 5)] + length [(0, 3); (6, 9)])%nat /\
  ([(0, 3); (6, 9)] <> [] -> [(0, 9)] <> []).
Proof.
  apply (X4_insert_adds_at_most_one_range [(4, 5)] [(0, 3); (6, 9)] [(0, 9)]).
  by vm_compute.
Defined.

End AddrSetLaws.

(** ** Invariants of a ThreadContext *)

Module AggFacts.
Import TCxt FlushFacts CaseFacts.




Lemma total_app f l1 l2 : Log.total f (l1 ++ l2) = Log.total f l1 + Log.total f l2.
Proof.
  unfold Log.total, Log.comp_records. rewrite omap_app, fmap_app, foldr_app.
  generalize (foldr Z.add 0 (f <$> omap (fun c => match c with FlushComp ev _ _ => Some ev | _ => None end) l2)).
  induction (f <$> _) as [|x l IH]; intros z; simpl; [lia|]. rewrite IH. lia.
Qed.



Lemma comp_records_snoc l c :
  Log.comp_records (l ++ [c]) =
  Log.comp_records l ++ match c with FlushComp ev _ _ => [ev] | _ => [] end.
Proof. unfold Log.comp_records. rewrite omap_app. by destruct c. Qed.

Lemma comm_records_snoc l c :
  Log.comm_records (l ++ [c]) =
  Log.comm_records l ++ match c with FlushComm ev _ _ => [ev] | _ => [] end.
Proof. unfold Log.comm_records. rewrite omap_app. by destruct c. Qed.

Lemma marker_records_snoc l c :
  Log.marker_records (l ++ [c]) =
  Log.marker_records l ++ match c with InstrMarker n => [n] | _ => [] end.
Proof. unfold Log.marker_records. rewrite omap_app. by destruct c. Qed.

Lemma total_snoc f l c :
  Log.total f (l ++ [c]) =
  Log.total f l + match c with FlushComp ev _ _ => f ev | _ => 0 end.
Proof. rewrite total_app. unfold Log.total. destruct c; simpl; lia. Qed.

Lemma mass_incr t x :
  (t + incr x) mod (StatCounter_max + 1) = incr ((t + x) mod (StatCounter_max + 1)).
Proof.
  unfold incr. rewrite Zplus_mod_idemp_r, Zplus_mod_idemp_l. f_equal. lia.
Qed.

Ltac inv_simp :=
  unfold tc_inv, mass, log in *; simpl in *;
  rewrite ?comp_records_snoc, ?comm_records_snoc, ?total_snoc, ?app_nil_r,
    ?Forall_app, ?Z.add_0_r in *; simpl in *.

Lemma comm_ok_reset ev : comm_ok (CommEvent.reset ev).
Proof. split; [done|]. simpl. constructor. Qed.

Ltac inv_solve :=
  repeat match goal with
  | |- _ /\ _ => split
  | |- Forall _ [_] => apply Forall_singleton
  | |- comm_ok (CommEvent.reset _) => apply comm_ok_reset
  | |- comp_record_ok _ _ => unfold comp_record_ok
  end; rewrite ?Z.add_0_r; try done; try lia; try (intros ?; done).



Lemma onIop_inv tc tc' : tc_inv tc -> onIop tc = Ok tc' -> tc_inv tc'.
Proof.
  unfold onIop. intros I H. bind_ok H. injection H as <-.
  destruct I as (Hp & Hr & Hw & Hrec & Hi & Hf & Hwr & Hc & Hcrec & Hz).
  apply commFlush_cases in E as [[Ha ->]|(Ha & He & ->)]; inv_simp;
    rewrite mass_incr, Hi; inv_solve.
Qed.

Lemma onFlop_inv tc tc' : tc_inv tc -> onFlop tc = Ok tc' -> tc_inv tc'.
Proof.
  unfold onFlop. intros I H. bind_ok H. injection H as <-.
  destruct I as (Hp & Hr & Hw & Hrec & Hi & Hf & Hwr & Hc & Hcrec & Hz).
  apply commFlush_cases in E as [[Ha ->]|(Ha & He & ->)]; inv_simp;
    rewrite mass_incr, Hf; inv_solve.
Qed.


Lemma destroy_inv tc tc' : tc_inv tc -> destroy tc = Ok tc' -> tc_inv tc'.
Proof.
  unfold destroy. intros I H. bind_ok H.
  destruct I as (Hp & Hr & Hw & Hrec & Hi & Hf & Hwr & Hc & Hcrec & Hz).
  apply compFlush_cases in E as [[Ha ->]|(Ha & He & ->)];
    apply commFlush_cases in H as [[Ha' ->]|(Ha' & He' & ->)];
    inv_simp; inv_solve.
Qed.

Lemma onSync_inv tc ty a tc' : tc_inv tc -> onSync tc ty a = Ok tc' -> tc_inv tc'.
Proof.
  unfold onSync. intros I H. bind_ok H. bind_ok H. injection H as <-.
  destruct I as (Hp & Hr & Hw & Hrec & Hi & Hf & Hwr & Hc & Hcrec & Hz).
  apply compFlush_cases in E as [[Ha ->]|(Ha & He & ->)];
    apply commFlush_cases in E0 as [[Ha' ->]|(Ha' & He' & ->)];
    destruct (ty =? 1); try destruct (ty =? 5);
    inv_simp; inv_solve.
Qed.

Lemma onInstr_inv tc : tc_inv tc -> tc_inv (onInstr tc).
Proof.
  unfold onInstr. intros I.
  destruct I as (Hp & Hr & Hw & Hrec & Hi & Hf & Hwr & Hc & Hcrec & Hz).
  simpl. destruct (_ =? 0); inv_simp; inv_solve.
Qed.



Lemma addEdge_loop_keys cs w e a r :
  CommEvent.addEdge_loop cs w e a = Ok r ->
  match r with
  | Some cs' => edge_keys cs' = edge_keys cs /\ (w, e) ∈ edge_keys cs
  | None => (w, e) ∉ edge_keys cs
  end.
Proof.
  revert r. induction cs as [|edge cs IH]; intros r H; simpl in H.
  - injection H as <-. apply not_elem_of_nil.
  - destruct ((edge.1.1 =? w) && (edge.1.2 =? e)) eqn:Hk.
    + bind_ok H. injection H as <-. simpl.
      apply andb_true_iff in Hk as [Hk1 Hk2].
      apply Z.eqb_eq in Hk1, Hk2.
      replace (w, e) with edge.1 by (destruct edge as [[??]?]; simpl in *; congruence).
      split; [by destruct edge as [[??]?]|]. apply elem_of_cons. by left.
    + bind_ok H. injection H as <-. specialize (IH _ eq_refl).
      assert (edge.1 <> (w, e)) as Hne.
      { intros Heq. rewrite Heq in Hk. simpl in Hk.
        rewrite !Z.eqb_refl in Hk. done. }
      destruct a0 as [cs'|]; simpl.
      * destruct IH as [IH1 IH2]. split; [by rewrite IH1|].
        apply elem_of_cons. by right.
      * intros [?|?]%elem_of_cons; [by apply Hne|by apply IH].
Qed.

Lemma addEdge_ok ev w e a ev' :
  CommEvent.addEdge ev w e a = Ok ev' -> comm_ok ev -> comm_ok ev'.
Proof.
  unfold CommEvent.addEdge. intros H [_ Hnd].
  destruct (comms ev) as [|c cs] eqn:Hcs.
  - injection H as <-. split; [done|]. simpl. apply NoDup_singleton.
  - bind_ok H. apply addEdge_loop_keys in E.
    destruct a0 as [cs'|]; injection H as <-; unfold comm_ok;
      cbn [comms commActive].
    + destruct E as [E _]. split; [|by rewrite E].
      split; [|done]. intros _ ->. done.
    + split; [split; [|done]; intros _; by destruct cs|].
      assert (forall l (x : CommEdge),
                edge_keys (l ++ [x]) = edge_keys l ++ [x.1]) as Hk
        by (intros; unfold edge_keys; by rewrite fmap_app).
      rewrite app_comm_cons, Hk. cbn [fst].
      apply NoDup_app. split; [done|]. split; [|apply NoDup_singleton].
      intros x Hx Hx2. apply list_elem_of_singleton in Hx2 as ->. by apply E.
Qed.

Section WithPolicy.
Context `{policy : ShadowPolicy}.

Lemma onRead_byte_fields tid st a st' :
  onRead_byte tid st a = Ok st' ->
  (iops (rl_comp st') = iops (rl_comp st) /\
   flops (rl_comp st') = flops (rl_comp st) /\
   reads (rl_comp st') = reads (rl_comp st) /\
   writes (rl_comp st') = writes (rl_comp st) /\
   total_events (rl_comp st') = total_events (rl_comp st) /\
   uniqueWriteAddrs (rl_comp st') = uniqueWriteAddrs (rl_comp st) /\
   isActive (rl_comp st') = isActive (rl_comp st)) /\
  (comm_ok (rl_comm st) -> comm_ok (rl_comm st')).
Proof.
  unfold onRead_byte, onRead_catch. intros H.
  repeat match type of H with
         | match ?x with Some _ => _ | None => _ end = _ =>
             destruct x eqn:?
         | (if ?c then _ else _) = _ => destruct c eqn:?
         end;
    bind_ok H; injection H as <-; simpl;
    try (apply updateReads_fields in E; split; [tauto|done]).
  all: split; [by repeat split|]; intros ?; by eapply addEdge_ok.
Qed.

Lemma onRead_loop_fields tid addrs : forall st st',
  onRead_loop tid st addrs = Ok st' ->
  (iops (rl_comp st') = iops (rl_comp st) /\
   flops (rl_comp st') = flops (rl_comp st) /\
   reads (rl_comp st') = reads (rl_comp st) /\
   writes (rl_comp st') = writes (rl_comp st) /\
   total_events (rl_comp st') = total_events (rl_comp st) /\
   uniqueWriteAddrs (rl_comp st') = uniqueWriteAddrs (rl_comp st) /\
   isActive (rl_comp st') = isActive (rl_comp st)) /\
  (comm_ok (rl_comm st) -> comm_ok (rl_comm st')).
Proof.
  induction addrs as [|a addrs IH]; intros st st' H; simpl in H.
  - by injection H as <-.
  - bind_ok H. apply onRead_byte_fields in E as [E1 E2].
    apply IH in H as [H1 H2]. split; [|auto].
    destruct E1 as (?&?&?&?&?&?&?), H1 as (?&?&?&?&?&?&?).
    repeat split; congruence.
Qed.

Lemma onRead_inv tc sh start bytes tc' sh' :
  tc_inv tc -> onRead tc sh start bytes = Ok (tc', sh') -> tc_inv tc'.
Proof.
  unfold onRead, onRead_finish. intros I H. bind_ok H.
  apply onRead_loop_fields in E as [(E1 & E2 & E3 & E4 & E5 & E6 & E7) Ec].
  simpl in *.
  destruct I as (Hp & Hr & Hw & Hrec & Hi & Hf & Hwr & Hc & Hcrec & Hz).
  specialize (Ec Hc).
  assert (incr (reads (stComp tc)) = reads (stComp tc) + 1) as Hincr.
  { apply StoreFacts.incr_small. unfold StatCounter_max. lia. }
  bind_ok H. bind_ok H. injection H as <- _.
  destruct (rl_isCommEdge a); simpl in E.
  - apply compFlush_cases in E as [[Ha ->]|(Ha & He & ->)];
      apply check_cases in E0 as [[-> Hb]|(Ha' & He' & ->)]; inv_simp;
      rewrite ?E1, ?E2, ?E3, ?E4, ?E7 in *; inv_solve; try congruence.
  - bind_ok E. injection E as <-.
    apply commFlush_cases in E8 as [[Ha ->]|(Ha & He & ->)];
      apply check_cases in E0 as [[-> Hb]|(Ha' & He' & ->)]; inv_simp;
      rewrite ?E1, ?E2, ?E3, ?E4, ?E7 in *; inv_solve; try congruence;
      simpl; rewrite ?E3, ?E4, ?Hincr; try lia.
Qed.

Lemma onWrite_inv tc sh start bytes tc' sh' :
  tc_inv tc -> onWrite tc sh start bytes = Ok (tc', sh') -> tc_inv tc'.
Proof.
  unfold onWrite. intros I H. bind_ok H. bind_ok H. injection H as <- _.
  destruct I as (Hp & Hr & Hw & Hrec & Hi & Hf & Hwr & Hc & Hcrec & Hz).
  apply updateWrites_fields in E as (E1 & E2 & E3 & E4 & E5 & E6 & E7).
  simpl in *.
  assert (incr (writes (stComp tc)) = writes (stComp tc) + 1) as Hincr.
  { apply StoreFacts.incr_small. unfold StatCounter_max. lia. }
  apply check_cases in E0 as [[-> Hb]|(Ha & He & ->)]; inv_simp;
    rewrite ?E1, ?E2, ?E3, ?E4, ?E7 in *;
    rewrite ?mass_incr, ?Hwr; inv_solve.
Qed.


Lemma step_inv tc sh p tc' sh' :
  tc_inv tc -> step tc sh p = Ok (tc', sh') -> tc_inv tc'.
Proof.
  intros I H. destruct p; simpl in H.
  - by eapply onRead_inv.
  - by eapply onWrite_inv.
  - bind_ok H. injection H as <- _. by eapply onIop_inv.
  - bind_ok H. injection H as <- _. by eapply onFlop_inv.
  - bind_ok H. injection H as <- _. by eapply onSync_inv.
  - injection H as <- _. by apply onInstr_inv.
  - bind_ok H. injection H as <- _. by eapply destroy_inv.
Qed.

Lemma create_inv t prims tc : create t prims = Ok tc -> tc_inv tc.
Proof.
  unfold create, assert_. intros H.
  destruct (t <=? 128); [|done]. simpl in H.
  destruct ((0 <? prims) && (prims <=? 100)) eqn:Hp; [|done].
  simpl in H. injection H as <-.
  apply andb_true_iff in Hp as [Hp1 Hp2].
  unfold tc_inv, mass. simpl. repeat split; try done; try lia; constructor.
Qed.

Lemma reachable_tc_inv tc : reachable tc -> tc_inv tc.
Proof.
  induction 1 as [t prims tc H|tc sh p tc' sh' _ IH H].
  - by eapply create_inv.
  - by eapply step_inv.
Qed.


Lemma stats_eta s :
  mkStats (stat_IOP s) (stat_FLOP s) (stat_READ s) (stat_WRITE s) (stat_INSTR s)
  = s.
Proof. by destruct s. Qed.

Lemma step_stats tc sh p tc' sh' :
  step tc sh p = Ok (tc', sh') ->
  stats tc' = bump p (stats tc) /\
  Log.marker_records (logger tc') =
    Log.marker_records (logger tc) ++
    match p with
    | Instr => if Z.land 4095 (incr (stat_INSTR (stats tc))) =? 0
               then [4096] else []
    | _ => []
    end.
Proof.
  intros H. destruct p; simpl in H.
  - unfold onRead, onRead_finish in H. bind_ok H. bind_ok H. bind_ok H.
    injection H as <- _. simpl.
    assert (stats a0 = stats tc /\
            Log.marker_records (logger a0) = Log.marker_records (logger tc))
      as [Hs Hl].
    { destruct (rl_isCommEdge a); simpl in E0.
      - apply compFlush_cases in E0 as [[Ha ->]|(Ha & He & ->)]; simpl;
          unfold log; simpl; rewrite ?marker_records_snoc, ?app_nil_r; done.
      - bind_ok E0. injection E0 as <-.
        apply commFlush_cases in E2 as [[Ha ->]|(Ha & He & ->)]; simpl;
          unfold log; simpl; rewrite ?marker_records_snoc, ?app_nil_r; done. }
    apply check_cases in E1 as [[-> Hb]|(Ha' & He' & ->)]; simpl;
      unfold log; simpl; rewrite ?marker_records_snoc, ?app_nil_r, Hs, Hl;
      done.
  - unfold onWrite in H. bind_ok H. bind_ok H. injection H as <- _. simpl.
    apply check_cases in E0 as [[-> Hb]|(Ha' & He' & ->)]; simpl;
      unfold log; simpl; rewrite ?marker_records_snoc, ?app_nil_r; done.
  - bind_ok H. injection H as <- _. unfold onIop in E. bind_ok E.
    injection E as <-. simpl.
    apply commFlush_cases in E0 as [[Ha ->]|(Ha & He & ->)]; simpl;
      unfold log; simpl; rewrite ?marker_records_snoc, ?app_nil_r; done.
  - bind_ok H. injection H as <- _. unfold onFlop in E. bind_ok E.
    injection E as <-. simpl.
    apply commFlush_cases in E0 as [[Ha ->]|(Ha & He & ->)]; simpl;
      unfold log; simpl; rewrite ?marker_records_snoc, ?app_nil_r; done.
  - bind_ok H. injection H as <- _. unfold onSync in E. bind_ok E. bind_ok E.
    injection E as <-.
    apply compFlush_cases in E0 as [[Ha ->]|(Ha & He & ->)];
      apply commFlush_cases in E1 as [[Ha' ->]|(Ha' & He' & ->)];
      destruct (syncType =? 1); try destruct (syncType =? 5); simpl;
      unfold log; simpl; rewrite ?marker_records_snoc, ?app_nil_r; done.
  - injection H as <- _. unfold onInstr. simpl.
    change (Z.shiftl 1 12 - 1) with 4095. change (Z.shiftl 1 12) with 4096.
    destruct (_ =? 0); simpl; unfold log; simpl;
      rewrite ?marker_records_snoc, ?app_nil_r; done.
  - bind_ok H. injection H as <- _. unfold destroy in E. bind_ok E.
    apply compFlush_cases in E0 as [[Ha ->]|(Ha & He & ->)];
      apply commFlush_cases in E as [[Ha' ->]|(Ha' & He' & ->)]; simpl;
      unfold log; simpl; rewrite ?marker_records_snoc, ?app_nil_r; done.
Qed.


Lemma run_stat (proj : Stats -> Z) (f : Prim -> bool) :
  (forall p s, proj (bump p s) = if f p then incr (proj s) else proj s) ->
  forall ps tc sh tc' sh',
    0 <= proj (stats tc) <= StatCounter_max ->
    run tc sh ps = Ok (tc', sh') ->
    proj (stats tc') =
      (proj (stats tc) + count_prims f ps) mod (StatCounter_max + 1).
Proof.
  intros Hb. induction ps as [|p ps IH]; intros tc sh tc' sh' Hr H; simpl in H.
  - injection H as <- _. simpl. rewrite Z.add_0_r, Z.mod_small; lia.
  - bind_ok H. destruct a as [tc1 sh1]. simpl in H.
    apply step_stats in E as [Es _].
    assert (0 < StatCounter_max + 1) as HM by (unfold StatCounter_max; lia).
    rewrite (IH _ _ _ _ ltac:(rewrite Es, Hb; destruct (f p); [|done];
               unfold incr; pose proof (Z.mod_pos_bound
                 (proj (stats tc) + 1) _ HM); lia) H).
    rewrite Es, Hb. simpl. destruct (f p); [|done].
    unfold incr. rewrite Zplus_mod_idemp_l. f_equal. lia.
Qed.

Lemma count_prims_nonneg f ps : 0 <= count_prims f ps.
Proof. induction ps as [|p ps IH]; simpl; [done|]. destruct (f p); lia. Qed.

Lemma marker_step n :
  0 <= n ->
  (if Z.land 4095 (incr (n mod (StatCounter_max + 1))) =? 0
   then [4096] else []) =
  replicate (Z.to_nat ((n + 1) / 4096 - n / 4096)) 4096.
Proof.
  intros Hn. unfold incr. rewrite Zplus_mod_idemp_l.
  rewrite Z.land_comm. change 4095 with (Z.ones 12). rewrite Z.land_ones by lia.
  change (2 ^ 12) with 4096.
  replace (((n + 1) mod (StatCounter_max + 1)) mod 4096)
    with ((n + 1) mod 4096)
    by (unfold StatCounter_max; Z.div_mod_to_equations; lia).
  destruct ((n + 1) mod 4096 =? 0) eqn:Hm.
  - replace ((n + 1) / 4096 - n / 4096) with 1; [done|].
    apply Z.eqb_eq in Hm. Z.div_mod_to_equations. lia.
  - replace ((n + 1) / 4096 - n / 4096) with 0; [done|].
    apply Z.eqb_neq in Hm. Z.div_mod_to_equations. lia.
Qed.

Lemma run_markers ps : forall tc sh tc' sh' n,
  0 <= n -> stat_INSTR (stats tc) = n mod (StatCounter_max + 1) ->
  run tc sh ps = Ok (tc', sh') ->
  Log.marker_records (logger tc') =
    Log.marker_records (logger tc) ++
    replicate (Z.to_nat ((n + count_prims is_Instr ps) / 4096 - n / 4096)) 4096.
Proof.
  induction ps as [|p ps IH]; intros tc sh tc' sh' n Hn Hs H; simpl in H.
  - injection H as <- _. simpl. rewrite Z.add_0_r, Z.sub_diag. simpl.
    by rewrite app_nil_r.
  - bind_ok H. destruct a as [tc1 sh1]. simpl in H.
    apply step_stats in E as [Es El].
    pose proof (count_prims_nonneg is_Instr ps) as Hc.
    destruct (is_Instr p) eqn:Hp.
    + destruct p; try done. simpl in Es, El.
      rewrite (IH _ _ _ _ (n + 1) ltac:(lia)
                 ltac:(rewrite Es; simpl; rewrite Hs; unfold incr;
                       by rewrite Zplus_mod_idemp_l) H).
      rewrite El, Hs, marker_step by done. rewrite <- app_assoc. f_equal.
      rewrite <- replicate_add. f_equal. simpl.
      replace (n + (count_prims is_Instr ps + 1))
        with (n + 1 + count_prims is_Instr ps) by lia.
      assert (n / 4096 <= (n + 1) / 4096) by (apply Z.div_le_mono; lia).
      assert ((n + 1) / 4096 <= (n + 1 + count_prims is_Instr ps) / 4096)
        by (apply Z.div_le_mono; lia).
      lia.
    + rewrite (IH _ _ _ _ n Hn
                 ltac:(rewrite Es; destruct p; try done) H).
      simpl. rewrite Hp. f_equal. rewrite El.
      destruct p; try done; by rewrite app_nil_r.
Qed.

End WithPolicy.
End AggFacts.

(** ** Records, statistics and markers of a thread *)

Module ThreadLaws.
Import TCxt FlushFacts CaseFacts AggFacts.

(** X5.  Every compute event that a ThreadContext hands to its logger was
    active and carries at most [primsPerStCompEv] reads and at most
    [primsPerStCompEv] writes; between two primitives the pending compute
    event is strictly below the compression level on both counters. *)
Theorem X5_compute_records_respect_compression_level
    `{policy : ShadowPolicy} tc :
  reachable tc ->
  Forall (comp_record_ok (primsPerStCompEv tc))
    (Log.comp_records (logger tc)) /\
  0 <= reads (stComp tc) < primsPerStCompEv tc /\
  0 <= writes (stComp tc) < primsPerStCompEv tc.
Proof.
  intros H. apply reachable_tc_inv in H.
  destruct H as (Hp & Hr & Hw & Hrec & Hi & Hf & Hwr & Hc & Hcrec & Hz).
  done.
Qed.

Lemma X5_witness :
  exists tc sh,
    run (fresh 1 2) ∅ [Store 0x1000 4; Load 0x1000 4; Store 0x2000 4; Iop]
      = Ok (tc, sh) /\
    Forall (comp_record_ok 2) (Log.comp_records (logger tc)) /\
    0 <= reads (stComp tc) < 2 /\ 0 <= writes (stComp tc) < 2.
Proof.
  destruct (run (fresh 1 2) ∅
              [Store 0x1000 4; Load 0x1000 4; Store 0x2000 4; Iop])
    as [[tc sh]|e] eqn:Hrun; [|by vm_compute in Hrun].
  exists tc, sh. split; [done|].
  assert (reachable tc) as Hr.
  { eapply run_reachable; [|exact Hrun]. by apply (reach_create 1 2). }
  assert (primsPerStCompEv tc = 2) as Hp.
  { vm_compute in Hrun. by injection Hrun as <- _. }
  rewrite <- Hp.
  exact (X5_compute_records_respect_compression_level tc Hr).
Defined.

(** X6.  Nothing counted is lost between the aggregator and the log: for
    IOPs, FLOPs and stores, the sum of the counter over the compute events
    logged so far plus the pending count equals the thread's statistic
    (modulo [2^64], the width of the counters); a compute event that is
    not active has all four counters at zero, so that after a flush the
    logged sums alone equal the statistics. *)
Theorem X6_counts_are_conserved `{policy : ShadowPolicy} tc :
  reachable tc ->
  (Log.total iops (logger tc) + iops (stComp tc)) mod 2 ^ 64
    = stat_IOP (stats tc) /\
  (Log.total flops (logger tc) + flops (stComp tc)) mod 2 ^ 64
    = stat_FLOP (stats tc) /\
  (Log.total writes (logger tc) + writes (stComp tc)) mod 2 ^ 64
    = stat_WRITE (stats tc) /\
  (isActive (stComp tc) = false ->
   iops (stComp tc) = 0 /\ flops (stComp tc) = 0 /\
   reads (stComp tc) = 0 /\ writes (stComp tc) = 0).
Proof.
  intros H. apply reachable_tc_inv in H.
  destruct H as (Hp & Hr & Hw & Hrec & Hi & Hf & Hwr & Hc & Hcrec & Hz).
  done.
Qed.

Lemma X6_witness :
  exists tc sh,
    run (fresh 1 2) ∅
      [Iop; Store 0x1000 4; Iop; Store 0x2000 4; Flop; Store 0x3000 1;
       FlushBoth] = Ok (tc, sh) /\
    Log.total iops (logger tc) mod 2 ^ 64 = 2 /\
    Log.total flops (logger tc) mod 2 ^ 64 = 1 /\
    Log.total writes (logger tc) mod 2 ^ 64 = 3.
Proof.
  destruct (run (fresh 1 2) ∅
              [Iop; Store 0x1000 4; Iop; Store 0x2000 4; Flop; Store 0x3000 1;
               FlushBoth])
    as [[tc sh]|e] eqn:Hrun; [|by vm_compute in Hrun].
  exists tc, sh. split; [done|].
  assert (reachable tc) as Hr.
  { eapply run_reachable; [|exact Hrun]. by apply (reach_create 1 2). }
  destruct (X6_counts_are_conserved tc Hr) as (Hi & Hf & Hw & Hz).
  assert (isActive (stComp tc) = false /\ stat_IOP (stats tc) = 2 /\
          stat_FLOP (stats tc) = 1 /\ stat_WRITE (stats tc) = 3)
    as (Ha & S1 & S2 & S3).
  { clear -Hrun. vm_compute in Hrun. injection Hrun as <- _.
    vm_compute. by repeat split. }
  destruct (Hz Ha) as (Z1 & Z2 & _ & Z4).
  rewrite Z1, Z.add_0_r, S1 in Hi. rewrite Z2, Z.add_0_r, S2 in Hf.
  rewrite Z4, Z.add_0_r, S3 in Hw. exact (conj Hi (conj Hf Hw)).
Defined.

(** X7.  The communication aggregator of a ThreadContext is active exactly
    when it holds an edge, and it never holds two edges with the same
    producer thread and producer event; every communication event handed
    to the logger was active, holds at least one edge and names every
    producer once.  (So the assertion [comms.empty() == false] of
    [STCommEvent::flush] holds for every event that is flushed.) *)
Theorem X7_communication_events_are_well_formed `{policy : ShadowPolicy} tc :
  reachable tc ->
  (commActive (stComm tc) = true <-> comms (stComm tc) <> []) /\
  NoDup (edge_keys (comms (stComm tc))) /\
  Forall (fun ev => commActive ev = true /\ comms ev <> [] /\
                    NoDup (edge_keys (comms ev)))
    (Log.comm_records (logger tc)).
Proof.
  intros H. apply reachable_tc_inv in H.
  destruct H as (Hp & Hr & Hw & Hrec & Hi & Hf & Hwr & Hc & Hcrec & Hz).
  destruct Hc as [Hc1 Hc2]. split; [done|]. split; [done|].
  eapply Forall_impl; [exact Hcrec|]. intros ev [Ha [Hb Hn]].
  split; [done|]. split; [by apply Hb|done].
Qed.

Lemma X7_witness :
  exists tc sh,
    run (fresh 2 100) shadow_T1_4000 [Load 0x4000 1; Iop; Load 0x4000 1]
      = Ok (tc, sh) /\
    (commActive (stComm tc) = true <-> comms (stComm tc) <> []) /\
    NoDup (edge_keys (comms (stComm tc))) /\
    Forall (fun ev => commActive ev = true /\ comms ev <> [] /\
                      NoDup (edge_keys (comms ev)))
      (Log.comm_records (logger tc)).
Proof.
  destruct (run (fresh 2 100) shadow_T1_4000
              [Load 0x4000 1; Iop; Load 0x4000 1])
    as [[tc sh]|e] eqn:Hrun; [|by vm_compute in Hrun].
  exists tc, sh. split; [done|].
  apply X7_communication_events_are_well_formed.
  eapply run_reachable; [|exact Hrun]. by apply (reach_create 2 100).
Defined.

(** X8.  The statistics of a thread count every primitive it processed,
    once each, whatever the aggregators did with it: after a run from a
    fresh context each of the five counters equals the number of
    primitives of its kind in the run (modulo [2^64], the width of the
    counters); a load counts as a read whether it was local or a
    communication. *)
Theorem X8_statistics_count_every_primitive `{policy : ShadowPolicy}
    t prims sh ps tc sh' :
  run (fresh t prims) sh ps = Ok (tc, sh') ->
  stat_IOP (stats tc) = count_prims is_Iop ps mod 2 ^ 64 /\
  stat_FLOP (stats tc) = count_prims is_Flop ps mod 2 ^ 64 /\
  stat_READ (stats tc) = count_prims is_Load ps mod 2 ^ 64 /\
  stat_WRITE (stats tc) = count_prims is_Store ps mod 2 ^ 64 /\
  stat_INSTR (stats tc) = count_prims is_Instr ps mod 2 ^ 64.
Proof.
  intros H.
  assert (0 <= 0 <= StatCounter_max) as H0 by (unfold StatCounter_max; lia).
  repeat split.
  - apply (run_stat stat_IOP is_Iop) in H; [done| |done]. by intros [].
  - apply (run_stat stat_FLOP is_Flop) in H; [done| |done]. by intros [].
  - apply (run_stat stat_READ is_Load) in H; [done| |done]. by intros [].
  - apply (run_stat stat_WRITE is_Store) in H; [done| |done]. by intros [].
  - apply (run_stat stat_INSTR is_Instr) in H; [done| |done]. by intros [].
Qed.

Lemma X8_witness :
  exists tc sh,
    run (fresh 2 100) shadow_T1_4000
      [Load 0x4000 1; Iop; Load 0x4000 1; Store 0x4000 2; Instr; Flop]
      = Ok (tc, sh) /\
    stats tc = mkStats 1 1 2 1 1.
Proof.
  destruct (run (fresh 2 100) shadow_T1_4000
              [Load 0x4000 1; Iop; Load 0x4000 1; Store 0x4000 2; Instr; Flop])
    as [[tc sh]|e] eqn:Hrun; [|by vm_compute in Hrun].
  exists tc, sh. split; [done|].
  destruct (X8_statistics_count_every_primitive _ _ _ _ _ _ Hrun)
    as (H1 & H2 & H3 & H4 & H5).
  destruct (stats tc). simpl in *. by rewrite H1, H2, H3, H4, H5.
Defined.

(** X9.  [onInstr] hands the logger one marker per [2^12] instructions: in
    the log of a run from a fresh context the markers are as many as the
    instruction primitives of the run divided by [4096] (rounded down),
    each with the count [4096]; the wrap-around of the instruction counter
    does not disturb this. *)
Theorem X9_one_marker_every_4096_instructions `{policy : ShadowPolicy}
    t prims sh ps tc sh' :
  run (fresh t prims) sh ps = Ok (tc, sh') ->
  Log.marker_records (logger tc) =
    replicate (Z.to_nat (count_prims is_Instr ps / 4096)) 4096.
Proof.
  intros H. apply (run_markers _ _ _ _ _ 0) in H; [|done|done].
  rewrite H. simpl. by rewrite Z.sub_0_r.
Qed.


Lemma X9_witness :
  exists tc sh,
    run (fresh 1 100) ∅ (replicate 4095 Instr ++ [Iop; Instr] ++
                          replicate 4096 Instr) = Ok (tc, sh) /\
    Log.marker_records (logger tc) = [4096; 4096].
Proof.
  destruct (run (fresh 1 100) ∅ (replicate 4095 Instr ++ [Iop; Instr] ++
                                  replicate 4096 Instr))
    as [[tc sh]|e] eqn:Hrun; [|by vm_compute in Hrun].
  exists tc, sh. split; [done|].
  by rewrite (X9_one_marker_every_4096_instructions _ _ _ _ _ _ Hrun).
Defined.


End ThreadLaws.

(** ** The packed encoder *)

Module CapnFacts.
Import Capn CapnSession.

Lemma emplace_back_spec l o :
  batched l ->
  batched (emplace_back l o) /\
  concat (written (emplace_back l o)) ++ orphans (emplace_back l o) =
    (concat (written l) ++ orphans l) ++ [o].
Proof.
  intros (He & Hlt & Hw). unfold batched, emplace_back, flushOrphans.
  cbn [capn_events orphans written].
  unfold eventsPerMessage in *.
  assert (incr (capn_events l) = capn_events l + 1) as Hi.
  { unfold incr. apply Z.mod_small. unfold StatCounter_max. lia. }
  rewrite Hi. destruct (capn_events l + 1 =? 1000) eqn:Hk;
    cbn [capn_events orphans written].
  - apply Z.eqb_eq in Hk. rewrite Hk.
    assert (length (orphans l ++ [o]) = 1000%nat) as Hlen
      by (rewrite length_app; simpl; lia).
    rewrite take_ge by lia. split.
    + split; [done|]. split; [simpl; lia|].
      apply Forall_app. split; [done|]. apply Forall_singleton. lia.
    + rewrite concat_app. simpl. by rewrite !app_nil_r, app_assoc.
  - apply Z.eqb_neq in Hk. split.
    + split; [rewrite length_app; simpl; lia|].
      split; [rewrite length_app; simpl; lia|done].
    + by rewrite app_assoc.
Qed.

Lemma call_spec l c l' :
  batched l -> call l c = Ok l' ->
  exists e, event_of c = Ok e /\ batched l' /\
    concat (written l') ++ orphans l' = (concat (written l) ++ orphans l) ++ [e].
Proof.
  intros Hb H. destruct c; simpl in H.
  - injection H as <-. eexists. split; [done|]. by apply emplace_back_spec.
  - injection H as <-. eexists. split; [done|]. by apply emplace_back_spec.
  - unfold flush_sync in H. bind_ok H. injection H as <-. simpl. rewrite E.
    eexists. split; [done|]. by apply emplace_back_spec.
  - injection H as <-. eexists. split; [done|]. by apply emplace_back_spec.
Qed.

Lemma run_spec cs : forall l l',
  batched l -> capn_run l cs = Ok l' ->
  exists es, events_of cs = Ok es /\ batched l' /\
    concat (written l') ++ orphans l' = (concat (written l) ++ orphans l) ++ es.
Proof.
  induction cs as [|c cs IH]; intros l l' Hb H; simpl in H.
  - injection H as <-. exists []. by rewrite app_nil_r.
  - bind_ok H. destruct (call_spec _ _ _ Hb E) as (e & He & Hb' & Hc).
    destruct (IH _ _ Hb' H) as (es & Hes & Hb'' & Hc').
    exists (e :: es). simpl. rewrite He, Hes. simpl. split; [done|].
    split; [done|]. rewrite Hc', Hc, <- app_assoc. done.
Qed.

Lemma batched_init : batched init.
Proof. split; [done|]. split; [done|]. constructor. Qed.

Lemma translate_sync_known ty :
  1 <= ty <= 10 -> exists k, translate_sync ty = Ok k.
Proof.
  intros H. unfold translate_sync.
  repeat (match goal with |- context [?a =? ?b] => destruct (a =? b) eqn:? end;
          [by eexists|]).
  lia.
Qed.


Lemma run_total cs : forall l,
  sync_types_known cs -> exists l', capn_run l cs = Ok l'.
Proof.
  induction cs as [|c cs IH]; intros l Hk; simpl; [by eexists|].
  apply Forall_cons in Hk as [Hc Hk].
  assert (exists l1, call l c = Ok l1) as [l1 ->].
  { destruct c; simpl; try by eexists.
    unfold flush_sync. destruct (translate_sync_known _ Hc) as [k ->].
    by eexists. }
  simpl. by apply IH.
Qed.

End CapnFacts.

Module CapnLaws.
Import Capn CapnSession CapnFacts.

(** X10.  The packed encoder loses no event and keeps their order: after
    any sequence of calls that returns, the messages written so far
    followed by the events that wait are exactly the events built from the
    calls, in call order; every message written holds exactly
    [eventsPerMessage] events, fewer than that wait, and the member
    [events] counts the waiting ones. *)
Theorem X10_capn_messages_hold_all_events_in_order cs l :
  capn_run init cs = Ok l ->
  exists es, events_of cs = Ok es /\
    concat (written l) ++ orphans l = es /\
    Forall (fun m => Z.of_nat (length m) = eventsPerMessage) (written l) /\
    capn_events l = Z.of_nat (length (orphans l)) /\
    Z.of_nat (length (orphans l)) < eventsPerMessage.
Proof.
  intros H. destruct (run_spec cs init l batched_init H)
    as (es & Hes & (He & Hlt & Hw) & Hc).
  exists es. simpl in Hc. done.
Qed.

Lemma X10_witness :
  exists l es,
    capn_run init (replicate 2500 (InstrMarker 4096)) = Ok l /\
    events_of (replicate 2500 (InstrMarker 4096)) = Ok es /\
    concat (written l) ++ orphans l = es /\
    length (written l) = 2%nat /\ length (orphans l) = 500%nat.
Proof.
  destruct (capn_run init (replicate 2500 (InstrMarker 4096))) as [l|e] eqn:Hrun;
    [|by vm_compute in Hrun].
  destruct (X10_capn_messages_hold_all_events_in_order _ _ Hrun)
    as (es & Hes & Hc & _).
  exists l, es. split; [done|]. split; [done|]. split; [done|].
  clear -Hrun. vm_compute in Hrun. injection Hrun as <-. by vm_compute.
Defined.

(** X11.  When an encoder constructed for a thread is destroyed after
    calls that returned, every event built has been written: the messages,
    in order, are exactly the events built from the calls; every message
    holds at least one and at most [eventsPerMessage] events, and every
    message but the last holds exactly [eventsPerMessage]. *)
Theorem X11_capn_destructor_writes_the_rest t cs l0 l :
  capn_create t = Ok l0 ->
  capn_run l0 cs = Ok l ->
  exists es, events_of cs = Ok es /\
    concat (written (capn_destroy l)) = es /\
    Forall (fun m => 1 <= Z.of_nat (length m) <= eventsPerMessage)
      (written (capn_destroy l)) /\
    (forall i m, written (capn_destroy l) !! i = Some m ->
       (S i < length (written (capn_destroy l)))%nat ->
       Z.of_nat (length m) = eventsPerMessage).
Proof.
  intros H0 H. unfold capn_create in H0. bind_ok H0. injection H0 as <-.
  destruct (run_spec cs init l batched_init H)
    as (es & Hes & (He & Hlt & Hw) & Hc).
  exists es. split; [done|]. simpl in Hc. unfold capn_destroy, flushOrphans.
  unfold eventsPerMessage in *.
  destruct (capn_events l >? 0) eqn:Hk; simpl.
  - rewrite He, Nat2Z.id, firstn_all, concat_app. simpl.
    rewrite app_nil_r. split; [done|]. split.
    + apply Forall_app. split.
      * eapply Forall_impl; [exact Hw|]. simpl. lia.
      * apply Forall_singleton. lia.
    + intros i m Hi Hlast. rewrite length_app in Hlast. simpl in Hlast.
      rewrite lookup_app_l in Hi by lia.
      by eapply Forall_lookup_1 in Hw.
  - assert (orphans l = []) as Ho by (destruct (orphans l); [done|simpl in *; lia]).
    rewrite Ho, app_nil_r in Hc. split; [done|]. split.
    + eapply Forall_impl; [exact Hw|]. simpl. lia.
    + intros i m Hi _. by eapply Forall_lookup_1 in Hw.
Qed.

Lemma X11_witness :
  exists l es,
    capn_run init (replicate 2500 (InstrMarker 4096)) = Ok l /\
    events_of (replicate 2500 (InstrMarker 4096)) = Ok es /\
    concat (written (capn_destroy l)) = es /\
    length <$> written (capn_destroy l) = [1000; 1000; 500]%nat.
Proof.
  destruct (capn_run init (replicate 2500 (InstrMarker 4096))) as [l|e] eqn:Hrun;
    [|by vm_compute in Hrun].
  destruct (X11_capn_destructor_writes_the_rest 1 _ init l eq_refl Hrun)
    as (es & Hes & Hc & _).
  exists l, es. split; [done|]. split; [done|]. split; [done|].
  clear -Hrun. vm_compute in Hrun. injection Hrun as <-. by vm_compute.
Defined.


End CapnLaws.

(** ** The dispatcher *)

Module DispatchFacts.
Import TCxt FlushFacts CaseFacts.

Section WithPolicy.
Context `{policy : ShadowPolicy}.

Lemma known_snoc l c :
  CapnSession.sync_types_known l ->
  match c with FlushSync ty _ _ _ => 1 <= ty <= 10 | _ => True end ->
  CapnSession.sync_types_known (l ++ [c]).
Proof. intros Hl Hc. apply Forall_app. split; [done|]. by apply Forall_singleton. Qed.

Lemma compFlush_known tc tc' :
  compFlushIfActive tc = Ok tc' ->
  tid tc' = tid tc /\
  (CapnSession.sync_types_known (logger tc) -> CapnSession.sync_types_known (logger tc')).
Proof.
  intros [[_ ->]|(_ & _ & ->)]%compFlush_cases; [done|]. simpl.
  split; [done|]. intros H. by apply known_snoc.
Qed.

Lemma commFlush_known tc tc' :
  commFlushIfActive tc = Ok tc' ->
  tid tc' = tid tc /\
  (CapnSession.sync_types_known (logger tc) -> CapnSession.sync_types_known (logger tc')).
Proof.
  intros [[_ ->]|(_ & _ & ->)]%commFlush_cases; [done|]. simpl.
  split; [done|]. intros H. by apply known_snoc.
Qed.

Lemma check_known tc tc' :
  checkCompFlushLimit tc = Ok tc' ->
  tid tc' = tid tc /\
  (CapnSession.sync_types_known (logger tc) -> CapnSession.sync_types_known (logger tc')).
Proof.
  intros [[-> _]|(_ & _ & ->)]%check_cases; [done|]. simpl.
  split; [done|]. intros H. by apply known_snoc.
Qed.

Lemma step_known tc sh p tc' sh' :
  step tc sh p = Ok (tc', sh') ->
  match p with Sync ty _ => 1 <= ty <= 10 | _ => True end ->
  tid tc' = tid tc /\
  (CapnSession.sync_types_known (logger tc) -> CapnSession.sync_types_known (logger tc')).
Proof.
  intros H Hp. destruct p; simpl in H.
  - unfold onRead, onRead_finish in H. bind_ok H. bind_ok H. bind_ok H.
    injection H as <- _. simpl.
    apply check_known in E1 as [T1 K1]. rewrite T1.
    destruct (rl_isCommEdge a); simpl in E0.
    + apply compFlush_known in E0 as [T0 K0]. simpl in *. auto.
    + bind_ok E0. injection E0 as <-.
      match goal with
      | H : commFlushIfActive _ = Ok _ |- _ =>
          apply commFlush_known in H as [T0 K0]
      end. simpl in *. auto.
  - unfold onWrite in H. bind_ok H. bind_ok H. injection H as <- _. simpl.
    apply check_known in E0 as [T1 K1]. simpl in *. auto.
  - bind_ok H. injection H as <- _. unfold onIop in E. bind_ok E.
    injection E as <-. apply commFlush_known in E0 as [T0 K0]. simpl. auto.
  - bind_ok H. injection H as <- _. unfold onFlop in E. bind_ok E.
    injection E as <-. apply commFlush_known in E0 as [T0 K0]. simpl. auto.
  - bind_ok H. injection H as <- _. unfold onSync in E. bind_ok E. bind_ok E.
    injection E as <-.
    apply compFlush_known in E0 as [T0 K0].
    apply commFlush_known in E1 as [T1 K1].
    destruct (syncType =? 1); [|destruct (syncType =? 5)]; simpl;
      (split; [congruence|]); intros H; apply known_snoc; auto.
  - injection H as <- _. unfold onInstr. simpl.
    destruct (_ =? 0); simpl; [|done]. split; [done|].
    intros H. by apply known_snoc.
  - bind_ok H. injection H as <- _. unfold destroy in E. bind_ok E.
    apply compFlush_known in E0 as [T0 K0].
    apply commFlush_known in E as [T1 K1]. split; [congruence|auto].
Qed.

Lemma step_good tc sh p tc' sh' :
  step tc sh p = Ok (tc', sh') ->
  match p with Sync ty _ => 1 <= ty <= 10 | _ => True end ->
  good_step tc tc'.
Proof.
  intros H Hp. destruct (step_known _ _ _ _ _ H Hp) as [Ht Hk].
  split; [done|]. split; [|done]. intros Hr. by eapply reach_step.
Qed.


Lemma wf_update eh g k tc tc' (g' : Globals) :
  eh_wf eh g -> tcxts eh !! k = Some tc -> good_step tc tc' ->
  newThreadsInOrder g' = newThreadsInOrder g ->
  eh_wf (EH.set_tcxts (<[k := tc']> (tcxts eh)) eh) g'.
Proof.
  intros (W1 & W2 & W3 & W4 & W5) Hk (G1 & G2 & G3) Hg.
  unfold eh_wf. simpl. rewrite Hg.
  assert (forall k', is_Some (<[k := tc']> (tcxts eh) !! k') <->
                     is_Some (tcxts eh !! k')) as Hdom.
  { intros k'. rewrite lookup_insert_is_Some'. split; [|by right].
    intros [<-|?]; [by eexists|done]. }
  split; [done|]. split; [done|]. split; [|split].
  - intros k'. by rewrite Hdom, W3.
  - intros k' Hc. rewrite Hdom. by apply W4.
  - intros k' tc0. destruct (decide (k' = k)) as [->|Hne].
    + rewrite lookup_insert_eq. intros [= <-].
      destruct (W5 _ _ Hk) as (T & B & R & K). rewrite G1. auto.
    + rewrite lookup_insert_ne by done. apply W5.
Qed.

Lemma wf_globals eh g (g' : Globals) :
  eh_wf eh g -> newThreadsInOrder g' = newThreadsInOrder g -> eh_wf eh g'.
Proof. intros W Hg. unfold eh_wf in *. by rewrite Hg. Qed.

Lemma cached_wf_good eh g m eh' :
  eh_wf eh g ->
  (forall tc tc', m tc = Ok tc' -> good_step tc tc') ->
  EH.cached eh m = Ok eh' -> eh_wf eh' g.
Proof.
  intros W Hm H. unfold EH.cached in H.
  destruct (cachedTCxt eh) as [k|] eqn:Hc; [|done].
  destruct (tcxts eh !! k) as [tc|] eqn:Hk; [|done].
  bind_ok H. injection H as <-. eapply wf_update; eauto.
Qed.

Lemma cached_mem_wf_good eh g m eh' g' :
  eh_wf eh g ->
  (forall tc sh tc' sh', m tc sh = Ok (tc', sh') -> good_step tc tc') ->
  EH.cached_mem eh g m = Ok (eh', g') -> eh_wf eh' g'.
Proof.
  intros W Hm H. unfold EH.cached_mem in H.
  destruct (cachedTCxt eh) as [k|] eqn:Hc; [|done].
  destruct (tcxts eh !! k) as [tc|] eqn:Hk; [|done].
  bind_ok H. injection H as <- <-. destruct a as [tc' sh'].
  eapply wf_update; eauto.
Qed.

(** Whatever a method called through [cachedTCxt] does, the other
    contexts, the current thread and the pointer itself stay. *)
Lemma cached_frame eh m eh' :
  EH.cached eh m = Ok eh' ->
  currentTID eh' = currentTID eh /\ cachedTCxt eh' = cachedTCxt eh /\
  forall k, cachedTCxt eh <> Some k -> tcxts eh' !! k = tcxts eh !! k.
Proof.
  intros H. unfold EH.cached in H.
  destruct (cachedTCxt eh) as [k|] eqn:Hc; [|done].
  destruct (tcxts eh !! k) as [tc|] eqn:Hk; [|done].
  bind_ok H. injection H as <-. simpl. split; [done|]. split; [done|].
  intros k' Hne. rewrite lookup_insert_ne; [done|]. congruence.
Qed.

Lemma cached_mem_frame eh g m eh' g' :
  EH.cached_mem eh g m = Ok (eh', g') ->
  currentTID eh' = currentTID eh /\ cachedTCxt eh' = cachedTCxt eh /\
  threadSpawns g' = threadSpawns g /\
  newThreadsInOrder g' = newThreadsInOrder g /\
  barrierParticipants g' = barrierParticipants g /\
  forall k, cachedTCxt eh <> Some k -> tcxts eh' !! k = tcxts eh !! k.
Proof.
  intros H. unfold EH.cached_mem in H.
  destruct (cachedTCxt eh) as [k|] eqn:Hc; [|done].
  destruct (tcxts eh !! k) as [tc|] eqn:Hk; [|done].
  bind_ok H. injection H as <- <-. simpl. repeat (split; [done|]).
  intros k' Hne. rewrite lookup_insert_ne; [done|]. congruence.
Qed.

Lemma stSyncType_range type :
  (EH.stSyncType type >? 0) = true -> 1 <= EH.stSyncType type <= 10.
Proof. destruct type; simpl; lia. Qed.

Lemma flush_both_good tc tc' :
  (tc ← compFlushIfActive tc; commFlushIfActive tc) = Ok tc' ->
  good_step tc tc'.
Proof.
  intros H. apply (step_good tc ∅ FlushBoth tc' ∅); [|done].
  simpl. unfold destroy. by rewrite H.
Qed.

Lemma create_good t prims tc :
  create t prims = Ok tc ->
  tc = fresh t prims /\ t <= 128 /\ reachable tc.
Proof.
  intros H. split; [|split; [|by eapply reach_create]].
  - unfold create in H. bind_ok H. bind_ok H. by injection H as <-.
  - unfold create, assert_ in H. destruct (t <=? 128) eqn:Ht; [lia|done].
Qed.

Lemma onSwapTCxt_wf_good eh g newTID eh' g' :
  eh_wf eh g -> EH.onSwapTCxt eh g newTID = Ok (eh', g') -> eh_wf eh' g'.
Proof.
  intros W. unfold EH.onSwapTCxt. intros H. bind_ok H.
  unfold assert_ in E. destruct (newTID >? 0) eqn:Hpos; [|done]. clear E.
  destruct (bool_decide (currentTID eh ≠ newTID)) eqn:Hne.
  - destruct (if bool_decide (newTID ∉ newThreadsInOrder g) then _ else _)
      as [[eh2 g2]|] eqn:E3; simpl in H; [|done].
    destruct (match cachedTCxt eh2 with Some _ => _ | None => _ end)
      as [a0|] eqn:E4; simpl in H; [|done].
    destruct (assert_ (bool_decide (is_Some (tcxts a0 !! newTID))))
      eqn:E5; simpl in H; [|done].
    bind_ok H. injection H as <- <-.
    unfold assert_ in E5. case_bool_decide as Hin; [|done]. simpl in Hin.
    (* after the creation *)
    assert (eh_wf eh2 g2) as W2.
    { destruct (bool_decide (newTID ∉ newThreadsInOrder g)) eqn:Hnew.
      - apply bool_decide_eq_true in Hnew. bind_ok E3.
        injection E3 as <- <-.
        match goal with
        | Hc : create _ _ = Ok _ |- _ =>
            apply create_good in Hc as (-> & Hle & Hr)
        end.
        destruct W as (W1 & W2 & W3 & W4 & W5).
        assert (tcxts eh !! newTID = None) as Hnone.
        { destruct (tcxts eh !! newTID) eqn:Hl; [|done].
          exfalso. apply Hnew, W3. by eexists. }
        unfold EH.emplace. rewrite Hnone. unfold eh_wf. simpl.
        split; [done|]. split; [|split; [|split]].
        + apply NoDup_app. split; [done|]. split; [|apply NoDup_singleton].
          intros x Hx Hx2. apply list_elem_of_singleton in Hx2 as ->. done.
        + intros k. rewrite lookup_insert_is_Some, elem_of_app,
            list_elem_of_singleton, W3.
          split; [intros [<- |[_ ?]]; auto|].
          intros [?| ->]; [|by left].
          destruct (decide (newTID = k)) as [->|?]; [by left|by right].
        + intros k Hc. rewrite lookup_insert_is_Some.
          destruct (decide (newTID = k)) as [->|?]; [by left|right].
          split; [done|]. by apply W4.
        + intros k tc0. destruct (decide (k = newTID)) as [->|Hk].
          * rewrite lookup_insert_eq. intros [= <-]. simpl.
            split; [done|]. split; [lia|]. split; [done|]. constructor.
          * rewrite lookup_insert_ne by done. apply W5.
      - by injection E3 as <- <-. }
    assert (eh_wf a0 g2) as W3.
    { destruct (cachedTCxt eh2) eqn:Hc; [|by injection E4 as <-].
      eapply cached_wf_good; [exact W2| |exact E4].
      intros tc tc' Hf. by apply flush_both_good. }
    destruct W3 as (V1 & V2 & V3 & V4 & V5).
    unfold eh_wf. simpl. split; [by intros k [= <-]|]. split; [done|].
    split; [done|]. split; [|done]. by intros k [= <-].
  - simpl in H. bind_ok H. bind_ok H. injection H as <- <-.
    apply bool_decide_eq_false in Hne.
    assert (currentTID eh = newTID) as Heq
      by (destruct (decide (currentTID eh = newTID)); [done|by exfalso; apply Hne]).
    assert (EH.set_currentTID newTID eh = eh) as ->
      by (rewrite <- Heq; by destruct eh).
    done.
Qed.

End WithPolicy.
End DispatchFacts.

Module DispatchFacts2.
Import TCxt FlushFacts CaseFacts DispatchFacts.

Section WithPolicy.
Context `{policy : ShadowPolicy}.

Lemma convertAndFlush_wf eh g type data eh' :
  eh_wf eh g -> EH.convertAndFlush eh type data = Ok eh' -> eh_wf eh' g.
Proof.
  intros W H. unfold EH.convertAndFlush in H.
  destruct (EH.stSyncType type >? 0) eqn:Hk; [|by injection H as <-].
  eapply cached_wf_good; [exact W| |exact H].
  intros tc tc' Hs. apply (step_good tc ∅ (Sync (EH.stSyncType type) data) tc' ∅).
  - simpl. by rewrite Hs.
  - by apply stSyncType_range.
Qed.

Lemma dispatch_wf eh g e eh' g' :
  eh_wf eh g -> EH.dispatch eh g e = Ok (eh', g') -> eh_wf eh' g'.
Proof.
  intros W H. destruct e as [ev|ev|ev|ev]; simpl in H.
  - unfold EH.onMemEv in H. destruct (mem_type ev).
    + eapply cached_mem_wf_good; [exact W| |exact H].
      intros tc sh tc' sh' Hs.
      by apply (step_good tc sh (Load (begin_addr ev) (mem_size ev)) tc' sh').
    + eapply cached_mem_wf_good; [exact W| |exact H].
      intros tc sh tc' sh' Hs.
      by apply (step_good tc sh (Store (begin_addr ev) (mem_size ev)) tc' sh').
    + by injection H as <- <-.
  - bind_ok H. injection H as <- <-. unfold EH.onCompEv in E.
    destruct (comp_type ev).
    + eapply cached_wf_good; [exact W| |exact E]. intros tc tc' Hs.
      apply (step_good tc ∅ Iop tc' ∅); [|done]. simpl. by rewrite Hs.
    + eapply cached_wf_good; [exact W| |exact E]. intros tc tc' Hs.
      apply (step_good tc ∅ Flop tc' ∅); [|done]. simpl. by rewrite Hs.
    + by injection E as <-.
  - unfold EH.onSyncEv in H.
    destruct (sync_type ev) eqn:Ht;
      try (bind_ok H; injection H as <- <-;
           eapply convertAndFlush_wf; [|exact E];
           by apply (wf_globals eh g)).
    by eapply onSwapTCxt_wf_good.
  - bind_ok H. injection H as <- <-. unfold EH.onCxtEv in E.
    destruct (cxt_type ev).
    + eapply cached_wf_good; [exact W| |exact E]. intros tc tc' Hs.
      apply (step_good tc ∅ Instr tc' ∅); [|done]. simpl.
      by injection Hs as <-.
    + by injection E as <-.
Qed.

Lemma run_wf es : forall eh g eh' g',
  eh_wf eh g -> EH.run eh g es = Ok (eh', g') -> eh_wf eh' g'.
Proof.
  induction es as [|e es IH]; intros eh g eh' g' W H; simpl in H.
  - by injection H as <- <-.
  - bind_ok H. destruct a as [eh1 g1]. eapply IH; [|exact H].
    by eapply dispatch_wf.
Qed.

Lemma init_wf t0 g : newThreadsInOrder g = [] -> eh_wf (EH.init t0) g.
Proof.
  intros Hg. unfold eh_wf, EH.init. simpl. rewrite Hg.
  split; [done|]. split; [constructor|]. split; [|split; [done|]].
  - intros k. rewrite lookup_empty. split; [by intros [? ?]|].
    by intros ?%elem_of_nil.
  - intros k tc. by rewrite lookup_empty.
Qed.

Lemma dispatch_frame eh g e eh' g' :
  EH.dispatch eh g e = Ok (eh', g') -> is_swap e = false ->
  currentTID eh' = currentTID eh /\ cachedTCxt eh' = cachedTCxt eh /\
  newThreadsInOrder g' = newThreadsInOrder g /\
  forall k, cachedTCxt eh <> Some k -> tcxts eh' !! k = tcxts eh !! k.
Proof.
  intros H Hs. destruct e as [ev|ev|ev|ev]; simpl in H.
  - unfold EH.onMemEv in H. destruct (mem_type ev);
      try (apply cached_mem_frame in H; tauto).
    by injection H as <- <-.
  - bind_ok H. injection H as <- <-. unfold EH.onCompEv in E.
    destruct (comp_type ev); try (apply cached_frame in E; tauto).
    by injection E as <-.
  - unfold EH.onSyncEv in H. simpl in Hs.
    destruct (sync_type ev) eqn:Ht; try done;
      bind_ok H; injection H as <- <-; unfold EH.convertAndFlush in E;
      simpl in E;
      try (apply cached_frame in E; simpl; tauto).
    by injection E as <-.
  - bind_ok H. injection H as <- <-. unfold EH.onCxtEv in E.
    destruct (cxt_type ev); try (apply cached_frame in E; tauto).
    by injection E as <-.
Qed.

End WithPolicy.
End DispatchFacts2.

Module DispatchLaws.
Import TCxt FlushFacts CaseFacts DispatchFacts DispatchFacts2.

(** X13.  On every run of the dispatcher from its initial state, the
    threads listed in [newThreadsInOrder] are listed once each and are
    exactly the threads that have a ThreadContext; the context stored for a
    thread carries that thread's id, which lies between [1] and [128], and
    is in a state that the primitives of one thread lead to from its
    construction; and [cachedTCxt], once set, designates the context of
    the current thread. *)
Theorem X13_dispatcher_keeps_its_threads_in_order `{policy : ShadowPolicy}
    t0 g0 es eh g :
  newThreadsInOrder g0 = [] ->
  EH.run (EH.init t0) g0 es = Ok (eh, g) ->
  NoDup (newThreadsInOrder g) /\
  (forall k, is_Some (tcxts eh !! k) <-> k ∈ newThreadsInOrder g) /\
  (forall k, cachedTCxt eh = Some k ->
     k = currentTID eh /\ is_Some (tcxts eh !! k)) /\
  (forall k tc, tcxts eh !! k = Some tc ->
     tid tc = k /\ 0 < k <= 128 /\ reachable tc).
Proof.
  intros Hg H. apply run_wf in H; [|by apply init_wf].
  destruct H as (W1 & W2 & W3 & W4 & W5).
  split; [done|]. split; [done|]. split; [by auto|].
  intros k tc Hk. destruct (W5 k tc Hk) as (? & ? & ? & _). done.
Qed.

Lemma X13_witness :
  exists eh g,
    EH.run (EH.init (-1)) EH.init_globals
      [EH.swap 1; EH.store 0x4000 1; EH.swap 2; EH.load 0x4000 2; EH.swap 1]
      = Ok (eh, g) /\
    newThreadsInOrder g = [1; 2] /\
    (forall k, is_Some (tcxts eh !! k) <-> k ∈ newThreadsInOrder g) /\
    cachedTCxt eh = Some 1 /\ currentTID eh = 1.
Proof.
  destruct (EH.run (EH.init (-1)) EH.init_globals
              [EH.swap 1; EH.store 0x4000 1; EH.swap 2; EH.load 0x4000 2;
               EH.swap 1]) as [[eh g]|e] eqn:Hrun; [|by vm_compute in Hrun].
  exists eh, g. split; [done|].
  destruct (X13_dispatcher_keeps_its_threads_in_order (-1) EH.init_globals
              _ eh g eq_refl Hrun) as (_ & Hdom & _).
  split; [|split; [exact Hdom|]];
    clear -Hrun; vm_compute in Hrun; by injection Hrun as <- <-.
Defined.

(** X14.  The fatal error of the packed encoder for an unhandled sync
    event cannot be reached through the dispatcher: on every run of the
    dispatcher from its initial state, the encoder accepts the whole log
    of every thread. *)
Theorem X14_capn_accepts_every_log_of_the_dispatcher `{policy : ShadowPolicy}
    t0 g0 es eh g k tc :
  newThreadsInOrder g0 = [] ->
  EH.run (EH.init t0) g0 es = Ok (eh, g) ->
  tcxts eh !! k = Some tc ->
  exists l, CapnSession.capn_run Capn.init (logger tc) = Ok l.
Proof.
  intros Hg H Hk. apply run_wf in H; [|by apply init_wf].
  destruct H as (W1 & W2 & W3 & W4 & W5).
  destruct (W5 k tc Hk) as (_ & _ & _ & Hs).
  by apply CapnFacts.run_total.
Qed.

Lemma X14_witness :
  exists eh g tc l,
    EH.run (EH.init (-1)) EH.init_globals
      [EH.swap 1; EH.SyncEv (mkSglSyncEv SGLPRIM_SYNC_LOCK 0x7000);
       EH.SyncEv (mkSglSyncEv (SGLPRIM_SYNC_other 99) 0x7000); EH.iop;
       EH.SyncEv (mkSglSyncEv SGLPRIM_SYNC_SPINUNLOCK 0x7000)]
      = Ok (eh, g) /\
    tcxts eh !! 1 = Some tc /\
    CapnSession.capn_run Capn.init (logger tc) = Ok l /\
    orphans l = [CapnSync LOCK 0x7000; CapnComp 1 0 0 0 [] [];
                 CapnSync SPIN_UNLOCK 0x7000].
Proof.
  destruct (EH.run (EH.init (-1)) EH.init_globals
      [EH.swap 1; EH.SyncEv (mkSglSyncEv SGLPRIM_SYNC_LOCK 0x7000);
       EH.SyncEv (mkSglSyncEv (SGLPRIM_SYNC_other 99) 0x7000); EH.iop;
       EH.SyncEv (mkSglSyncEv SGLPRIM_SYNC_SPINUNLOCK 0x7000)])
    as [[eh g]|e] eqn:Hrun; [|by vm_compute in Hrun].
  destruct (tcxts eh !! 1) as [tc|] eqn:Hk.
  2:{ clear -Hrun Hk. vm_compute in Hrun. injection Hrun as <- _.
      by vm_compute in Hk. }
  destruct (X14_capn_accepts_every_log_of_the_dispatcher (-1) EH.init_globals
              _ eh g 1 tc eq_refl Hrun Hk) as [l Hl].
  exists eh, g, tc, l. split; [done|]. split; [done|]. split; [done|].
  clear -Hrun Hk Hl. vm_compute in Hrun. injection Hrun as <- _.
  vm_compute in Hk. injection Hk as <-. vm_compute in Hl.
  by injection Hl as <-.
Defined.

(** X15.  A primitive other than a thread swap touches the context that
    [cachedTCxt] designates and no other: the current thread, the pointer,
    the list of threads and the context of every other thread are as
    before. *)
Theorem X15_primitives_touch_the_current_thread_only `{policy : ShadowPolicy}
    eh g e eh' g' :
  EH.dispatch eh g e = Ok (eh', g') -> is_swap e = false ->
  currentTID eh' = currentTID eh /\ cachedTCxt eh' = cachedTCxt eh /\
  newThreadsInOrder g' = newThreadsInOrder g /\
  forall k, cachedTCxt eh <> Some k -> tcxts eh' !! k = tcxts eh !! k.
Proof. apply dispatch_frame. Qed.

Lemma X15_witness :
  exists eh' g',
    EH.dispatch eh_T1 globals_T1 (EH.store 0x4000 4) = Ok (eh', g') /\
    currentTID eh' = 1 /\ cachedTCxt eh' = Some 1 /\
    newThreadsInOrder g' = [1] /\
    forall k, Some 1 <> Some k -> tcxts eh' !! k = tcxts eh_T1 !! k.
Proof.
  destruct (EH.dispatch eh_T1 globals_T1 (EH.store 0x4000 4))
    as [[eh' g']|e] eqn:Hd; [|by vm_compute in Hd].
  exists eh', g'. split; [done|].
  exact (X15_primitives_touch_the_current_thread_only _ _ _ _ _ Hd eq_refl).
Defined.

End DispatchLaws.

Module SwapLaws.
Import TCxt FlushFacts CaseFacts DispatchFacts DispatchFacts2.

(** X16.  A swap that returns installs the thread: the id is positive, the
    thread is current and [cachedTCxt] designates its context.  A thread
    seen for the first time is appended to [newThreadsInOrder] and gets a
    fresh context with the compression level of the run (its id is at most
    [128] and the level lies in [1 .. 100]); a thread seen before keeps its
    context and the shared state is untouched.  The thread swapped out has
    been flushed as by its destructor, and no other context changes. *)
Theorem X16_swap_installs_the_thread `{policy : ShadowPolicy} eh g t eh' g' :
  eh_wf eh g -> EH.onSwapTCxt eh g t = Ok (eh', g') ->
  0 < t /\ currentTID eh' = t /\ cachedTCxt eh' = Some t /\
  (t ∈ newThreadsInOrder g ->
     g' = g /\ tcxts eh' !! t = tcxts eh !! t) /\
  (t ∉ newThreadsInOrder g ->
     newThreadsInOrder g' = newThreadsInOrder g ++ [t] /\
     tcxts eh' !! t = Some (fresh t (g_primsPerStCompEv g)) /\
     t <= 128 /\ 0 < g_primsPerStCompEv g <= 100) /\
  (forall k tc, cachedTCxt eh = Some k -> k <> t ->
     tcxts eh !! k = Some tc ->
     exists tc', destroy tc = Ok tc' /\ tcxts eh' !! k = Some tc') /\
  (forall k, k <> t -> cachedTCxt eh <> Some k ->
     tcxts eh' !! k = tcxts eh !! k).
Proof.
  intros W. pose proof W as (W1 & W2 & W3 & W4 & W5).
  unfold EH.onSwapTCxt. intros H. bind_ok H.
  unfold assert_ in E. destruct (t >? 0) eqn:Hpos; [|done].
  clear E. split; [lia|].
  destruct (bool_decide (currentTID eh ≠ t)) eqn:Hne.
  - apply bool_decide_eq_true in Hne.
    destruct (if bool_decide (t ∉ newThreadsInOrder g) then _ else _)
      as [[eh2 g2]|] eqn:E3; simpl in H; [|done].
    destruct (match cachedTCxt eh2 with Some _ => _ | None => _ end)
      as [a0|] eqn:E4; simpl in H; [|done].
    destruct (assert_ (bool_decide (is_Some (tcxts a0 !! t))))
      eqn:E5; simpl in H; [|done].
    bind_ok H. injection H as <- <-. simpl.
    split; [done|]. split; [done|].
    (* the creation *)
    assert (cachedTCxt eh2 = cachedTCxt eh /\
            (forall k, k <> t -> tcxts eh2 !! k = tcxts eh !! k) /\
            (t ∈ newThreadsInOrder g -> g2 = g /\ eh2 = eh) /\
            (t ∉ newThreadsInOrder g ->
               newThreadsInOrder g2 = newThreadsInOrder g ++ [t] /\
               tcxts eh2 !! t = Some (fresh t (g_primsPerStCompEv g)) /\
               t <= 128 /\ 0 < g_primsPerStCompEv g <= 100))
      as (C1 & C2 & C3 & C4).
    { destruct (bool_decide (t ∉ newThreadsInOrder g)) eqn:Hnew.
      - apply bool_decide_eq_true in Hnew. bind_ok E3.
        injection E3 as <- <-.
        match goal with
        | Hc : create _ _ = Ok _ |- _ => rename Hc into Ecr
        end.
        assert (0 < g_primsPerStCompEv g <= 100) as Hprims.
        { unfold create, assert_ in Ecr.
          destruct (t <=? 128); simpl in Ecr; [|done].
          destruct ((0 <? g_primsPerStCompEv g)
                    && (g_primsPerStCompEv g <=? 100)) eqn:Hp;
            simpl in Ecr; [|done]. lia. }
        apply create_good in Ecr as (-> & Hle & Hr).
        assert (tcxts eh !! t = None) as Hnone.
        { destruct (tcxts eh !! t) eqn:Hl; [|done].
          exfalso. apply Hnew, W3. by eexists. }
        unfold EH.emplace. rewrite Hnone. simpl.
        split; [done|]. split; [|split; [done|]].
        + intros k Hk. by rewrite lookup_insert_ne.
        + intros _. by rewrite lookup_insert_eq.
      - apply bool_decide_eq_false in Hnew. injection E3 as <- <-.
        split; [done|]. split; [done|]. split; [done|]. intros ?. by exfalso; apply Hnew. }
    (* the flush of the thread swapped out *)
    assert (forall k, cachedTCxt eh <> Some k -> tcxts a0 !! k = tcxts eh2 !! k)
      as F1.
    { intros k Hk. destruct (cachedTCxt eh2) eqn:Hc; [|by injection E4 as <-].
      apply cached_frame in E4 as (_ & _ & E4). apply E4. congruence. }
    assert (forall k, cachedTCxt eh = Some k -> k <> t).
    { intros k Hk ->. apply Hne. symmetry. by apply W1. }
    split; [|split; [|split]].
    + intros Hin. destruct (C3 Hin) as [-> ->]. split; [done|].
      apply F1. intros Hc. by apply (H t).
    + intros Hnew. destruct (C4 Hnew) as (? & Ht & ? & ?).
      split; [done|]. split; [|done]. rewrite F1; [done|].
      intros Hc. by apply (H t).
    + intros k tc Hc Hk Htc. rewrite <- C1 in Hc.
      rewrite Hc in E4. unfold EH.cached in E4. rewrite Hc in E4.
      rewrite (C2 k Hk), Htc in E4. bind_ok E4. injection E4 as <-.
      eexists. split; [unfold destroy; eassumption|].
      simpl. by rewrite lookup_insert_eq.
    + intros k Hk Hc. rewrite F1 by done. by apply C2.
  - apply bool_decide_eq_false in Hne.
    assert (currentTID eh = t) as Heq
      by (destruct (decide (currentTID eh = t)); [done|by exfalso; apply Hne]).
    simpl in H. bind_ok H. bind_ok H. injection H as <- <-. simpl.
    unfold assert_ in E0. simpl in E0. case_bool_decide as Hs; [|done].
    destruct Hs as [k Hk]. pose proof (W1 k Hk) as Hkc.
    split; [done|]. split; [congruence|].
    split; [done|]. split.
    + intros Hnew. exfalso. apply Hnew, W3, W4. congruence.
    + split; [|done]. intros k' tc Hc Hne'. exfalso. apply Hne'.
      rewrite <- Heq. by apply W1.
Qed.


Lemma X16_witness :
  exists eh' g',
    EH.onSwapTCxt eh_T1 globals_T1 2 = Ok (eh', g') /\
    currentTID eh' = 2 /\ cachedTCxt eh' = Some 2 /\
    newThreadsInOrder g' = [1; 2] /\
    tcxts eh' !! 2 = Some (fresh 2 100) /\
    tcxts eh' !! 1 = Some (fresh 1 100).
Proof.
  assert (eh_wf eh_T1 globals_T1) as W.
  { apply (run_wf [EH.swap 1] (EH.init (-1)) EH.init_globals);
      [by apply init_wf|by vm_compute]. }
  destruct (EH.onSwapTCxt eh_T1 globals_T1 2) as [[eh' g']|e] eqn:Hs;
    [|by vm_compute in Hs].
  destruct (X16_swap_installs_the_thread eh_T1 globals_T1 2 eh' g' W Hs)
    as (_ & Hc & Hp & _ & Hnew & _ & Hrest).
  assert (2 ∉ newThreadsInOrder globals_T1) as Hn.
  { simpl. intros Hin. apply list_elem_of_singleton in Hin. lia. }
  destruct (Hnew Hn) as (Hl & Ht & _).
  exists eh', g'. split; [done|]. split; [done|]. split; [done|].
  split; [done|]. split; [done|].
  clear -Hs. vm_compute in Hs. injection Hs as <- _. by vm_compute.
Defined.

End SwapLaws.

(** ** Before the first swap, and the barriers *)

Module SyncBookFacts.

Lemma ignored_step `{policy : ShadowPolicy} eh g e :
  is_ignored e = true -> EH.dispatch eh g e = Ok (eh, g).
Proof.
  destruct e as [ev|ev|ev|ev]; simpl.
  - unfold EH.onMemEv. by destruct (mem_type ev).
  - unfold EH.onCompEv. by destruct (comp_type ev).
  - unfold EH.onSyncEv, EH.convertAndFlush. by destruct (sync_type ev).
  - unfold EH.onCxtEv. by destruct (cxt_type ev).
Qed.

Lemma null_step `{policy : ShadowPolicy} eh g e :
  cachedTCxt eh = None -> is_ignored e = false -> is_swap e = false ->
  EH.dispatch eh g e = Fatal NullPointer.
Proof.
  intros Hc. destruct e as [ev|ev|ev|ev]; simpl.
  - unfold EH.onMemEv, EH.cached_mem. rewrite Hc. by destruct (mem_type ev).
  - unfold EH.onCompEv, EH.cached. rewrite Hc. by destruct (comp_type ev).
  - unfold EH.onSyncEv, EH.convertAndFlush, EH.cached. rewrite Hc.
    by destruct (sync_type ev).
  - unfold EH.onCxtEv, EH.cached. rewrite Hc. by destruct (cxt_type ev).
Qed.

Lemma run_ignored `{policy : ShadowPolicy} eh g pre rest :
  forallb is_ignored pre = true ->
  EH.run eh g (pre ++ rest) = EH.run eh g rest.
Proof.
  induction pre as [|e pre IH]; [done|]. simpl.
  intros [He Hpre]%andb_prop. rewrite (ignored_step _ _ _ He). simpl.
  by apply IH.
Qed.

Lemma onBarrier_cons eh g p bp data (g0 : Globals) :
  barrierParticipants g = p :: bp -> barrierParticipants g0 = bp ->
  barrierParticipants (EH.onBarrier eh g data) =
    if p.1 =? data then (p.1, {[currentTID eh]} ∪ p.2) :: bp
    else p :: barrierParticipants (EH.onBarrier eh g0 data).
Proof.
  intros Hg Hg0. unfold EH.onBarrier. simpl. rewrite Hg, Hg0. simpl.
  destruct (p.1 =? data) eqn:Hp; simpl; [done|].
  case_bool_decide as H1; case_bool_decide as H2; try done; lia.
Qed.

Lemma onBarrier_keys eh data : forall g,
  fst <$> barrierParticipants (EH.onBarrier eh g data) =
    if bool_decide (data ∈ fst <$> barrierParticipants g)
    then fst <$> barrierParticipants g
    else (fst <$> barrierParticipants g) ++ [data].
Proof.
  intros g. remember (barrierParticipants g) as bp eqn:Hbp.
  revert g Hbp. induction bp as [|p bp IH]; intros g Hbp.
  - unfold EH.onBarrier. rewrite <- Hbp. simpl. done.
  - rewrite (onBarrier_cons eh g p bp data
               (mkGlobals 0 [] [] bp ∅)) by done.
    specialize (IH (mkGlobals 0 [] [] bp ∅) eq_refl).
    destruct (p.1 =? data) eqn:Hp.
    + apply Z.eqb_eq in Hp. rewrite !fmap_cons.
      rewrite bool_decide_eq_true_2; [done|].
      apply elem_of_cons. by left.
    + apply Z.eqb_neq in Hp. rewrite !fmap_cons, IH.
      case_bool_decide as H1; case_bool_decide as H2; try done.
      * exfalso. apply H2, elem_of_cons. by right.
      * exfalso. apply elem_of_cons in H2 as [?|?]; [by apply Hp|done].
Qed.

Lemma participants_cons p bp a :
  participants_of (p :: bp) a =
    if bool_decide (p.1 = a) then p.2 ∪ participants_of bp a
    else participants_of bp a.
Proof.
  unfold participants_of. rewrite filter_cons.
  destruct (decide (p.1 = a)) as [H|H].
  - by rewrite bool_decide_eq_true_2.
  - by rewrite bool_decide_eq_false_2.
Qed.

Lemma onBarrier_participants eh data a : forall g,
  participants_of (barrierParticipants (EH.onBarrier eh g data)) a =
    if bool_decide (a = data)
    then {[currentTID eh]} ∪ participants_of (barrierParticipants g) data
    else participants_of (barrierParticipants g) a.
Proof.
  intros g. remember (barrierParticipants g) as bp eqn:Hbp.
  revert g Hbp. induction bp as [|p bp IH]; intros g Hbp.
  - unfold EH.onBarrier. rewrite <- Hbp.
    cbn [barrierParticipants EH.barrier_idx length app].
    rewrite bool_decide_eq_true_2 by done.
    rewrite participants_cons. cbn [fst snd].
    unfold participants_of. simpl.
    case_bool_decide as H1; case_bool_decide as H2; try congruence; set_solver.
  - rewrite (onBarrier_cons eh g p bp data
               (mkGlobals 0 [] [] bp ∅)) by done.
    specialize (IH (mkGlobals 0 [] [] bp ∅) eq_refl).
    destruct (p.1 =? data) eqn:Hp.
    + apply Z.eqb_eq in Hp. rewrite !participants_cons. cbn [fst snd].
      clear IH. repeat case_bool_decide; try congruence; subst;
        apply set_eq; intros x; rewrite !elem_of_union; tauto.
    + apply Z.eqb_neq in Hp. rewrite !participants_cons, IH.
      cbn [barrierParticipants].
      repeat case_bool_decide; try congruence; set_solver.
Qed.

End SyncBookFacts.

Module SyncBookLaws.
Import SyncBookFacts.

(** X17.  A swap to a thread id that is not positive fails the assertion
    of [onSwapTCxt]; a swap to a thread not seen before whose id is above
    [128], or under a compression level outside [1 .. 100], fails the
    assertion of the ThreadContext constructor. *)
Theorem X17_swap_rejects_bad_thread_ids eh g t :
  (t <= 0 -> EH.onSwapTCxt eh g t = Fatal AssertionFailed) /\
  (0 < t -> currentTID eh <> t -> t ∉ newThreadsInOrder g ->
   128 < t \/ g_primsPerStCompEv g <= 0 \/ 100 < g_primsPerStCompEv g ->
   EH.onSwapTCxt eh g t = Fatal AssertionFailed).
Proof.
  unfold EH.onSwapTCxt, assert_. split.
  - intros Ht. by assert ((t >? 0) = false) as -> by lia.
  - intros Ht Hc Hn Hbad. assert ((t >? 0) = true) as -> by lia. simpl.
    rewrite bool_decide_eq_true_2 by done.
    rewrite bool_decide_eq_true_2 by done.
    unfold TCxt.create, assert_. simpl.
    destruct (t <=? 128) eqn:H1; simpl; [|done].
    destruct ((0 <? g_primsPerStCompEv g) && (g_primsPerStCompEv g <=? 100))
      eqn:H2; simpl; [lia|done].
Qed.

Lemma X17_witness :
  EH.onSwapTCxt eh_T1 globals_T1 0 = Fatal AssertionFailed /\
  EH.onSwapTCxt eh_T1 globals_T1 129 = Fatal AssertionFailed /\
  EH.onSwapTCxt (EH.init (-1)) (mkGlobals 0 [] [] [] ∅) 1
    = Fatal AssertionFailed.
Proof.
  split; [|split].
  - apply (proj1 (X17_swap_rejects_bad_thread_ids eh_T1 globals_T1 0)). lia.
  - apply (proj2 (X17_swap_rejects_bad_thread_ids eh_T1 globals_T1 129)).
    + lia.
    + simpl. lia.
    + simpl. intros Hin. apply list_elem_of_singleton in Hin. lia.
    + left. lia.
  - apply (proj2 (X17_swap_rejects_bad_thread_ids (EH.init (-1))
                    (mkGlobals 0 [] [] [] ∅) 1)).
    + lia.
    + simpl. lia.
    + simpl. apply not_elem_of_nil.
    + right. left. simpl. lia.
Defined.

(** X18.  Primitives whose type the handlers have no case for change
    nothing, whatever the state.  Before the first swap there is no current
    ThreadContext, and the first primitive that is neither ignored nor a
    swap (a load, a store, an IOP, a FLOP, an instruction, or a sync
    primitive that [convertAndFlush] translates) goes through the null
    [cachedTCxt]. *)
Theorem X18_no_primitive_before_the_first_swap `{policy : ShadowPolicy}
    eh g pre :
  forallb is_ignored pre = true ->
  (forall rest, EH.run eh g (pre ++ rest) = EH.run eh g rest) /\
  EH.run eh g pre = Ok (eh, g) /\
  (cachedTCxt eh = None ->
   forall e post, is_ignored e = false -> is_swap e = false ->
     EH.run eh g (pre ++ e :: post) = Fatal NullPointer).
Proof.
  intros Hpre. split; [intros rest; by apply run_ignored|]. split.
  - rewrite <- (app_nil_r pre). by rewrite run_ignored.
  - intros Hc e post He Hs. rewrite run_ignored by done. simpl.
    by rewrite null_step.
Qed.

Lemma X18_witness :
  EH.run (EH.init (-1)) EH.init_globals
    [EH.SyncEv (mkSglSyncEv (SGLPRIM_SYNC_other 99) 0x7000);
     EH.store 0x4000 4; EH.swap 1] = Fatal NullPointer.
Proof.
  exact (proj2 (proj2 (X18_no_primitive_before_the_first_swap
           (EH.init (-1)) EH.init_globals
           [EH.SyncEv (mkSglSyncEv (SGLPRIM_SYNC_other 99) 0x7000)] eq_refl))
           eq_refl (EH.store 0x4000 4) [EH.swap 1] eq_refl eq_refl).
Defined.

(** X19.  [onBarrier] keeps one entry per barrier address, in the order in
    which the addresses were first seen: the address list is unchanged
    when the barrier is known and has the address appended when it is new;
    the current thread joins the threads recorded for that barrier, and
    the threads recorded for every other barrier, the spawn list and the
    thread list are untouched. *)
Theorem X19_onBarrier_records_the_current_thread eh g data :
  fst <$> barrierParticipants (EH.onBarrier eh g data) =
    (if bool_decide (data ∈ fst <$> barrierParticipants g)
     then fst <$> barrierParticipants g
     else (fst <$> barrierParticipants g) ++ [data]) /\
  (forall a,
     participants_of (barrierParticipants (EH.onBarrier eh g data)) a =
       if bool_decide (a = data)
       then {[currentTID eh]} ∪ participants_of (barrierParticipants g) data
       else participants_of (barrierParticipants g) a) /\
  (NoDup (fst <$> barrierParticipants g) ->
   NoDup (fst <$> barrierParticipants (EH.onBarrier eh g data))) /\
  threadSpawns (EH.onBarrier eh g data) = threadSpawns g /\
  newThreadsInOrder (EH.onBarrier eh g data) = newThreadsInOrder g.
Proof.
  split; [apply onBarrier_keys|]. split; [intros a; apply onBarrier_participants|].
  split; [|done]. intros Hnd. rewrite onBarrier_keys.
  case_bool_decide as Hin; [done|].
  apply NoDup_app. split; [done|]. split; [|apply NoDup_singleton].
  intros x Hx Hx2. apply list_elem_of_singleton in Hx2 as ->. done.
Qed.

End SyncBookLaws.

(** ** The text lines *)

Module TextFacts.
Import STEventText.

Section WithHex.
Variable n2hexstr : Addr -> string.

Lemma string_app_assoc (s1 s2 s3 : string) :
  s1 +:+ (s2 +:+ s3) = (s1 +:+ s2) +:+ s3.
Proof.
  induction s1 as [|c s1 IH]; [done|].
  change (String c (s1 +:+ (s2 +:+ s3)) = String c ((s1 +:+ s2) +:+ s3)).
  by rewrite IH.
Qed.

Lemma string_app_nil_r (s : string) : s +:+ EmptyString = s.
Proof.
  induction s as [|c s IH]; [done|].
  change (String c (s +:+ EmptyString) = String c s). by rewrite IH.
Qed.

Lemma log_ranges_cases marker rs : forall logmsg,
  (Forall ordered rs /\
   exists tail, log_ranges n2hexstr marker rs logmsg = Ok (logmsg +:+ tail)) \/
  (~ Forall ordered rs /\
   log_ranges n2hexstr marker rs logmsg = Fatal AssertionFailed).
Proof.
  induction rs as [|r rs IH]; intros logmsg; simpl.
  - left. split; [constructor|]. exists EmptyString. by rewrite string_app_nil_r.
  - unfold assert_. destruct (r.1 <=? r.2) eqn:Hr; simpl.
    + apply Z.leb_le in Hr.
      destruct (IH (logmsg +:+ marker +:+ n2hexstr r.1 +:+ " " +:+ n2hexstr r.2))
        as [[Hf [tail Ht]]|[Hn Ht]].
      * left. split; [by constructor|].
        exists (marker +:+ n2hexstr r.1 +:+ " " +:+ n2hexstr r.2 +:+ tail).
        rewrite Ht. by rewrite !string_app_assoc.
      * right. split; [|done]. intros [_ ?]%Forall_cons. by apply Hn.
    + apply Z.leb_gt in Hr. right. split; [|done].
      intros [Ho _]%Forall_cons. unfold ordered in Ho. lia.
Qed.

Lemma log_edges_cases cs : forall logmsg,
  (Forall (fun edge : CommEdge => Forall ordered edge.2) cs /\
   exists tail, log_edges n2hexstr cs logmsg = Ok (logmsg +:+ tail)) \/
  (~ Forall (fun edge : CommEdge => Forall ordered edge.2) cs /\
   log_edges n2hexstr cs logmsg = Fatal AssertionFailed).
Proof.
  induction cs as [|edge cs IH]; intros logmsg; simpl.
  - left. split; [constructor|]. exists EmptyString. by rewrite string_app_nil_r.
  - destruct (log_ranges_cases
                (" # " +:+ pretty edge.1.1 +:+ " " +:+ pretty edge.1.2 +:+ " ")
                edge.2 logmsg) as [[Hf [t1 Ht1]]|[Hn Ht1]]; rewrite Ht1; simpl.
    + destruct (IH (logmsg +:+ t1)) as [[Hf2 [t2 Ht2]]|[Hn Ht2]].
      * left. split; [by constructor|]. exists (t1 +:+ t2).
        by rewrite Ht2, string_app_assoc.
      * right. split; [|done]. intros [_ ?]%Forall_cons. by apply Hn.
    + right. split; [|done]. intros [? _]%Forall_cons. by apply Hn.
Qed.

End WithHex.
End TextFacts.

Module TextLaws.
Import STEventText TextFacts.

(** X20.  The text flush of a compute event: an empty event writes nothing;
    an event that is not empty writes one line, which begins with the event
    id, the thread id and the four counters, takes the next event id and
    is reset.  The flush fails in two ways only: by its assertion, exactly
    when a stored range has its first address above its second, and with
    the event id overflow, exactly when the ranges are in order and the
    event id is the largest. *)
Theorem X20_text_flush_of_a_compute_event n2hexstr ev k :
  match STCompEvent_flush n2hexstr ev k with
  | Ok (ev', k') =>
      (isActive ev = false /\ ev' = ev /\ k' = k) \/
      (isActive ev = true /\
       Forall ordered (uniqueWriteAddrs ev ++ uniqueReadAddrs ev) /\
       event_id k <> StatCounter_max /\
       ev' = CompEvent.reset ev /\
       event_id k' = event_id k + 1 /\ thread_id k' = thread_id k /\
       exists tail, lines k' = lines k ++ [comp_header ev k +:+ tail])
  | Fatal e =>
      isActive ev = true /\
      ((e = AssertionFailed /\
        ~ Forall ordered (uniqueWriteAddrs ev ++ uniqueReadAddrs ev)) \/
       (e = EidOverflow /\
        Forall ordered (uniqueWriteAddrs ev ++ uniqueReadAddrs ev) /\
        event_id k = StatCounter_max))
  end.
Proof.
  unfold STCompEvent_flush. destruct (isActive ev) eqn:Ha; [|by left].
  fold (comp_header ev k).
  destruct (log_ranges_cases n2hexstr " $ " (uniqueWriteAddrs ev)
              (comp_header ev k)) as [[Hw [t1 Ht1]]|[Hn Ht1]]; rewrite Ht1; simpl.
  2:{ split; [done|]. left. split; [done|].
      intros [? _]%Forall_app. by apply Hn. }
  destruct (log_ranges_cases n2hexstr " * " (uniqueReadAddrs ev)
              (comp_header ev k +:+ t1)) as [[Hr [t2 Ht2]]|[Hn Ht2]];
    rewrite Ht2; simpl.
  2:{ split; [done|]. left. split; [done|].
      intros [_ ?]%Forall_app. by apply Hn. }
  assert (Forall ordered (uniqueWriteAddrs ev ++ uniqueReadAddrs ev)) as Hall
    by (by apply Forall_app).
  unfold INCR_EID_OVERFLOW. destruct (Z.eqb_spec (event_id k) StatCounter_max)
    as [He|He]; simpl.
  - split; [done|]. by right.
  - right. repeat split; try done. exists (t1 +:+ t2).
    by rewrite string_app_assoc.
Qed.

(** X21.  The text flush of a communication event: an empty event writes
    nothing; an event that is not empty and holds an edge writes one line,
    which begins with the event id and the thread id, takes the next event
    id and is reset.  The flush fails by an assertion exactly when the
    event is marked not empty without an edge or a range of an edge has
    its first address above its second, and with the event id overflow
    exactly when neither is the case and the event id is the largest. *)
Theorem X21_text_flush_of_a_communication_event n2hexstr ev k :
  match STCommEvent_flush n2hexstr ev k with
  | Ok (ev', k') =>
      (commActive ev = false /\ ev' = ev /\ k' = k) \/
      (commActive ev = true /\ comms ev <> [] /\
       Forall (fun edge : CommEdge => Forall ordered edge.2) (comms ev) /\
       event_id k <> StatCounter_max /\
       ev' = CommEvent.reset ev /\
       event_id k' = event_id k + 1 /\ thread_id k' = thread_id k /\
       exists tail,
         lines k' = lines k ++
           [pretty (event_id k) +:+ "," +:+ pretty (thread_id k) +:+ tail])
  | Fatal e =>
      commActive ev = true /\
      ((e = AssertionFailed /\
        (comms ev = [] \/
         ~ Forall (fun edge : CommEdge => Forall ordered edge.2) (comms ev))) \/
       (e = EidOverflow /\ comms ev <> [] /\
        Forall (fun edge : CommEdge => Forall ordered edge.2) (comms ev) /\
        event_id k = StatCounter_max))
  end.
Proof.
  unfold STCommEvent_flush. destruct (commActive ev) eqn:Ha; [|by left].
  unfold assert_. case_bool_decide as Hc; simpl.
  { split; [done|]. left. split; [done|]. by left. }
  destruct (log_edges_cases n2hexstr (comms ev)
              (pretty (event_id k) +:+ "," +:+ pretty (thread_id k)))
    as [[Hf [t1 Ht1]]|[Hn Ht1]]; rewrite Ht1; simpl.
  2:{ split; [done|]. left. split; [done|]. by right. }
  unfold INCR_EID_OVERFLOW. destruct (Z.eqb_spec (event_id k) StatCounter_max)
    as [He|He]; simpl.
  - split; [done|]. by right.
  - right. repeat split; try done. exists t1.
    by rewrite !string_app_assoc.
Qed.

End TextLaws.

(** ** Option parsing *)

Module ParseFacts.
Import Parse.

Lemma substring_all s : String.substring 0 (String.length s) s = s.
Proof. induction s as [|c s IH]; simpl; [done|]. by rewrite IH. Qed.

Lemma opt_found_bare opt : opt_found (bare opt) = true.
Proof. done. Qed.

Lemma opt_found_attached opt value : opt_found (attached opt value) = true.
Proof. unfold opt_found, attached. simpl. by destruct value. Qed.

Lemma match_opt_attached opt value :
  opt ∈ options -> match_opt (attached opt value) = Some opt.
Proof.
  intros H. unfold match_opt, attached.
  assert (String.substring 1 1 (String "-" (String opt value)) = String opt EmptyString)
    as -> by (simpl; by destruct value).
  unfold options in *. repeat (apply elem_of_cons in H as [->|H]; [done|]).
  by apply elem_of_nil in H.
Qed.

Lemma substr_from_attached opt value :
  substr_from 2 (attached opt value) = value.
Proof.
  unfold substr_from, attached. simpl. rewrite Nat.sub_0_r.
  apply substring_all.
Qed.

Lemma parse_args_bare opt value rest m u :
  opt ∈ options ->
  parse_args (bare opt :: value :: rest) m u =
    parse_args rest (<[opt := value]> m) u.
Proof.
  intros H. unfold bare. change (String "-" (String opt EmptyString))
    with (attached opt EmptyString).
  cbn [parse_args]. rewrite opt_found_attached, match_opt_attached by done.
  done.
Qed.

Lemma parse_args_attached opt value rest m u :
  opt ∈ options -> value <> EmptyString ->
  parse_args (attached opt value :: rest) m u =
    parse_args rest (<[opt := value]> m) u.
Proof.
  intros H Hv. cbn [parse_args].
  rewrite opt_found_attached, match_opt_attached by done.
  assert ((2 <? String.length (attached opt value))%nat = true) as ->.
  { destruct value; [done|]. done. }
  by rewrite substr_from_attached.
Qed.

Lemma assign_app m gs1 gs2 : assign m (gs1 ++ gs2) = assign (assign m gs1) gs2.
Proof. unfold assign. by rewrite foldl_app. Qed.

Lemma parse_args_spells gs pre :
  spells gs pre -> Forall (fun g => g.1 ∈ options) gs ->
  forall rest m u,
    parse_args (pre ++ rest) m u = parse_args rest (assign m gs) u.
Proof.
  induction 1 as [|opt value gs args Hs IH|opt value gs args Hv Hs IH];
    intros Hall rest m u.
  - done.
  - apply Forall_cons in Hall as [Ho Hall]. simpl in Ho.
    rewrite <- !app_comm_cons. rewrite parse_args_bare by done. by rewrite IH.
  - apply Forall_cons in Hall as [Ho Hall]. simpl in Ho.
    rewrite <- !app_comm_cons. rewrite parse_args_attached by done.
    by rewrite IH.
Qed.

Lemma parse_args_mono_n n : forall args m u,
  (length args <= n)%nat -> u <= (parse_args args m u).2.
Proof.
  induction n as [|n IH]; intros args m u Hn.
  - destruct args; [simpl; lia|simpl in Hn; lia].
  - destruct args as [|arg rest]; [simpl; lia|]. simpl in Hn.
    cbn [parse_args]. destruct (opt_found arg).
    + destruct (match_opt arg) as [opt|].
      * destruct (2 <? String.length arg)%nat.
        -- apply IH. lia.
        -- destruct rest as [|value rest']; [simpl; lia|].
           apply IH. simpl in Hn. lia.
      * etrans; [|apply IH; lia]. lia.
    + etrans; [|apply IH; lia]. lia.
Qed.

Lemma parse_args_mono args m u : u <= (parse_args args m u).2.
Proof. by apply (parse_args_mono_n (length args)). Qed.

Lemma parse_args_unmatched bad post m u :
  opt_found bad = false \/ match_opt bad = None ->
  u + 1 <= (parse_args (bad :: post) m u).2.
Proof.
  intros Hbad. cbn [parse_args]. destruct (opt_found bad) eqn:Hf.
  - destruct Hbad as [?| ->]; [done|]. apply parse_args_mono.
  - apply parse_args_mono.
Qed.

End ParseFacts.

Module ParseLaws.
Import Parse ParseFacts.

(** X22.  [onParse] reads both spellings of an option, [-<opt> <value>]
    and [-<opt><value>], for the options [c], [l] and [o]: on an argument
    list that spells a sequence of options no argument is counted as
    unmatched, and [matches] holds for each option the value of its last
    occurrence.  A value that is given separately is taken as it is, also
    when it is empty or begins with a dash; an option that ends the list
    without a value is dropped without an error. *)
Theorem X22_onParse_reads_both_spellings gs args m u :
  spells gs args -> Forall (fun g => g.1 ∈ options) gs ->
  parse_args args m u = (assign m gs, u) /\
  (forall opt, opt ∈ options ->
     parse_args (args ++ [bare opt]) m u = (assign m gs, u)) /\
  (forall stoi s, onParse stoi s args <> ParseFailed UnexpectedOptions).
Proof.
  intros Hs Hall. split; [|split].
  - rewrite <- (app_nil_r args). by rewrite (parse_args_spells gs).
  - intros opt Ho. rewrite (parse_args_spells gs) by done.
    change (bare opt) with (attached opt EmptyString).
    cbn [parse_args]. by rewrite opt_found_attached, match_opt_attached.
  - intros stoi s. unfold onParse.
    rewrite <- (app_nil_r args), (parse_args_spells gs) by done.
    cbn [parse_args fst snd]. change (0 >? 0) with false. cbv iota.
    destruct (if is_empty (at_key (assign ∅ gs) "l") then _ else _); [|done].
    destruct (is_empty (at_key (assign ∅ gs) "c")); [done|].
    by destruct (stoi _).
Qed.

Lemma X22_witness :
  parse_args ["-c"; "50"; "-o/tmp"; "-l"; "-c"; "-c7"; "-o"]%string ∅ 0 =
    (<["c"%char := "7"%string]>
       (<["l"%char := "-c"%string]>
          (<["o"%char := "/tmp"%string]> (<["c"%char := "50"%string]> ∅))), 0).
Proof.
  assert (spells [("c"%char, "50"%string); ("o"%char, "/tmp"%string);
                  ("l"%char, "-c"%string); ("c"%char, "7"%string)]
            ["-c"; "50"; "-o/tmp"; "-l"; "-c"; "-c7"]%string) as Hs.
  { apply spells_separate. apply (spells_attached "o" "/tmp"); [done|].
    apply (spells_separate "l" "-c").
    apply (spells_attached "c" "7"); [done|]. constructor. }
  assert (Forall (fun g : ascii * string => g.1 ∈ options)
            [("c"%char, "50"%string); ("o"%char, "/tmp"%string);
             ("l"%char, "-c"%string); ("c"%char, "7"%string)]) as Ho.
  { repeat constructor. }
  exact (proj1 (proj2 (X22_onParse_reads_both_spellings _ _ ∅ 0 Hs Ho))
           "o"%char ltac:(repeat constructor)).
Defined.

(** X23.  After a sequence of options, an argument that is not an option
    (it does not begin with a dash, it is a dash alone, or its letter is
    none of [c], [l], [o]) is counted as unmatched, and [onParse] ends
    with the fatal error for unexpected options, whatever follows. *)
Theorem X23_onParse_rejects_anything_else stoi s gs pre bad post :
  spells gs pre -> Forall (fun g => g.1 ∈ options) gs ->
  opt_found bad = false \/ match_opt bad = None ->
  onParse stoi s (pre ++ bad :: post) = ParseFailed UnexpectedOptions.
Proof.
  intros Hs Hall Hbad. unfold onParse.
  rewrite (parse_args_spells gs) by done.
  pose proof (parse_args_unmatched bad post (assign ∅ gs) 0 Hbad) as Hu.
  destruct (parse_args (bad :: post) (assign ∅ gs) 0) as [m u]. simpl in *.
  by assert ((u >? 0) = true) as -> by lia.
Qed.

Lemma X23_witness :
  onParse (fun _ => StoiValue 50) default_settings
    ["-c"; "50"; "out"; "-l"; "text"]%string = ParseFailed UnexpectedOptions /\
  onParse (fun _ => StoiValue 50) default_settings
    ["-c"; "50"; "-x"]%string = ParseFailed UnexpectedOptions.
Proof.
  assert (spells [("c"%char, "50"%string)] ["-c"; "50"]%string) as Hs
    by (apply spells_separate; constructor).
  assert (Forall (fun g : ascii * string => g.1 ∈ options)
            [("c"%char, "50"%string)]) as Ho by (repeat constructor).
  split.
  - exact (X23_onParse_rejects_anything_else _ _ _ _ "out"%string
             ["-l"; "text"]%string Hs Ho (or_introl eq_refl)).
  - exact (X23_onParse_rejects_anything_else _ _ _ _ "-x"%string
             [] Hs Ho (or_intror eq_refl)).
Defined.

(** X24.  [onParse] does not check the compression level: whatever [int]
    [std::stoi] reads from the last value of [-c] is assigned to the
    unsigned [primsPerStCompEv], a negative one wrapping around.  A level
    outside [1 .. 100] is only met by the assertion of the ThreadContext
    constructor, at the first swap to a new thread. *)
Theorem X24_compression_level_is_checked_at_the_first_swap stoi s gs args n :
  spells gs args -> Forall (fun g => g.1 ∈ options) gs ->
  at_key (assign ∅ gs) "c" <> EmptyString ->
  stoi (at_key (assign ∅ gs) "c") = StoiValue n ->
  match onParse stoi s args with
  | Parsed s' =>
      s_primsPerStCompEv s' = n mod 2 ^ 32 /\
      (~ 0 < n mod 2 ^ 32 <= 100 ->
       forall eh g t,
         g_primsPerStCompEv g = s_primsPerStCompEv s' ->
         0 < t -> currentTID eh <> t -> t ∉ newThreadsInOrder g ->
         EH.onSwapTCxt eh g t = Fatal AssertionFailed)
  | ParseFailed e => exists l, e = UnexpectedLogger l
  end.
Proof.
  intros Hs Hall Hc Hn. unfold onParse.
  rewrite <- (app_nil_r args), (parse_args_spells gs) by done.
  cbn [parse_args fst snd]. change (0 >? 0) with false. cbv iota.
  destruct (if is_empty (at_key (assign ∅ gs) "l") then _ else _);
    [|by eexists].
  assert (is_empty (at_key (assign ∅ gs) "c") = false) as ->
    by (by destruct (at_key (assign ∅ gs) "c")).
  rewrite Hn. cbn [s_primsPerStCompEv]. split; [done|].
  intros Hbad eh g t Hg Ht Hcur Hnew.
  unfold EH.onSwapTCxt, assert_. assert ((t >? 0) = true) as -> by lia. simpl.
  rewrite bool_decide_eq_true_2 by done.
  rewrite bool_decide_eq_true_2 by done.
  unfold TCxt.create, assert_. simpl.
  destruct (t <=? 128); simpl; [|done]. rewrite Hg.
  destruct ((0 <? n mod 2 ^ 32) && (n mod 2 ^ 32 <=? 100)) eqn:H2;
    simpl; [lia|done].
Qed.

Lemma X24_witness :
  onParse (fun _ => StoiValue (-5)) default_settings ["-c"; "-5"]%string =
    Parsed (mkSettings "." 4294967291 (Some GenTextLogger)) /\
  EH.onSwapTCxt (EH.init (-1)) (mkGlobals 4294967291 [] [] [] ∅) 1 =
    Fatal AssertionFailed.
Proof.
  assert (spells [("c"%char, "-5"%string)] ["-c"; "-5"]%string) as Hs
    by (apply spells_separate; constructor).
  assert (Forall (fun g : ascii * string => g.1 ∈ options)
            [("c"%char, "-5"%string)]) as Ho by (repeat constructor).
  pose proof (X24_compression_level_is_checked_at_the_first_swap
                (fun _ => StoiValue (-5)) default_settings _ _ (-5) Hs Ho
                ltac:(done) eq_refl) as H.
  split; [done|].
  destruct H as [_ H]. apply H.
  - vm_compute. intros [_ ?]. done.
  - done.
  - lia.
  - simpl. lia.
  - simpl. apply not_elem_of_nil.
Defined.

End ParseLaws.
